(** * Reversi engine: board model, evaluation, search and learning.

    Shallow embedding of the engine of the reversi repository:
    - [Grid]   : the 8x8 board model shared by [src/ai-worker.js] and
                 [src/unnamed/part_001] (isValid, canFlip, execute,
                 getValidMoves, clone, countEmpty); cells 0 / 1 / 2.
    - [Worker] : the [UltimateAI] class of [src/ai-worker.js]
                 (positional weights, train, evaluate, minimax, getBestMove).
    - [V6]     : the [UltimateAI] class of [src/unnamed/part_001]
                 (same engine with danger-zone evaluation and unified
                 symmetric weight updates).
    - [Core]   : the N-tuple network of [src/ai_core.js] (flat 64-cell
                 board, turns 1 / -1).
    - [Fast]   : the [FastOthello] board of [src/unnamed/part_000]
                 (10x10 board with sentinels).

    JavaScript numbers that hold weights and scores are modelled as
    rationals [Q] (rounding of doubles and of [Float32Array] is not
    modelled); [-Infinity] / [Infinity] are the extra constructors of
    [jsnum].  Storage (IndexedDB) and message passing are left out. *)

From Stdlib Require Import ZArith QArith Qminmax Qround Lqa Lia Sorted.
From stdpp Require Import base list.

Open Scope Z_scope.

(** ** JavaScript numbers with infinities *)
Module JS.

Inductive jsnum : Type :=
| NegInf : jsnum
| Num : Q -> jsnum
| PosInf : jsnum.

(** [a <= b] on numbers *)
Definition jle (a b : jsnum) : bool :=
  match a, b with
  | NegInf, _ => true
  | _, PosInf => true
  | Num x, Num y => Qle_bool x y
  | _, _ => false
  end.

(** [a > b] *)
Definition jgt (a b : jsnum) : bool := negb (jle a b).

(** [Math.max] and [Math.min] *)
Definition jmax (a b : jsnum) : jsnum := if jle a b then b else a.
Definition jmin (a b : jsnum) : jsnum := if jle a b then a else b.

(** [Math.max(lo, Math.min(hi, x))] on finite numbers *)
Definition Qjmax (a b : Q) : Q := if Qle_bool a b then b else a.
Definition Qjmin (a b : Q) : Q := if Qle_bool a b then a else b.

End JS.

(** ** Board model of ai-worker.js / part_001 *)
Module Grid.

(** [b[r][c]]: a board is an array of 8 rows of 8 cells.  Reads outside
    the array never happen in the code (every read is bounds-checked or
    follows a successful [canFlip]); they give 0 here. *)
Abbreviation Board := (list (list Z)) (only parsing).

Definition get (b : Board) (r c : Z) : Z :=
  if (0 <=? r) && (0 <=? c) then
    match b !! Z.to_nat r with
    | Some row => match row !! Z.to_nat c with Some v => v | None => 0 end
    | None => 0
    end
  else 0.

(** [b[r][c] = v] *)
Definition set (b : Board) (r c v : Z) : Board :=
  if (0 <=? r) && (0 <=? c) then alter (fun row => <[Z.to_nat c := v]> row) (Z.to_nat r) b
  else b.

(** [this.directions] *)
Definition directions : list (Z * Z) :=
  [(-1,-1); (-1,0); (-1,1); (0,-1); (0,1); (1,-1); (1,0); (1,1)].

Definition range8 : list Z := [0; 1; 2; 3; 4; 5; 6; 7].

Definition in_board (r c : Z) : bool := (0 <=? r) && (r <? 8) && (0 <=? c) && (c <? 8).

(** The [while] loop of [canFlip(b, r, c, d, p)].  A ray leaves the
    8x8 board after at most 8 steps, so 8 rounds of fuel run the loop to
    its end. *)
Fixpoint canFlip_loop (fuel : nat) (b : Board) (nr nc dr dc p : Z) (hasOpp : bool) : bool :=
  match fuel with
  | O => false
  | S f =>
    if in_board nr nc then
      if get b nr nc =? 3 - p then canFlip_loop f b (nr + dr) (nc + dc) dr dc p true
      else if get b nr nc =? p then hasOpp
      else false
    else false
  end.

Definition canFlip (b : Board) (r c : Z) (d : Z * Z) (p : Z) : bool :=
  canFlip_loop 8 b (r + d.1) (c + d.2) d.1 d.2 p false.

Definition isValid (b : Board) (r c p : Z) : bool :=
  if negb (get b r c =? 0) then false
  else existsb (fun d => canFlip b r c d p) directions.

(** Moves are the [{r, c}] objects pushed in row-major order. *)
Definition getValidMoves (b : Board) (p : Z) : list (Z * Z) :=
  flat_map (fun r => flat_map (fun c => if isValid b r c p then [(r, c)] else []) range8) range8.

(** The flipping [while(b[nr][nc] !== p)] loop of [execute]; it only runs
    after [canFlip] succeeded, so it stops inside the board. *)
Fixpoint flip_loop (fuel : nat) (b : Board) (nr nc dr dc p : Z) : Board :=
  match fuel with
  | O => b
  | S f =>
    if negb (get b nr nc =? p) then flip_loop f (set b nr nc p) (nr + dr) (nc + dc) dr dc p
    else b
  end.

(** [execute(b, r, c, p)] mutates the board: [b[r][c] = p], then for each
    direction whose [canFlip] (on the board as mutated so far) succeeds,
    the flip loop. *)
Definition exec_step (r c p : Z) (b : Board) (d : Z * Z) : Board :=
  if canFlip b r c d p then flip_loop 8 b (r + d.1) (c + d.2) d.1 d.2 p else b.

Definition execute (b : Board) (r c p : Z) : Board :=
  fold_left (exec_step r c p) directions (set b r c p).

(** [countEmpty(b)] *)
Definition countEmpty (b : Board) : nat :=
  length (List.filter (fun x => x =? 0) (concat b)).

(** All cells in row-major order, and the number of discs on the board. *)
Definition all_cells : list (Z * Z) := list_prod range8 range8.

Definition count_discs (b : Board) : nat :=
  length (List.filter (fun rc => negb (get b rc.1 rc.2 =? 0)) all_cells).

(** Number of discs of side [v]. *)
Definition count_of (b : Board) (v : Z) : nat :=
  length (List.filter (fun rc => get b rc.1 rc.2 =? v) all_cells).

(** An 8x8 board. *)
Definition wf_board (b : Board) : Prop := length b = 8%nat /\ Forall (fun row => length row = 8%nat) b.

(** The standard opening position of [runTrainingLoop]. *)
Definition initial_board : Board :=
  [[0;0;0;0;0;0;0;0];
   [0;0;0;0;0;0;0;0];
   [0;0;0;0;0;0;0;0];
   [0;0;0;2;1;0;0;0];
   [0;0;0;1;2;0;0;0];
   [0;0;0;0;0;0;0;0];
   [0;0;0;0;0;0;0;0];
   [0;0;0;0;0;0;0;0]].

(** Specification of a legal move, from the words of the spec: from the
    empty cell [(r, c)], the ray in direction [(dr, dc)] holds a non-empty
    run of [k] opponent discs immediately followed by a disc of [p]. *)
Definition flanks (b : Board) (r c dr dc p : Z) : Prop :=
  exists k : nat, (1 <= k)%nat /\
    (forall i : nat, (1 <= i <= k)%nat ->
       in_board (r + Z.of_nat i * dr) (c + Z.of_nat i * dc) = true /\
       get b (r + Z.of_nat i * dr) (c + Z.of_nat i * dc) = 3 - p) /\
    in_board (r + Z.of_nat (S k) * dr) (c + Z.of_nat (S k) * dc) = true /\
    get b (r + Z.of_nat (S k) * dr) (c + Z.of_nat (S k) * dc) = p.

End Grid.

(** ** Positional weight matrices ([this.weights]) *)
Module Weights.

Abbreviation Weights := (list (list Q)) (only parsing).

(** [this.weights[r][c]]; every index used by the code is in [0, 7]. *)
Definition wget (w : Weights) (r c : Z) : Q :=
  match w !! Z.to_nat r with
  | Some row => match row !! Z.to_nat c with Some v => v | None => 0%Q end
  | None => 0%Q
  end.

(** [this.weights[r][c] = v] *)
Definition wset (w : Weights) (r c : Z) (v : Q) : Weights :=
  alter (fun row => <[Z.to_nat c := v]> row) (Z.to_nat r) w.

(** An 8x8 matrix. *)
Definition wf_weights (w : Weights) : Prop :=
  length w = 8%nat /\ Forall (fun row => length row = 8%nat) w.

(** Every entry in [[-bound, bound]]. *)
Definition within (bound : Q) (w : Weights) : Prop :=
  forall r c, 0 <= r < 8 -> 0 <= c < 8 -> (- bound <= wget w r c <= bound)%Q.

(** The symmetry class of [train]: whether [(r', c')] is one of the four cells [(r, c)], [(r, 7-c)],
    [(7-r, c)], [(7-r, 7-c)]. *)
Definition in_class (r c r' c' : Z) : bool :=
  ((r' =? r) || (r' =? 7 - r)) && ((c' =? c) || (c' =? 7 - c)).

End Weights.

(** ** Minimax with alpha-beta and the root search, shared by both
    positional-weight engines ([minimax] and [getBestMove] are the same
    text in ai-worker.js and part_001 up to [evaluate], [evaluateFinal] and
    the mid-game depth). *)
Module Search.
Import JS Grid.

(** [moves.sort((a,b) => w[b] - w[a])]: a stable sort by decreasing key
    (Array.prototype.sort is stable), as an insertion sort. *)
Fixpoint insert_desc {A} (key : A -> Q) (x : A) (l : list A) : list A :=
  match l with
  | [] => [x]
  | y :: l' => if negb (Qle_bool (key x) (key y)) then x :: l else y :: insert_desc key x l'
  end.

Definition sort_desc {A} (key : A -> Q) (l : list A) : list A :=
  fold_left (fun acc x => insert_desc key x acc) l [].

Section Engine.
Variable evaluate : Board -> Z -> Q.
Variable evaluateFinal : Board -> Z -> Q.

(** [minimax(board, depth, alpha, beta, isMax, player)].  The depth is a
    natural number: the root calls it with [maxDepth - 1 >= 0] and every
    recursive call is made with [depth - 1] from a non-zero [depth]. *)
Fixpoint minimax (board : Board) (depth : nat) (alpha beta : jsnum) (isMax : bool) (player : Z)
  {struct depth} : jsnum :=
  match depth with
  | O => Num (evaluate board player)
  | S d =>
    let curP := if isMax then player else 3 - player in
    match getValidMoves board curP with
    | [] =>
      match getValidMoves board (3 - curP) with
      | [] => Num (evaluateFinal board player)
      | _ => minimax board d alpha beta (negb isMax) player
      end
    | moves =>
      if isMax then
        (fix max_loop (ms : list (Z * Z)) (max alpha : jsnum) : jsnum :=
           match ms with
           | [] => max
           | m :: ms' =>
             let nb := execute board m.1 m.2 curP in
             let v := minimax nb d alpha beta false player in
             let max := jmax max v in
             let alpha := jmax alpha v in
             if jle beta alpha then max else max_loop ms' max alpha
           end) moves NegInf alpha
      else
        (fix min_loop (ms : list (Z * Z)) (min beta : jsnum) : jsnum :=
           match ms with
           | [] => min
           | m :: ms' =>
             let nb := execute board m.1 m.2 curP in
             let v := minimax nb d alpha beta true player in
             let min := jmin min v in
             let beta := jmin beta v in
             if jle beta alpha then min else min_loop ms' min beta
           end) moves PosInf beta
    end
  end.

Variable sortKey : Z * Z -> Q.
Variable midDepth : nat.

(** [let maxDepth = (empty <= 14) ? empty : midDepth] *)
Definition searchDepth (board : Board) : nat :=
  let empty := countEmpty board in
  if (empty <=? 14)%nat then empty else midDepth.

(** The loop over the sorted root moves of [getBestMove]; [beta] stays
    [Infinity] at the root. *)
Fixpoint root_loop (board : Board) (player : Z) (maxDepth : nat)
    (ms : list (Z * Z)) (bestMove : Z * Z) (alpha : jsnum) : Z * Z :=
  match ms with
  | [] => bestMove
  | m :: ms' =>
    let nb := execute board m.1 m.2 player in
    let val := minimax nb (maxDepth - 1) alpha PosInf false player in
    if jgt val alpha then root_loop board player maxDepth ms' m val
    else root_loop board player maxDepth ms' bestMove alpha
  end.

(** [getBestMove(board, player)]: [None] is the [null] returned when
    there is no legal move.  [bestMove = moves[0]] is read before the
    in-place sort. *)
Definition getBestMove (board : Board) (player : Z) : option (Z * Z) :=
  match getValidMoves board player with
  | [] => None
  | (m0 :: _) as moves =>
    let maxDepth := searchDepth board in
    Some (root_loop board player maxDepth (sort_desc sortKey moves) m0 NegInf)
  end.

End Engine.
End Search.

(** ** [UltimateAI] of ai-worker.js *)
Module Worker.
Import JS Grid Weights.

Definition defaultWeights : list (list Q) :=
  [[100; -20; 20;  5;  5; 20; -20; 100];
   [-20; -40; -5; -5; -5; -5; -40; -20];
   [ 20;  -5; 15;  3;  3; 15;  -5;  20];
   [  5;  -5;  3;  3;  3;  3;  -5;   5];
   [  5;  -5;  3;  3;  3;  3;  -5;   5];
   [ 20;  -5; 15;  3;  3; 15;  -5;  20];
   [-20; -40; -5; -5; -5; -5; -40; -20];
   [100; -20; 20;  5;  5; 20; -20; 100]]%Q.

Record AIState := mkAI { weights : list (list Q); totalGames : nat }.

(** Body of the [if(board[r][c] === aiPlayer)] branch of [train]: the four
    symmetric cells each get [update] added to their own value, then only
    [weights[r][c]] is clamped to [[-500, 500]]. *)
Definition train_cell (w : list (list Q)) (r c : Z) (update : Q) : list (list Q) :=
  let w := wset w r c (wget w r c + update) in
  let w := wset w r (7 - c) (wget w r (7 - c) + update) in
  let w := wset w (7 - r) c (wget w (7 - r) c + update) in
  let w := wset w (7 - r) (7 - c) (wget w (7 - r) (7 - c) + update) in
  wset w r c (Qjmax (-500) (Qjmin 500 (wget w r c))).

(** The two nested [for] loops of [train]. *)
Definition train_cells (board : Board) (aiPlayer : Z) (update : Q) (w : list (list Q)) :=
  fold_left (fun w r =>
    fold_left (fun w c => if get board r c =? aiPlayer then train_cell w r c update else w)
      range8 w) range8 w.

(** [async train(board, winner, aiPlayer)]; the boolean is [true] when a
    save is made (a size is returned) and [false] for the early [null]. *)
Definition train (st : AIState) (board : Board) (winner aiPlayer : Z) : AIState * bool :=
  if winner =? 0 then (st, false)
  else
    let learningRate := (3 # 2)%Q in
    let sign := if winner =? aiPlayer then 1%Q else (-1)%Q in
    let update := (sign * learningRate)%Q in
    (mkAI (train_cells board aiPlayer update (weights st)) (S (totalGames st)), true).

(** [evaluate(board, player)]: positional weights, corner bonus and
    mobility. *)
Definition evaluate (w : list (list Q)) (board : Board) (player : Z) : Q :=
  let opp := 3 - player in
  let score :=
    fold_left (fun s r =>
      fold_left (fun s c =>
        if get board r c =? player then (s + wget w r c)%Q
        else if get board r c =? opp then (s - wget w r c)%Q
        else s) range8 s) range8 0%Q in
  let corners := [(0,0); (0,7); (7,0); (7,7)] in
  let score :=
    fold_left (fun s rc =>
      if get board rc.1 rc.2 =? player then (s + 150)%Q
      else if get board rc.1 rc.2 =? opp then (s - 150)%Q
      else s) corners score in
  let myMoves := length (getValidMoves board player) in
  let oppMoves := length (getValidMoves board opp) in
  (score + inject_Z (Z.of_nat myMoves - Z.of_nat oppMoves) * 15)%Q.

(** [evaluateFinal(board, player)] *)
Definition evaluateFinal (board : Board) (player : Z) : Q :=
  let opp := 3 - player in
  let diff :=
    fold_left (fun d r =>
      fold_left (fun d c =>
        if get board r c =? player then d + 1
        else if get board r c =? opp then d - 1
        else d) range8 d) range8 0 in
  inject_Z (diff * 1000).

Definition minimax (st : AIState) :=
  Search.minimax (evaluate (weights st)) evaluateFinal.

(** [getBestMove]: mid-game depth 4, root moves sorted by weight. *)
Definition getBestMove (st : AIState) (board : Board) (player : Z) : option (Z * Z) :=
  Search.getBestMove (evaluate (weights st)) evaluateFinal
    (fun m => wget (weights st) m.1 m.2) 4 board player.

End Worker.

(** ** [UltimateAI] of part_001 (V6) *)
Module V6.
Import JS Grid Weights.

Definition defaultWeights : list (list Q) :=
  [[ 120; -60; 20;  5;  5; 20; -60; 120];
   [ -60; -80; -5; -5; -5; -5; -80; -60];
   [  20;  -5; 15;  3;  3; 15;  -5;  20];
   [   5;  -5;  3;  3;  3;  3;  -5;   5];
   [   5;  -5;  3;  3;  3;  3;  -5;   5];
   [  20;  -5; 15;  3;  3; 15;  -5;  20];
   [ -60; -80; -5; -5; -5; -5; -80; -60];
   [ 120; -60; 20;  5;  5; 20; -60; 120]]%Q.

Record AIState := mkAI { weights : list (list Q); totalGames : nat }.

(** [this.dangerMap]: for each corner, the cells next to it. *)
Definition corners : list (Z * Z * list (Z * Z)) :=
  [(0, 0, [(0,1); (1,0); (1,1)]);
   (0, 7, [(0,6); (1,7); (1,6)]);
   (7, 0, [(6,0); (7,1); (6,1)]);
   (7, 7, [(7,6); (6,7); (6,6)])].

(** Body of the [if(board[r][c] === aiPlayer)] branch of [train]: the new
    value of [weights[r][c]] is clamped to [[-200, 200]] and copied into
    the three symmetric cells. *)
Definition train_cell (w : list (list Q)) (r c : Z) (update : Q) : list (list Q) :=
  let v := (wget w r c + update)%Q in
  let w := wset w r c (Qjmax (-200) (Qjmin 200 v)) in
  let w := wset w r (7 - c) (wget w r c) in
  let w := wset w (7 - r) c (wget w r c) in
  wset w (7 - r) (7 - c) (wget w r c).

Definition train_cells (board : Board) (aiPlayer : Z) (update : Q) (w : list (list Q)) :=
  fold_left (fun w r =>
    fold_left (fun w c => if get board r c =? aiPlayer then train_cell w r c update else w)
      range8 w) range8 w.

Definition train (st : AIState) (board : Board) (winner aiPlayer : Z) : AIState * bool :=
  if winner =? 0 then (st, false)
  else
    let learningRate := 1%Q in
    let sign := if winner =? aiPlayer then 1%Q else (-1)%Q in
    let update := (sign * learningRate)%Q in
    (mkAI (train_cells board aiPlayer update (weights st)) (S (totalGames st)), true).

(** [evaluate(board, player)]: positional weights, corner bonus or
    danger-zone penalty, mobility. *)
Definition evaluate (w : list (list Q)) (board : Board) (player : Z) : Q :=
  let opp := 3 - player in
  let score :=
    fold_left (fun s r =>
      fold_left (fun s c =>
        if get board r c =? player then (s + wget w r c)%Q
        else if get board r c =? opp then (s - wget w r c)%Q
        else s) range8 s) range8 0%Q in
  let score :=
    fold_left (fun s corner =>
      let '(cr, cc, dangers) := corner in
      let stone := get board cr cc in
      if stone =? player then (s + 500)%Q
      else if stone =? opp then (s - 500)%Q
      else
        fold_left (fun s d =>
          let dStone := get board d.1 d.2 in
          if dStone =? player then (s - 300)%Q
          else if dStone =? opp then (s + 300)%Q
          else s) dangers s) corners score in
  let myMoves := length (getValidMoves board player) in
  let oppMoves := length (getValidMoves board opp) in
  (score + inject_Z (Z.of_nat myMoves - Z.of_nat oppMoves) * 15)%Q.

Definition evaluateFinal (board : Board) (player : Z) : Q :=
  let opp := 3 - player in
  let diff :=
    fold_left (fun d r =>
      fold_left (fun d c =>
        if get board r c =? player then d + 1
        else if get board r c =? opp then d - 1
        else d) range8 d) range8 0 in
  inject_Z (diff * 10000).

Definition minimax (st : AIState) :=
  Search.minimax (evaluate (weights st)) evaluateFinal.

(** [getBestMove]: mid-game depth 6. *)
Definition getBestMove (st : AIState) (board : Board) (player : Z) : option (Z * Z) :=
  Search.getBestMove (evaluate (weights st)) evaluateFinal
    (fun m => wget (weights st) m.1 m.2) 6 board player.

End V6.

(** ** N-tuple network of ai_core.js *)
Module Core.
Import JS.

(** A board is the 64-cell [Int8Array] (1 black, -1 white, 0 empty);
    [board[i]] is [nth i board 0]. *)
Abbreviation Board64 := (list Z) (only parsing).

Definition cell (board : Board64) (i : Z) : Z := nth (Z.to_nat i) board 0.

Definition learningRate : Q := 1 # 100.

(** [this.rawTuples] *)
Definition rawTuples : list (list nat) :=
  [[0; 1; 2; 3; 8; 9; 10; 11];
   [0; 1; 2; 3; 4; 5; 6; 7];
   [0; 9; 18; 27; 36; 45; 54; 63];
   [18; 19; 26; 27; 20; 21; 28; 29]]%nat.

(** Entry [i] of symmetry map [s] in [generateSymmetryMaps]: bit 0 of [s]
    mirrors the column, bit 1 the row, bit 2 swaps row and column. *)
Definition symmetry (s i : nat) : nat :=
  (let r := i / 8 in
   let c := i mod 8 in
   let c := if Nat.testbit s 0 then 7 - c else c in
   let r := if Nat.testbit s 1 then 7 - r else r in
   let '(r, c) := if Nat.testbit s 2 then (c, r) else (r, c) in
   r * 8 + c)%nat.

Definition generateSymmetryMaps : list (list nat) :=
  map (fun s => map (symmetry s) (seq 0 64)) (seq 0 8).

(** [this.symmetryMaps] *)
Definition symmetryMaps : list (list nat) := generateSymmetryMaps.

(** [(cell === 0) ? 0 : (cell === 1 ? 1 : 2)] *)
Definition cellVal (v : Z) : nat := if v =? 0 then 0%nat else if v =? 1 then 1%nat else 2%nat.

(** The base-3 index loop over the cells of a tuple, the same text in
    [evaluate] and [updateWeights]. *)
Fixpoint index_loop (tuple map : list nat) (board : Board64) (index power : nat) : nat :=
  match tuple with
  | [] => index
  | t :: ts =>
    let boardIdx := nth t map 0%nat in
    let v := cellVal (nth boardIdx board 0) in
    index_loop ts map board (index + v * power)%nat (power * 3)%nat
  end.

Definition tupleIndex (tuple map : list nat) (board : Board64) : nat :=
  index_loop tuple map board 0%nat 1%nat.

(** [this.weights]: one table per tuple, [weightTable[index]] read as
    [nth index table 0]. *)
Abbreviation Tables := (list (list Q)) (only parsing).

(** [evaluate(board)]: the black-perspective score. *)
Definition evaluate (weights : Tables) (board : Board64) : Q :=
  fold_left (fun total t =>
    let rawTuple := nth t rawTuples [] in
    let weightTable := nth t weights [] in
    fold_left (fun total s =>
      let map := nth s symmetryMaps [] in
      let index := tupleIndex rawTuple map board in
      (total + nth index weightTable 0)%Q) (seq 0 8) total)
    (seq 0 (length rawTuples)) 0%Q.

(** [weightTable[index] += delta]; [weightTable] aliases [this.weights[t]]. *)
Definition add_entry (weights : Tables) (t index : nat) (delta : Q) : Tables :=
  let weightTable := nth t weights [] in
  <[t := <[index := (nth index weightTable 0 + delta)%Q]> weightTable]> weights.

(** [updateWeights(board, error)] *)
Definition updateWeights (weights : Tables) (board : Board64) (error : Q) : Tables :=
  let delta := (error * learningRate)%Q in
  fold_left (fun weights t =>
    let rawTuple := nth t rawTuples [] in
    fold_left (fun weights s =>
      let map := nth s symmetryMaps [] in
      let index := tupleIndex rawTuple map board in
      add_entry weights t index delta) (seq 0 8) weights)
    (seq 0 (length rawTuples)) weights.

Record HistoryEntry := mkEntry { hboard : Board64; hturn : Z }.

(** The loop [for (let i = history.length - 1; i >= 0; i--)] of [train];
    [i] is the number of entries left to visit. *)
Fixpoint train_loop (history : list HistoryEntry) (i : nat) (weights : Tables) (currentTarget : Q)
  : Tables :=
  match i with
  | O => weights
  | S i' =>
    let board := hboard (nth i' history (mkEntry [] 0)) in
    let currentVal := evaluate weights board in
    let error := (currentTarget - currentVal)%Q in
    let weights := updateWeights weights board error in
    train_loop history i' weights currentVal
  end.

(** [train(history, result)] *)
Definition train (weights : Tables) (history : list HistoryEntry) (result : Z) : Tables :=
  train_loop history (length history) weights (inject_Z result).

Definition dirs : list (Z * Z) :=
  [(-1,-1); (-1,0); (-1,1); (0,-1); (0,1); (1,-1); (1,0); (1,1)].

Definition in_board (r c : Z) : bool := (0 <=? r) && (r <? 8) && (0 <=? c) && (c <? 8).

(** The [while] loop of [canFlip] for one direction: [true] for
    [return true], [false] for [break] or leaving the board. *)
Fixpoint ray_loop (fuel : nat) (board : Board64) (nr nc dr dc turn : Z) (hasOpp : bool) : bool :=
  match fuel with
  | O => false
  | S f =>
    if in_board nr nc then
      let val := cell board (nr * 8 + nc) in
      if val =? - turn then ray_loop f board (nr + dr) (nc + dc) dr dc turn true
      else if val =? turn then hasOpp
      else false
    else false
  end.

(** [canFlip(board, idx, turn)] *)
Definition canFlip (board : Board64) (idx turn : Z) : bool :=
  let r := idx / 8 in
  let c := idx mod 8 in
  existsb (fun d => ray_loop 8 board (r + d.1) (c + d.2) d.1 d.2 turn false) dirs.

(** [getLegalMoves(board, turn)] *)
Definition getLegalMoves (board : Board64) (turn : Z) : list Z :=
  List.filter (fun i => (cell board i =? 0) && canFlip board i turn)
    (map Z.of_nat (seq 0 64)).

(** The [while] loop of [simulateMove] for one direction. *)
Fixpoint sim_loop (fuel : nat) (newBoard : Board64) (nr nc dr dc turn : Z) (flippables : list Z)
  : Board64 :=
  match fuel with
  | O => newBoard
  | S f =>
    if in_board nr nc then
      let idx := nr * 8 + nc in
      if cell newBoard idx =? - turn then
        sim_loop f newBoard (nr + dr) (nc + dc) dr dc turn (flippables ++ [idx])
      else if cell newBoard idx =? turn then
        fold_left (fun b f => <[Z.to_nat f := turn]> b) flippables newBoard
      else newBoard
    else newBoard
  end.

(** One round of the direction loop of [simulateMove]. *)
Definition sim_step (r c turn : Z) (newBoard : Board64) (d : Z * Z) : Board64 :=
  sim_loop 8 newBoard (r + d.1) (c + d.2) d.1 d.2 turn [].

(** [simulateMove(board, moveIdx, turn)] *)
Definition simulateMove (board : Board64) (moveIdx turn : Z) : Board64 :=
  let newBoard := <[Z.to_nat moveIdx := turn]> board in
  let r := moveIdx / 8 in
  let c := moveIdx mod 8 in
  fold_left (sim_step r c turn) dirs newBoard.

(** Lines 69-72 of [getBestMove]: the score from the side to move, the
    black-perspective [evaluate] negated for white. *)
Definition score (weights : Tables) (board : Board64) (turn : Z) : Q :=
  let s := evaluate weights board in
  if turn =? -1 then (- s)%Q else s.

(** The [for (const move of legalMoves)] loop of [getBestMove]. *)
Fixpoint best_loop (weights : Tables) (board : Board64) (turn : Z)
    (ms : list Z) (bestScore : jsnum) (bestMove : Z) : Z :=
  match ms with
  | [] => bestMove
  | move :: ms' =>
    let nextBoard := simulateMove board move turn in
    let s := score weights nextBoard turn in
    if jgt (Num s) bestScore then best_loop weights board turn ms' (Num s) move
    else best_loop weights board turn ms' bestScore bestMove
  end.

(** [getBestMove(board, turn)]: [-1] is the pass. *)
Definition getBestMove (weights : Tables) (board : Board64) (turn : Z) : Z :=
  match getLegalMoves board turn with
  | [] => -1
  | legalMoves => best_loop weights board turn legalMoves NegInf (-1)
  end.

(** Specification of a legal move on the flat board, from the spec's
    words, with [-turn] the opponent. *)
Definition flanks (board : Board64) (r c dr dc turn : Z) : Prop :=
  exists k : nat, (1 <= k)%nat /\
    (forall i : nat, (1 <= i <= k)%nat ->
       in_board (r + Z.of_nat i * dr) (c + Z.of_nat i * dc) = true /\
       cell board ((r + Z.of_nat i * dr) * 8 + (c + Z.of_nat i * dc)) = - turn) /\
    in_board (r + Z.of_nat (S k) * dr) (c + Z.of_nat (S k) * dc) = true /\
    cell board ((r + Z.of_nat (S k) * dr) * 8 + (c + Z.of_nat (S k) * dc)) = turn.

End Core.

(** ** [FastOthello] of part_000: 10x10 board with sentinel cells *)
Module Fast.

(** [this.board] ([Int8Array(100)], 2 = wall), [this.turn] (1 / -1),
    [this.passCount]. *)
Record Game := mkGame { board : list Z; turn : Z; passCount : Z }.

(** [this.directions] *)
Definition directions : list Z := [-11; -10; -9; -1; 1; 9; 10; 11].

(** [this.board[i]]: reads outside the array give [undefined]. *)
Definition rd (b : list Z) (i : Z) : option Z :=
  if i <? 0 then None else b !! Z.to_nat i.

Definition is (b : list Z) (i v : Z) : bool := bool_decide (rd b i = Some v).

(** [reset()]: walls everywhere, 64 empty cells, the four centre discs. *)
Definition reset_board : list Z :=
  map (fun i => let y := i / 10 in let x := i mod 10 in
         if (1 <=? y) && (y <=? 8) && (1 <=? x) && (x <=? 8) then
           if (i =? 44) || (i =? 55) then -1 else if (i =? 45) || (i =? 54) then 1 else 0
         else 2) (map Z.of_nat (seq 0 100)).

Definition reset : Game := mkGame reset_board 1 0.

(** [while (this.board[curr] === -this.turn) curr += dir;]: the walls stop
    the loop within 8 steps. *)
Fixpoint skip_loop (fuel : nat) (b : list Z) (curr dir v : Z) : Z :=
  match fuel with
  | O => curr
  | S f => if is b curr v then skip_loop f b (curr + dir) dir v else curr
  end.

(** The body of the direction loop of [getLegalMoves] ([canHit]). *)
Definition hits (b : list Z) (idx dir turn : Z) : bool :=
  let curr := idx + dir in
  if is b curr (- turn) then is b (skip_loop 10 b curr dir (- turn)) turn else false.

(** [getLegalMoves()]: 10x10 indices of the legal moves. *)
Definition getLegalMoves (g : Game) : list Z :=
  flat_map (fun y =>
    flat_map (fun x =>
      let idx := y * 10 + x in
      if negb (is (board g) idx 0) then []
      else if existsb (fun dir => hits (board g) idx dir (turn g)) directions then [idx]
      else []) [1; 2; 3; 4; 5; 6; 7; 8]) [1; 2; 3; 4; 5; 6; 7; 8].

(** [while (this.board[curr] === opponent) { flippables.push(curr); curr += dir; }] *)
Fixpoint collect_loop (fuel : nat) (b : list Z) (curr dir opponent : Z) (flippables : list Z)
  : list Z * Z :=
  match fuel with
  | O => (flippables, curr)
  | S f =>
    if is b curr opponent then collect_loop f b (curr + dir) dir opponent (flippables ++ [curr])
    else (flippables, curr)
  end.

(** One round of the direction loop of [makeMove]. *)
Definition flip_dir (turn : Z) (idx : Z) (b : list Z) (dir : Z) : list Z :=
  let opponent := - turn in
  let curr := idx + dir in
  if is b curr opponent then
    let '(flippables, curr) := collect_loop 10 b curr dir opponent [] in
    if is b curr turn then fold_left (fun b f => <[Z.to_nat f := turn]> b) flippables b
    else b
  else b.

(** [makeMove(idx)] ([-1] is a pass). *)
Definition makeMove (g : Game) (idx : Z) : Game :=
  if idx =? -1 then mkGame (board g) (- turn g) (passCount g + 1)
  else
    let b := <[Z.to_nat idx := turn g]> (board g) in
    let b := fold_left (flip_dir (turn g) idx) directions b in
    mkGame b (- turn g) 0.

(** Number of discs, as counted by [getResult()]: cells holding 1 or -1. *)
Definition discs (b : list Z) : nat :=
  length (List.filter (fun i => is b i 1 || is b i (-1)) (map Z.of_nat (seq 0 100))).

End Fast.

(** ** The N-tuple training rule, as the spec states it *)
Module CoreSpec.
Import Core.

(** The base-3 index of a tuple under a symmetry map: the [k]-th cell of
    the tuple is digit [k], weighing [3^k]. *)
Fixpoint spec_digits (tuple map : list nat) (board : Board64) (k : nat) : nat :=
  match tuple with
  | [] => 0%nat
  | x :: ts => (cellVal (nth (nth x map 0%nat) board 0%Z) * 3 ^ k + spec_digits ts map board (S k))%nat
  end.

Definition spec_index (tuple map : list nat) (board : Board64) : nat :=
  spec_digits tuple map board 0.

(** Every (tuple, symmetry) combination, as the table it reads and the
    entry of that table active on [board]. *)
Definition spec_active (board : Board64) : list (nat * nat) :=
  flat_map (fun t =>
    map (fun s => (t, spec_index (nth t rawTuples []) (nth s symmetryMaps []) board)) (seq 0 8))
    (seq 0 (length rawTuples)).

(** [score]: the sum of the active entries. *)
Definition spec_score (weights : Tables) (board : Board64) : Q :=
  fold_left (fun total e => (total + nth e.2 (nth e.1 weights []) 0)%Q) (spec_active board) 0%Q.

(** Add [delta] to every active entry. *)
Definition spec_update (weights : Tables) (board : Board64) (delta : Q) : Tables :=
  fold_left (fun w e => add_entry w e.1 e.2 delta) (spec_active board) weights.

(** One step of the reverse traversal: the value of the board, the update
    by [(target - value) * learningRate], and the value as the next
    target. *)
Definition spec_step (acc : Tables * Q) (e : HistoryEntry) : Tables * Q :=
  let '(w, target) := acc in
  let v := spec_score w (hboard e) in
  (spec_update w (hboard e) ((target - v) * learningRate)%Q, v).

(** The history traversed in reverse, the target starting at [result]. *)
Definition spec_train (weights : Tables) (history : list HistoryEntry) (result : Z) : Tables :=
  fst (fold_left spec_step (rev history) (weights, inject_Z result)).

End CoreSpec.

(** ** Concrete inputs used by the examples below *)
Module Examples.
Import Grid Weights.

(** A full board, all discs of player 1: neither side can move. *)
Definition full_board : Board := repeat (repeat 1 8) 8.

(** A board whose only disc is a disc of player 1 in the corner [(0, 0)]. *)
Definition corner_board : Board := <[0%nat := [1;0;0;0;0;0;0;0]]> (repeat (repeat 0 8) 8).

(** [k] calls [train(board, 1, 1)] in a row on ai-worker.js's AI: [k]
    won games of the AI, each ending on [board]. *)
Fixpoint worker_wins (k : nat) (st : Worker.AIState) (board : Board) : Worker.AIState :=
  match k with
  | O => st
  | S k' => worker_wins k' (fst (Worker.train st board 1 1)) board
  end.

(** A weight matrix at the clamp bound of ai-worker.js. *)
Definition saturated_weights : list (list Q) := repeat (repeat 500%Q 8) 8.

(** The opening position of ai_core.js on the flat board (1 black,
    -1 white). *)
Definition core_initial_board : list Z :=
  map (fun i => if (i =? 27) || (i =? 36) then -1 else if (i =? 28) || (i =? 35) then 1 else 0)
    (map Z.of_nat (seq 0 64)).

End Examples.

(** ** The self-play game of [runTrainingLoop] (ai-worker.js, part_001) *)
Module SelfPlay.
Import Grid Weights.

(** How the inner [while(true)] loop ends: [break] with the final board,
    a [TypeError] on [move.r] when [move] is [undefined], or no end within
    the fuel. *)
Inductive outcome : Type :=
| Finished : list (list Z) -> outcome
| TypeError : outcome
| OutOfFuel : outcome.

Section Loop.
(** The exploration threshold: [0.2] in ai-worker.js, [0.15] in part_001. *)
Variable explore : Q.
(** [ai.weights] *)
Variable weights : list (list Q).
(** [Math.random()]: the [n]-th number drawn. *)
Variable random : nat -> Q.

(** The choice of [move] among the sorted [moves], with the index of the
    next random number: [topN[Math.floor(Math.random() * topN.length)]]
    with [topN = moves.slice(0, 3)], or [moves[0]]; [None] is
    [undefined]. *)
Definition choose (moves : list (Z * Z)) (n : nat) : option (Z * Z) * nat :=
  if negb (Qle_bool explore (random n)) then
    let topN := firstn 3 moves in
    let k := Qfloor (random (S n) * inject_Z (Z.of_nat (length topN))) in
    (if k <? 0 then None else nth_error topN (Z.to_nat k), S (S n))
  else (head moves, S n).

(** The [while(true)] loop of one game, from [board], [cur] and
    [passCount]. *)
Fixpoint game_loop (fuel : nat) (board : list (list Z)) (cur passCount : Z) (n : nat) : outcome :=
  match fuel with
  | O => OutOfFuel
  | S f =>
    match getValidMoves board cur with
    | [] =>
      let passCount := passCount + 1 in
      if 2 <=? passCount then Finished board
      else game_loop f board (3 - cur) passCount n
    | moves =>
      let moves := Search.sort_desc (fun m => wget weights m.1 m.2) moves in
      match choose moves n with
      | (Some move, n') => game_loop f (execute board move.1 move.2 cur) (3 - cur) 0 n'
      | (None, _) => TypeError
      end
    end
  end.

End Loop.
End SelfPlay.

(** ** The eight symmetries of ai_core.js as board transforms *)
Module CoreSym.
Import Core.

(** The board seen through symmetry map [g]: cell [i] of the result is
    cell [symmetryMaps[g][i]] of [board]. *)
Definition transform (g : nat) (board : list Z) : list Z :=
  map (fun i => nth (nth i (nth g symmetryMaps []) 0%nat) board 0) (seq 0 64).

(** The map [s'] with [symmetryMaps[s][i]] read through map [g] equal to
    [symmetryMaps[s'][i]] for every cell [i] (the composition of two
    symmetries). *)
Definition sym_comp (g s : nat) : nat :=
  let mg := nth g symmetryMaps [] in
  let ms := nth s symmetryMaps [] in
  match List.find (fun s' => forallb (fun i => Nat.eqb (nth (nth i ms 0%nat) mg 0%nat)
        (nth i (nth s' symmetryMaps []) 0%nat)) (seq 0 64)) (seq 0 8) with
  | Some s' => s'
  | None => 0%nat
  end.

End CoreSym.

(** ** The self-play loop [trainLoop] of part_000 *)
Module FastGame.
Import Fast.

(** [getFlatBoard64()]: the 64 inner cells, row by row; a read outside the
    array gives [undefined], stored as 0 in the [Int8Array]. *)
Definition getFlatBoard64 (g : Game) : list Z :=
  flat_map (fun y => map (fun x => nth (Z.to_nat (y * 10 + x)) (board g) 0) [1; 2; 3; 4; 5; 6; 7; 8])
    [1; 2; 3; 4; 5; 6; 7; 8].

(** [isGameOver()] *)
Definition isGameOver (g : Game) : bool :=
  (2 <=? passCount g) || negb (existsb (fun v => v =? 0) (getFlatBoard64 g)).

(** The helper [idx10to8] of [trainLoop]. *)
Definition idx10to8 (idx10 : Z) : Z :=
  let y := idx10 / 10 in
  let x := Z.rem idx10 10 in
  (y - 1) * 8 + (x - 1).

(** The conversion [8x8 -> 10x10] of [trainLoop]:
    [r = Math.floor(aiMoveIdx8 / 8)], [c = aiMoveIdx8 % 8],
    [(r + 1) * 10 + (c + 1)]. *)
Definition idx8to10 (aiMoveIdx8 : Z) : Z :=
  let r := aiMoveIdx8 / 8 in
  let c := Z.rem aiMoveIdx8 8 in
  (r + 1) * 10 + (c + 1).

(** The move of the AI in [trainLoop]:
    [ai.getBestMove(currentBoard64, game.turn)] converted to 10x10. *)
Definition aiMove10 (weights : Core.Tables) (g : Game) : Z :=
  idx8to10 (Core.getBestMove weights (getFlatBoard64 g) (turn g)).

Section TrainLoop.
(** [ai.weights] of the ai_core.js [UltimateAI] *)
Variable weights : Core.Tables.
(** [Math.random()]: the [n]-th number drawn. *)
Variable random : nat -> Q.

(** [moves10[Math.floor(Math.random() * moves10.length)]], [None] for
    [undefined]. *)
Definition pick (moves10 : list Z) (n : nat) : option Z :=
  let k := Qfloor (random n * inject_Z (Z.of_nat (length moves10))) in
  if k <? 0 then None else nth_error moves10 (Z.to_nat k).

(** The choice of [move10] in the inner loop of [trainLoop], with the
    index of the next random number: [-1] without legal move, a random
    legal move when [Math.random() < 0.1], the move of the AI otherwise. *)
Definition choose_move (g : Game) (n : nat) : option Z * nat :=
  let moves10 := getLegalMoves g in
  if (0 <? length moves10)%nat then
    if negb (Qle_bool (1 # 10) (random n)) then (pick moves10 (S n), S (S n))
    else (Some (aiMove10 weights g), S n)
  else (Some (-1), n).

(** [game.makeMove(move10)]; for [undefined], [board[undefined] = turn]
    sets no element of the [Int8Array] and [board[NaN]] reads
    [undefined], so nothing is placed or flipped. *)
Definition makeMove_js (g : Game) (mv : option Z) : Game :=
  match mv with
  | Some idx => makeMove g idx
  | None => mkGame (board g) (- turn g) 0
  end.

(** [while (!game.isGameOver()) { ... }] with the [history] it fills;
    [None] when the fuel runs out. *)
Fixpoint play (fuel : nat) (g : Game) (history : list Core.HistoryEntry) (n : nat)
  : option (Game * list Core.HistoryEntry) :=
  match fuel with
  | O => None
  | S f =>
    if isGameOver g then Some (g, history)
    else
      let history := history ++ [Core.mkEntry (getFlatBoard64 g) (turn g)] in
      let '(mv, n') := choose_move g n in
      play f (makeMove_js g mv) history n'
  end.

End TrainLoop.
End FastGame.

(** ** Predicates and auxiliary views used by the statements below *)
Module Views.
Import Grid Weights.

(** A positional weight matrix invariant under the two mirrors. *)
Definition mirror_symmetric (w : list (list Q)) : Prop :=
  forall r c, 0 <= r < 8 -> 0 <= c < 8 ->
    wget w r (7 - c) = wget w r c /\ wget w (7 - r) c = wget w r c.

(** [a] comes no later than [b] in a sort by decreasing key. *)
Definition desc {A} (key : A -> Q) (a b : A) : Prop := (key b <= key a)%Q.

(** Every cell of [nb] other than [(r, c)] is the cell of [b], or a disc
    of [3 - p] in [b] turned into a disc of [p]. *)
Definition exec_frame (b nb : list (list Z)) (r c p : Z) : Prop :=
  forall x y, (x, y) <> (r, c) ->
    get nb x y = get b x y \/ (get b x y = 3 - p /\ get nb x y = p).

(** Cell [x] of the flat board [nb'] is the cell of [nb], or a disc of
    [-t] in [nb] turned into a disc of [t]. *)
Definition sim_frame (t : Z) (nb nb' : list Z) (x : Z) : Prop :=
  Core.cell nb' x = Core.cell nb x \/ (Core.cell nb x = - t /\ Core.cell nb' x = t).

(** The same for cell [i] of the 10x10 board. *)
Definition rd_frame (t : Z) (b b' : list Z) (i : Z) : Prop :=
  Fast.rd b' i = Fast.rd b i \/ (Fast.rd b i = Some (- t) /\ Fast.rd b' i = Some t).

(** The 10x10 index [i] is one of the 64 inner cells (the test of
    [reset()]). *)
Definition interior (i : Z) : bool :=
  (1 <=? i / 10) && (i / 10 <=? 8) && (1 <=? i mod 10) && (i mod 10 <=? 8).

(** The shape of a FastOthello game: 100 cells, walls (2) on the border,
    -1 / 0 / 1 inside, the turn 1 or -1. *)
Definition fast_ok (g : Fast.Game) : Prop :=
  length (Fast.board g) = 100%nat /\ (Fast.turn g = 1 \/ Fast.turn g = -1) /\
  forall i, 0 <= i < 100 ->
    if interior i then
      Fast.rd (Fast.board g) i = Some (-1) \/ Fast.rd (Fast.board g) i = Some 0 \/
      Fast.rd (Fast.board g) i = Some 1
    else Fast.rd (Fast.board g) i = Some 2.

(** Walls only: 100 cells with 2 on the border. *)
Definition walls (b : list Z) : Prop :=
  length b = 100%nat /\ forall i, 0 <= i < 100 -> interior i = false -> Fast.rd b i = Some 2.

(** The number of empty cells of [getFlatBoard64()]. *)
Definition zeros (g : Fast.Game) : nat :=
  length (List.filter (fun v => v =? 0) (FastGame.getFlatBoard64 g)).

(** The 10x10 index of the inner cell [(r, c)], [0 <= r, c < 8]. *)
Definition pos (r c : Z) : Z := (r + 1) * 10 + (c + 1).

(** The 10x10 index of the flat index [j]. *)
Definition p64 (j : Z) : Z := pos (j / 8) (j mod 8).

(** The 64 inner cells of a 10x10 board, as [getFlatBoard64] reads them. *)
Definition flatten (b : list Z) : list Z :=
  map (fun i => nth (Z.to_nat (p64 i)) b 0) (map Z.of_nat (seq 0 64)).

(** The part of one direction round of [makeMove] from [curr] on: the
    [while] loop collecting [flippables], then the flip when it stops on a
    disc of [t]. *)
Definition fast_run (fuel : nat) (b : list Z) (curr dir t : Z) (fl : list Z) : list Z :=
  let '(fl', c) := Fast.collect_loop fuel b curr dir (- t) fl in
  if Fast.is b c t then fold_left (fun b f => <[Z.to_nat f := t]> b) fl' b else b.

End Views.

(** * Proofs *)

(** ** Generic counting facts *)
Module CountFacts.

Lemma filter_length_mono {A} (f g : A -> bool) (l : list A) :
  (forall x, In x l -> f x = true -> g x = true) ->
  (length (List.filter f l) <= length (List.filter g l))%nat.
Proof.
  induction l as [|x l IH]; intros Hfg; simpl; [lia|].
  assert (IH' := IH (fun y Hy => Hfg y (or_intror Hy))).
  destruct (f x) eqn:Hf.
  - rewrite (Hfg x (or_introl eq_refl) Hf). simpl. lia.
  - destruct (g x); simpl; lia.
Qed.

Lemma filter_length_strict {A} (f g : A -> bool) (l : list A) (a : A) :
  (forall x, In x l -> f x = true -> g x = true) ->
  In a l -> f a = false -> g a = true ->
  (length (List.filter f l) + 1 <= length (List.filter g l))%nat.
Proof.
  induction l as [|x l IH]; intros Hfg Ha Hfa Hga; [destruct Ha|].
  simpl. destruct Ha as [<-|Ha].
  - rewrite Hfa, Hga. simpl.
    assert (H := filter_length_mono f g l (fun y Hy => Hfg y (or_intror Hy))). lia.
  - assert (IH' := IH (fun y Hy => Hfg y (or_intror Hy)) Ha Hfa Hga).
    destruct (f x) eqn:Hf.
    + rewrite (Hfg x (or_introl eq_refl) Hf). simpl. lia.
    + destruct (g x); simpl; lia.
Qed.

End CountFacts.

(** ** Board model: reads and writes *)
Module GridFacts.
Import Grid.

Lemma in_board_spec r c : in_board r c = true <-> 0 <= r < 8 /\ 0 <= c < 8.
Proof.
  unfold in_board. rewrite !andb_true_iff, !Z.leb_le, !Z.ltb_lt. tauto.
Qed.

Lemma in_range8 x : In x range8 <-> 0 <= x < 8.
Proof. simpl. split; intros; lia. Qed.

Lemma get_set_ne b r c v x y :
  (r <> x \/ c <> y) -> get (set b r c v) x y = get b x y.
Proof.
  intros Hne. unfold get, set.
  destruct ((0 <=? r) && (0 <=? c)) eqn:E1; [|reflexivity].
  destruct ((0 <=? x) && (0 <=? y)) eqn:E2; [|reflexivity].
  apply andb_true_iff in E1 as [E1 E1']. apply andb_true_iff in E2 as [E2 E2'].
  apply Z.leb_le in E1, E1', E2, E2'.
  rewrite list_lookup_alter. case_decide as Hr; [|reflexivity].
  rewrite <- Hr. destruct (b !! Z.to_nat r) as [row|]; simpl; [|reflexivity].
  rewrite list_lookup_insert_ne; [reflexivity|lia].
Qed.

Lemma get_set_cases b r c v x y :
  get (set b r c v) x y = v \/ get (set b r c v) x y = get b x y.
Proof.
  destruct (decide (r = x /\ c = y)) as [[<- <-]|Hne].
  - unfold get, set.
    destruct ((0 <=? r) && (0 <=? c)) eqn:E1; [|right; reflexivity].
    rewrite list_lookup_alter_eq.
    destruct (b !! Z.to_nat r) as [row|]; simpl; [|right; reflexivity].
    rewrite list_lookup_insert. case_decide; [left; reflexivity|right; reflexivity].
  - right. apply get_set_ne. destruct (decide (r = x)); [right|left]; intuition.
Qed.

Lemma get_set_eq b r c v :
  wf_board b -> in_board r c = true -> get (set b r c v) r c = v.
Proof.
  intros [Hlen Hrows] Hin. apply in_board_spec in Hin.
  unfold get, set.
  destruct ((0 <=? r) && (0 <=? c)) eqn:E1.
  2:{ exfalso. apply andb_false_iff in E1 as [E|E]; apply Z.leb_gt in E; lia. }
  rewrite list_lookup_alter_eq.
  destruct (b !! Z.to_nat r) as [row|] eqn:Hrow; simpl.
  - rewrite list_lookup_insert_eq; [reflexivity|].
    rewrite Forall_lookup in Hrows. rewrite (Hrows _ _ Hrow). lia.
  - apply lookup_ge_None_1 in Hrow. lia.
Qed.

Lemma wf_set b r c v : wf_board b -> wf_board (set b r c v).
Proof.
  intros [Hlen Hrows]. unfold set. destruct (_ && _); [|split; assumption].
  split; [rewrite length_alter; exact Hlen|].
  rewrite Forall_lookup in *. intros i row Hi.
  rewrite list_lookup_alter in Hi. case_decide.
  - subst. destruct (b !! Z.to_nat r) as [row0|] eqn:H0; simpl in Hi; [|discriminate].
    injection Hi as <-. rewrite length_insert. exact (Hrows _ _ H0).
  - exact (Hrows _ _ Hi).
Qed.

Lemma pos0 x d : x + Z.of_nat 0 * d = x.
Proof. lia. Qed.

Lemma posS x d i : x + Z.of_nat (S i) * d = (x + d) + Z.of_nat i * d.
Proof. lia. Qed.

(** The scanning loop of [canFlip] succeeds iff, from the start cell, the
    ray holds [k] opponent discs followed by a disc of [p] inside the
    board, with [k > 0] unless an opponent disc was already seen. *)
Lemma canFlip_loop_spec fuel b nr nc dr dc p h :
  canFlip_loop fuel b nr nc dr dc p h = true <->
  exists k : nat, (k < fuel)%nat /\
    (forall i : nat, (i < k)%nat ->
       in_board (nr + Z.of_nat i * dr) (nc + Z.of_nat i * dc) = true /\
       get b (nr + Z.of_nat i * dr) (nc + Z.of_nat i * dc) = 3 - p) /\
    in_board (nr + Z.of_nat k * dr) (nc + Z.of_nat k * dc) = true /\
    get b (nr + Z.of_nat k * dr) (nc + Z.of_nat k * dc) = p /\
    (h = true \/ (0 < k)%nat).
Proof.
  revert nr nc h. induction fuel as [|fuel IH]; intros nr nc h; simpl.
  - split; [discriminate|]. intros (k & Hk & _). lia.
  - destruct (in_board nr nc) eqn:Hin.
    + destruct (Z.eqb_spec (get b nr nc) (3 - p)) as [Ho|Ho].
      * rewrite IH. split.
        -- intros (k & Hk & Hall & Hin' & Hp & _). exists (S k).
           split; [lia|]. split; [|rewrite !posS; split; [exact Hin'|split; [exact Hp|right; lia]]].
           intros [|i] Hi; [rewrite !pos0; split; assumption|].
           rewrite !posS. apply Hall. lia.
        -- intros (k & Hk & Hall & Hin' & Hp & Hh). destruct k as [|k].
           ++ rewrite !pos0 in Hp. lia.
           ++ exists k. rewrite !posS in Hin', Hp. split; [lia|].
              split; [|split; [exact Hin'|split; [exact Hp|left; reflexivity]]].
              intros i Hi. rewrite <- !posS. apply Hall. lia.
      * destruct (Z.eqb_spec (get b nr nc) p) as [Hp|Hp].
        -- split.
           ++ intros ->. exists 0%nat. rewrite !pos0.
              split; [lia|]. split; [intros; lia|]. auto.
           ++ intros (k & Hk & Hall & Hin' & Hp' & Hh). destruct k as [|k]; [destruct Hh; [assumption|lia]|].
              destruct (Hall 0%nat ltac:(lia)) as [_ Ho']. rewrite !pos0 in Ho'. contradiction.
        -- split; [discriminate|].
           intros (k & Hk & Hall & Hin' & Hp' & Hh). destruct k as [|k].
           ++ rewrite !pos0 in Hp'. contradiction.
           ++ destruct (Hall 0%nat ltac:(lia)) as [_ Ho']. rewrite !pos0 in Ho'. contradiction.
    + split; [discriminate|].
      intros (k & Hk & Hall & Hin' & Hp' & Hh). destruct k as [|k].
      * rewrite !pos0 in Hin'. congruence.
      * destruct (Hall 0%nat ltac:(lia)) as [Hin0 _]. rewrite !pos0 in Hin0. congruence.
Qed.

Lemma in_directions d :
  In d directions <->
  d = (-1,-1) \/ d = (-1,0) \/ d = (-1,1) \/ d = (0,-1) \/
  d = (0,1) \/ d = (1,-1) \/ d = (1,0) \/ d = (1,1).
Proof. simpl. intuition. Qed.

(** [canFlip] decides the spec's flanking condition on every direction. *)
Lemma canFlip_flanks b r c d p :
  In d directions -> canFlip b r c d p = true <-> flanks b r c d.1 d.2 p.
Proof.
  intros Hd. unfold canFlip, flanks. rewrite canFlip_loop_spec. split.
  - intros (k & Hk & Hall & Hin & Hp & Hh). destruct Hh as [Hh|Hh]; [discriminate|].
    exists k. split; [lia|]. rewrite !posS. split; [|split; assumption].
    intros [|i] Hi; [lia|]. rewrite !posS. apply Hall. lia.
  - intros (k & Hk & Hall & Hin & Hp). exists k. rewrite !posS in Hin, Hp.
    split.
    + destruct (Hall 1%nat ltac:(lia)) as [Hin1 _].
      apply in_board_spec in Hin, Hin1.
      apply in_directions in Hd.
      destruct Hd as [->|[->|[->|[->|[->|[->|[->| ->]]]]]]]; simpl in *; lia.
    + split; [|split; [exact Hin|split; [exact Hp|right; lia]]].
      intros i Hi. rewrite <- !posS. apply Hall. lia.
Qed.

Lemma isValid_spec b r c p :
  isValid b r c p = true <->
  get b r c = 0 /\ exists d, In d directions /\ flanks b r c d.1 d.2 p.
Proof.
  unfold isValid. destruct (Z.eqb_spec (get b r c) 0) as [H0|H0]; cbn [negb].
  - rewrite existsb_exists. split.
    + intros (d & Hd & Hc). split; [exact H0|]. exists d. split; [exact Hd|].
      apply canFlip_flanks; assumption.
    + intros (_ & d & Hd & Hf). exists d. split; [exact Hd|]. apply canFlip_flanks; assumption.
  - split; [discriminate|]. intros [? _]. contradiction.
Qed.

Lemma in_getValidMoves b p r c :
  In (r, c) (getValidMoves b p) <-> in_board r c = true /\ isValid b r c p = true.
Proof.
  unfold getValidMoves. rewrite in_flat_map. split.
  - intros (r' & Hr' & Hc). apply in_flat_map in Hc as (c' & Hc' & Hin).
    destruct (isValid b r' c' p) eqn:Hv; [|destruct Hin].
    destruct Hin as [Heq|[]]. injection Heq as <- <-.
    split; [apply in_board_spec; rewrite in_range8 in Hr', Hc'; lia|exact Hv].
  - intros [Hin Hv]. apply in_board_spec in Hin. exists r. split; [apply in_range8; lia|].
    apply in_flat_map. exists c. split; [apply in_range8; lia|]. rewrite Hv. left. reflexivity.
Qed.

(** *** [execute] only ever writes the mover's colour *)

Lemma flip_loop_only fuel b nr nc dr dc p x y :
  get (flip_loop fuel b nr nc dr dc p) x y = get b x y \/
  get (flip_loop fuel b nr nc dr dc p) x y = p.
Proof.
  revert b nr nc. induction fuel as [|fuel IH]; intros b nr nc; simpl; [left; reflexivity|].
  destruct (negb (get b nr nc =? p)); [|left; reflexivity].
  destruct (IH (set b nr nc p) (nr + dr) (nc + dc)) as [H|H]; [|right; exact H].
  rewrite H. destruct (get_set_cases b nr nc p x y); [right|left]; assumption.
Qed.

(** The first round of the flip loop writes the mover's colour. *)
Lemma flip_loop_first f b nr nc dr dc p :
  wf_board b -> in_board nr nc = true -> get b nr nc <> p ->
  get (flip_loop (S f) b nr nc dr dc p) nr nc = p.
Proof.
  intros Hb Hin Hne. simpl.
  assert (E : (get b nr nc =? p) = false) by (apply Z.eqb_neq; exact Hne).
  rewrite E. simpl.
  destruct (flip_loop_only f (set b nr nc p) (nr + dr) (nc + dc) dr dc p nr nc) as [H|H];
    rewrite H; [|reflexivity].
  apply get_set_eq; assumption.
Qed.

Lemma wf_flip_loop fuel b nr nc dr dc p :
  wf_board b -> wf_board (flip_loop fuel b nr nc dr dc p).
Proof.
  revert b nr nc. induction fuel as [|fuel IH]; intros b nr nc Hb; simpl; [exact Hb|].
  destruct (negb _); [apply IH, wf_set, Hb|exact Hb].
Qed.

Lemma exec_fold_only ds b r c p x y :
  get (fold_left (exec_step r c p) ds b) x y = get b x y \/
  get (fold_left (exec_step r c p) ds b) x y = p.
Proof.
  revert b. induction ds as [|d ds IH]; intros b; simpl; [left; reflexivity|].
  destruct (IH (exec_step r c p b d)) as [H|H]; [|right; exact H].
  rewrite H. unfold exec_step. destruct (canFlip b r c d p); [apply flip_loop_only|left; reflexivity].
Qed.

Lemma exec_fold_keep ds b r c p x y :
  get b x y = p -> get (fold_left (exec_step r c p) ds b) x y = p.
Proof. intros H. destruct (exec_fold_only ds b r c p x y) as [H'|H']; congruence. Qed.

Lemma wf_exec_fold ds b r c p : wf_board b -> wf_board (fold_left (exec_step r c p) ds b).
Proof.
  revert b. induction ds as [|d ds IH]; intros b Hb; simpl; [exact Hb|].
  apply IH. unfold exec_step. destruct (canFlip b r c d p); [apply wf_flip_loop|]; exact Hb.
Qed.

Lemma execute_only b r c p x y :
  get (execute b r c p) x y = get b x y \/ get (execute b r c p) x y = p.
Proof.
  unfold execute. destruct (exec_fold_only directions (set b r c p) r c p x y) as [H|H];
    [|right; exact H].
  rewrite H. destruct (get_set_cases b r c p x y); [right|left]; assumption.
Qed.

Lemma execute_placed b r c p :
  wf_board b -> in_board r c = true -> get (execute b r c p) r c = p.
Proof. intros Hb Hin. apply exec_fold_keep, get_set_eq; assumption. Qed.

(** The first direction, in loop order, whose [canFlip] succeeds flips its
    first ray cell, an opponent disc of the board the loop started from. *)
Lemma exec_fold_fires ds b r c p :
  wf_board b -> (forall d, In d ds -> In d directions) ->
  (exists d, In d ds /\ canFlip b r c d p = true) ->
  exists x y, in_board x y = true /\ get b x y = 3 - p /\
    get (fold_left (exec_step r c p) ds b) x y = p.
Proof.
  revert b. induction ds as [|d0 ds IH]; intros b Hb Hds (d & Hd & Hc); [destruct Hd|].
  simpl. unfold exec_step at 2. destruct (canFlip b r c d0 p) eqn:Hc0.
  - apply canFlip_flanks in Hc0; [|apply Hds; left; reflexivity].
    destruct Hc0 as (k & Hk & Hall & _).
    destruct (Hall 1%nat ltac:(lia)) as [Hin1 Ho1].
    replace (r + Z.of_nat 1 * d0.1) with (r + d0.1) in Hin1, Ho1 by lia.
    replace (c + Z.of_nat 1 * d0.2) with (c + d0.2) in Hin1, Ho1 by lia.
    exists (r + d0.1), (c + d0.2). split; [exact Hin1|]. split; [exact Ho1|].
    apply exec_fold_keep.
    apply flip_loop_first; [assumption|assumption|lia].
  - destruct Hd as [<-|Hd]; [congruence|].
    apply IH; [exact Hb|intros d' Hd'; apply Hds; right; exact Hd'|exists d; split; assumption].
Qed.

(** Writing the mover's disc on [(r, c)] does not change any ray from
    [(r, c)]. *)
Lemma flanks_set b r c v d p :
  In d directions -> flanks b r c d.1 d.2 p -> flanks (set b r c v) r c d.1 d.2 p.
Proof.
  intros Hd (k & Hk & Hall & Hin & Hp).
  assert (Hmove : forall i : nat, (1 <= i)%nat ->
            r <> r + Z.of_nat i * d.1 \/ c <> c + Z.of_nat i * d.2).
  { intros i Hi. apply in_directions in Hd.
    destruct Hd as [->|[->|[->|[->|[->|[->|[->| ->]]]]]]]; simpl; lia. }
  exists k. split; [exact Hk|]. split.
  - intros i Hi. rewrite get_set_ne by (apply Hmove; lia). apply Hall, Hi.
  - rewrite get_set_ne by (apply Hmove; lia). split; assumption.
Qed.

(** Characterisation of [getValidMoves] by the spec's legality rule. *)
Lemma getValidMoves_iff b p r c :
  In (r, c) (getValidMoves b p) <->
  in_board r c = true /\ get b r c = 0 /\
  exists d, In d directions /\ flanks b r c d.1 d.2 p.
Proof. rewrite in_getValidMoves, isValid_spec. tauto. Qed.

(** Playing a returned move flips at least one opponent disc. *)
Lemma execute_flips_one b p r c :
  wf_board b -> In (r, c) (getValidMoves b p) ->
  exists x y, in_board x y = true /\ get b x y = 3 - p /\ get (execute b r c p) x y = p.
Proof.
  intros Hb Hm. apply getValidMoves_iff in Hm as (Hin & H0 & d & Hd & Hf).
  destruct (exec_fold_fires directions (set b r c p) r c p) as (x & y & Hxy & Hox & Hpx).
  - apply wf_set, Hb.
  - intros d' Hd'. exact Hd'.
  - exists d. split; [exact Hd|]. apply canFlip_flanks; [exact Hd|]. apply flanks_set; assumption.
  - exists x, y. split; [exact Hxy|]. split; [|exact Hpx].
    destruct (get_set_cases b r c p x y) as [E|E]; rewrite E in Hox; [lia|exact Hox].
Qed.

(** Playing a returned move adds a disc and removes none. *)
Lemma execute_count_discs b p r c :
  wf_board b -> p <> 0 -> In (r, c) (getValidMoves b p) ->
  (count_discs b + 1 <= count_discs (execute b r c p))%nat.
Proof.
  intros Hb Hp Hm. apply getValidMoves_iff in Hm as (Hin & H0 & _).
  unfold count_discs. apply CountFacts.filter_length_strict with (a := (r, c)).
  - intros [x y] _. simpl. intros Hx.
    destruct (execute_only b r c p x y) as [E|E]; rewrite E; [exact Hx|].
    apply negb_true_iff, Z.eqb_neq, Hp.
  - apply in_board_spec in Hin. apply in_prod; apply in_range8; lia.
  - simpl. rewrite H0. reflexivity.
  - simpl. rewrite execute_placed by assumption. apply negb_true_iff, Z.eqb_neq, Hp.
Qed.

End GridFacts.

(** ** Root search and minimax *)
Module SearchFacts.
Import JS Grid Search.

Lemma insert_desc_in {A} (key : A -> Q) x l y :
  In y (insert_desc key x l) <-> In y (x :: l).
Proof.
  induction l as [|z l IH]; [reflexivity|].
  cbn [insert_desc]. destruct (negb (Qle_bool (key x) (key z))); [reflexivity|].
  cbn [In]. rewrite IH. cbn [In]. tauto.
Qed.

Lemma sort_desc_in {A} (key : A -> Q) l y : In y (sort_desc key l) <-> In y l.
Proof.
  unfold sort_desc.
  assert (H : forall acc, In y (fold_left (fun acc x => insert_desc key x acc) l acc) <->
                          In y acc \/ In y l).
  { induction l as [|x l IH]; intros acc; simpl; [tauto|].
    rewrite IH, insert_desc_in. cbn [In]. tauto. }
  rewrite H. simpl. tauto.
Qed.

Lemma root_loop_in ev evf b p md ms best alpha :
  root_loop ev evf b p md ms best alpha = best \/ In (root_loop ev evf b p md ms best alpha) ms.
Proof.
  revert best alpha. induction ms as [|m ms IH]; intros best alpha; cbn [root_loop In];
    [left; reflexivity|].
  destruct (jgt _ alpha).
  - destruct (IH m (minimax ev evf (execute b m.1 m.2 p) (md - 1) alpha PosInf false p))
      as [H|H]; [right; left; symmetry; exact H|right; right; exact H].
  - destruct (IH best alpha) as [H|H]; [left; exact H|right; right; exact H].
Qed.

Lemma getBestMove_in ev evf key mid b p :
  match getBestMove ev evf key mid b p with
  | None => getValidMoves b p = []
  | Some m => In m (getValidMoves b p)
  end.
Proof.
  unfold getBestMove. destruct (getValidMoves b p) as [|m0 ms] eqn:Hm; [reflexivity|].
  cbv zeta.
  destruct (root_loop_in ev evf b p (searchDepth mid b) (sort_desc key (m0 :: ms)) m0 NegInf)
    as [H|H].
  - rewrite H. left. reflexivity.
  - apply sort_desc_in in H. exact H.
Qed.

(** The pass branch of [minimax], at a non-zero depth. *)
Lemma minimax_no_move (ev evf : Board -> Z -> Q) b d alpha beta (isMax : bool) player :
  getValidMoves b (if isMax then player else 3 - player) = [] ->
  minimax ev evf b (S d) alpha beta isMax player =
  match getValidMoves b (3 - (if isMax then player else 3 - player)) with
  | [] => Num (evf b player)
  | _ => minimax ev evf b d alpha beta (negb isMax) player
  end.
Proof. intros H. simpl. rewrite H. reflexivity. Qed.

End SearchFacts.

(** ** N-tuple engine: the chosen move *)
Module CoreMoveFacts.
Import JS Core.

Lemma best_loop_in w b t ms bs bm :
  best_loop w b t ms bs bm = bm \/ In (best_loop w b t ms bs bm) ms.
Proof.
  revert bs bm. induction ms as [|m ms IH]; intros bs bm; cbn [best_loop In];
    [left; reflexivity|].
  destruct (jgt _ bs).
  - destruct (IH (Num (score w (simulateMove b m t) t)) m) as [H|H];
      [right; left; symmetry; exact H|right; right; exact H].
  - destruct (IH bs bm) as [H|H]; [left; exact H|right; right; exact H].
Qed.

Lemma getLegalMoves_range b t i : In i (getLegalMoves b t) -> 0 <= i < 64.
Proof.
  unfold getLegalMoves. rewrite filter_In, in_map_iff.
  intros [(n & <- & Hn) _]. apply in_seq in Hn. lia.
Qed.

Lemma core_getBestMove_in w b t :
  match getLegalMoves b t with
  | [] => getBestMove w b t = -1
  | _ => In (getBestMove w b t) (getLegalMoves b t) /\ getBestMove w b t <> -1
  end.
Proof.
  unfold getBestMove. destruct (getLegalMoves b t) as [|m ms] eqn:Hm; [reflexivity|].
  assert (Hin : In (best_loop w b t (m :: ms) NegInf (-1)) (m :: ms)).
  { cbn [best_loop]. destruct (jgt _ NegInf) eqn:Hg.
    - destruct (best_loop_in w b t ms (Num (score w (simulateMove b m t) t)) m) as [H|H];
        [rewrite H; left; reflexivity|right; exact H].
    - unfold jgt in Hg. simpl in Hg. discriminate. }
  split; [exact Hin|].
  assert (0 <= best_loop w b t (m :: ms) NegInf (-1)); [|lia].
  apply (getLegalMoves_range b t). rewrite Hm. exact Hin.
Qed.

End CoreMoveFacts.

(** ** Evaluation: the two perspectives *)
Module EvalFacts.
Import JS Grid Weights.

Lemma fold_neg {A} (f g : Q -> A -> Q) l s1 s2 :
  (forall x a b, (a == -b)%Q -> (f a x == - g b x)%Q) ->
  (s1 == -s2)%Q -> (fold_left f l s1 == - fold_left g l s2)%Q.
Proof.
  intros Hfg. revert s1 s2. induction l as [|x l IH]; intros s1 s2 Hs; simpl; auto.
Qed.

Lemma inject_Z_opp_diff a b : (inject_Z (a - b) == - inject_Z (b - a))%Q.
Proof. rewrite <- inject_Z_opp. apply inject_Z_injective. lia. Qed.

Ltac step_cases v p o :=
  destruct (Z.eqb_spec v p); destruct (Z.eqb_spec v o); try lia; lra.

Lemma weights_fold_neg w b p o s1 s2 : p <> o -> (s1 == - s2)%Q ->
  (fold_left (fun s r =>
      fold_left (fun s c =>
        if get b r c =? p then (s + wget w r c)%Q
        else if get b r c =? o then (s - wget w r c)%Q
        else s) range8 s) range8 s1 ==
   - fold_left (fun s r =>
      fold_left (fun s c =>
        if get b r c =? o then (s + wget w r c)%Q
        else if get b r c =? p then (s - wget w r c)%Q
        else s) range8 s) range8 s2)%Q.
Proof.
  intros Hpo Hs. apply fold_neg; [|exact Hs]. intros r a a' Ha.
  apply fold_neg; [|exact Ha]. intros c t t' Ht.
  step_cases (get b r c) p o.
Qed.

Lemma corner_fold_neg b p o (l : list (Z * Z)) (k : Q) s1 s2 : p <> o -> (s1 == - s2)%Q ->
  (fold_left (fun s rc =>
      if get b rc.1 rc.2 =? p then (s + k)%Q
      else if get b rc.1 rc.2 =? o then (s - k)%Q else s) l s1 ==
   - fold_left (fun s rc =>
      if get b rc.1 rc.2 =? o then (s + k)%Q
      else if get b rc.1 rc.2 =? p then (s - k)%Q else s) l s2)%Q.
Proof.
  intros Hpo Hs. apply fold_neg; [|exact Hs]. intros rc a a' Ha.
  step_cases (get b rc.1 rc.2) p o.
Qed.

Lemma worker_evaluate_neg w b p :
  (Worker.evaluate w b p == - Worker.evaluate w b (3 - p))%Q.
Proof.
  unfold Worker.evaluate. cbv zeta.
  assert (E : 3 - (3 - p) = p) by lia. rewrite E.
  rewrite (inject_Z_opp_diff (Z.of_nat (length (getValidMoves b p)))).
  assert (Hpo : p <> 3 - p) by lia.
  pose proof (corner_fold_neg b p (3 - p) [(0, 0); (0, 7); (7, 0); (7, 7)] 150 _ _ Hpo
    (weights_fold_neg w b p (3 - p) 0 0 Hpo ltac:(reflexivity))).
  lra.
Qed.

Lemma v6_corner_fold_neg b p o s1 s2 : p <> o -> (s1 == - s2)%Q ->
  (fold_left (fun s corner =>
      let '(cr, cc, dangers) := corner in
      let stone := get b cr cc in
      if stone =? p then (s + 500)%Q
      else if stone =? o then (s - 500)%Q
      else
        fold_left (fun s d =>
          let dStone := get b d.1 d.2 in
          if dStone =? p then (s - 300)%Q
          else if dStone =? o then (s + 300)%Q
          else s) dangers s) V6.corners s1 ==
   - fold_left (fun s corner =>
      let '(cr, cc, dangers) := corner in
      let stone := get b cr cc in
      if stone =? o then (s + 500)%Q
      else if stone =? p then (s - 500)%Q
      else
        fold_left (fun s d =>
          let dStone := get b d.1 d.2 in
          if dStone =? o then (s - 300)%Q
          else if dStone =? p then (s + 300)%Q
          else s) dangers s) V6.corners s2)%Q.
Proof.
  intros Hpo Hs. apply fold_neg; [|exact Hs]. intros [[cr cc] ds] a a' Ha. cbv zeta.
  destruct (Z.eqb_spec (get b cr cc) p); destruct (Z.eqb_spec (get b cr cc) o);
    try lia; try lra.
  apply fold_neg; [|exact Ha]. intros d t t' Ht. cbv zeta.
  step_cases (get b d.1 d.2) p o.
Qed.

Lemma v6_evaluate_neg w b p :
  (V6.evaluate w b p == - V6.evaluate w b (3 - p))%Q.
Proof.
  unfold V6.evaluate. cbv zeta.
  assert (E : 3 - (3 - p) = p) by lia. rewrite E.
  rewrite (inject_Z_opp_diff (Z.of_nat (length (getValidMoves b p)))).
  assert (Hpo : p <> 3 - p) by lia.
  pose proof (v6_corner_fold_neg b p (3 - p) _ _ Hpo
    (weights_fold_neg w b p (3 - p) 0 0 Hpo ltac:(reflexivity))) as H.
  cbv zeta in H. lra.
Qed.

Lemma core_score_neg w b :
  (Core.score w b 1 == - Core.score w b (-1))%Q.
Proof.
  unfold Core.score. cbv zeta.
  change (1 =? -1) with false. change (-1 =? -1) with true. cbv iota. lra.
Qed.

End EvalFacts.

(** ** Positional-weight training *)
Module TrainFacts.
Import JS Grid Weights.

Lemma wget_wset w r c r' c' v :
  wf_weights w -> 0 <= r < 8 -> 0 <= c < 8 -> 0 <= r' -> 0 <= c' ->
  wget (wset w r c v) r' c' = if (r =? r') && (c =? c') then v else wget w r' c'.
Proof.
  intros [Hl Hf] Hr Hc Hr' Hc'. unfold wget, wset.
  rewrite list_lookup_alter.
  destruct (Z.eqb_spec r r') as [<-|Hne]; cbn [andb].
  - rewrite decide_True by reflexivity.
    destruct (lookup_lt_is_Some_2 w (Z.to_nat r)) as [row Hrow]; [lia|]. rewrite Hrow. simpl.
    assert (length row = 8%nat) by exact (Forall_lookup_1 _ _ _ _ Hf Hrow).
    rewrite list_lookup_insert.
    destruct (Z.eqb_spec c c') as [<-|Hne].
    + rewrite decide_True by lia. reflexivity.
    + rewrite decide_False by lia. reflexivity.
  - rewrite decide_False by lia. reflexivity.
Qed.

Lemma wf_wset w r c v : wf_weights w -> wf_weights (wset w r c v).
Proof.
  intros [Hl Hf]. split.
  - unfold wset. rewrite length_alter. exact Hl.
  - apply Forall_alter; [exact Hf|]. intros row _ Hrow. rewrite length_insert. exact Hrow.
Qed.

Lemma Qle_bool_false_lt (a b : Q) : Qle_bool a b = false -> (b < a)%Q.
Proof.
  intros H. apply Qnot_le_lt. intros Hle. apply Qle_bool_iff in Hle. congruence.
Qed.

Lemma clamp_bound (B v : Q) : (0 <= B)%Q -> (- B <= Qjmax (- B) (Qjmin B v) <= B)%Q.
Proof.
  intros HB. unfold Qjmax, Qjmin.
  destruct (Qle_bool B v) eqn:H1;
    [apply Qle_bool_iff in H1|apply Qle_bool_false_lt in H1];
  match goal with |- context [Qle_bool (- B) ?x] => destruct (Qle_bool (- B) x) eqn:H2 end;
    [apply Qle_bool_iff in H2|apply Qle_bool_false_lt in H2|
     apply Qle_bool_iff in H2|apply Qle_bool_false_lt in H2]; lra.
Qed.

Ltac wget_simpl :=
  repeat (rewrite wget_wset; [| repeat apply wf_wset; assumption | lia ..]).

Ltac eqb_cases :=
  repeat match goal with
  | |- context [?a =? ?b] => destruct (Z.eqb_spec a b)
  end; cbn [andb orb]; try lia; try reflexivity.

(** One step of the V6 update: the four symmetric cells get the clamped
    new value of [(r, c)]; every other cell is unchanged. *)
Lemma v6_train_cell_spec w r c u r' c' :
  wf_weights w -> 0 <= r < 8 -> 0 <= c < 8 -> 0 <= r' < 8 -> 0 <= c' < 8 ->
  wget (V6.train_cell w r c u) r' c' =
  if in_class r c r' c' then Qjmax (-200) (Qjmin 200 (wget w r c + u)) else wget w r' c'.
Proof.
  intros Hw Hr Hc Hr' Hc'. unfold V6.train_cell, in_class. cbv zeta.
  wget_simpl. eqb_cases.
Qed.

(** One step of the ai-worker update: each of the three mirror cells gets
    [update] added to its own previous value; [(r, c)] gets the clamp of
    its own sum. *)
Lemma worker_train_cell_spec w r c u :
  wf_weights w -> 0 <= r < 8 -> 0 <= c < 8 ->
  wget (Worker.train_cell w r c u) r c = Qjmax (-500) (Qjmin 500 (wget w r c + u)) /\
  wget (Worker.train_cell w r c u) r (7 - c) = (wget w r (7 - c) + u)%Q /\
  wget (Worker.train_cell w r c u) (7 - r) c = (wget w (7 - r) c + u)%Q /\
  wget (Worker.train_cell w r c u) (7 - r) (7 - c) = (wget w (7 - r) (7 - c) + u)%Q.
Proof.
  intros Hw Hr Hc. unfold Worker.train_cell. cbv zeta.
  wget_simpl. repeat split; eqb_cases.
Qed.

End TrainFacts.

(** ** The terminal evaluation *)
Module FinalFacts.
Import Grid.

Lemma fold_pair {A} (h : A -> Z -> Z -> A) l1 l2 a :
  fold_left (fun a r => fold_left (fun a c => h a r c) l2 a) l1 a =
  fold_left (fun a rc => h a rc.1 rc.2) (list_prod l1 l2) a.
Proof.
  revert a. induction l1 as [|x l1 IH]; intros a; [reflexivity|].
  cbn [fold_left list_prod]. rewrite fold_left_app, <- IH. f_equal.
  clear IH. revert a. induction l2 as [|y l2 IH]; intros a; [reflexivity|].
  cbn [fold_left map]. apply IH.
Qed.

Lemma fold_count {X} (f g : X -> bool) l d :
  (forall x, f x = true -> g x = false) ->
  fold_left (fun d x => if f x then d + 1 else if g x then d - 1 else d) l d =
  d + Z.of_nat (length (List.filter f l)) - Z.of_nat (length (List.filter g l)).
Proof.
  intros Hfg. revert d. induction l as [|x l IH]; intros d; [simpl; lia|].
  cbn [fold_left List.filter]. rewrite IH.
  destruct (f x) eqn:Hf; [rewrite (Hfg x Hf)|destruct (g x)]; cbn [length]; lia.
Qed.

Lemma diff_fold b p :
  fold_left (fun d r =>
    fold_left (fun d c =>
      if get b r c =? p then d + 1
      else if get b r c =? 3 - p then d - 1
      else d) range8 d) range8 0 =
  Z.of_nat (count_of b p) - Z.of_nat (count_of b (3 - p)).
Proof.
  rewrite (fold_pair (fun d r c =>
    if get b r c =? p then d + 1 else if get b r c =? 3 - p then d - 1 else d)).
  rewrite (fold_count (fun rc => get b rc.1 rc.2 =? p) (fun rc => get b rc.1 rc.2 =? 3 - p)).
  - unfold count_of, all_cells. lia.
  - intros x Hx. apply Z.eqb_eq in Hx. apply Z.eqb_neq. lia.
Qed.

Lemma worker_evaluateFinal b p :
  Worker.evaluateFinal b p = inject_Z ((Z.of_nat (count_of b p) - Z.of_nat (count_of b (3 - p))) * 1000).
Proof. unfold Worker.evaluateFinal. cbv zeta. rewrite diff_fold. reflexivity. Qed.

Lemma v6_evaluateFinal b p :
  V6.evaluateFinal b p = inject_Z ((Z.of_nat (count_of b p) - Z.of_nat (count_of b (3 - p))) * 10000).
Proof. unfold V6.evaluateFinal. cbv zeta. rewrite diff_fold. reflexivity. Qed.

End FinalFacts.

(** ** The clamp of the V6 update keeps every weight in [[-200, 200]] *)
Module TrainBounds.
Import Grid Weights TrainFacts GridFacts.

Lemma fold_left_inv {A B} (P : A -> Prop) (f : A -> B -> A) l a :
  (forall a x, In x l -> P a -> P (f a x)) -> P a -> P (fold_left f l a).
Proof.
  intros Hf. revert a. induction l as [|x l IH]; intros a Ha; [exact Ha|].
  cbn [fold_left]. apply IH; [intros; apply Hf; [right|]; assumption|].
  apply Hf; [left; reflexivity|exact Ha].
Qed.

Lemma wf_v6_train_cell w r c u : wf_weights w -> wf_weights (V6.train_cell w r c u).
Proof. intros Hw. unfold V6.train_cell. cbv zeta. repeat apply wf_wset. exact Hw. Qed.

Lemma v6_train_cell_within w r c u :
  wf_weights w -> 0 <= r < 8 -> 0 <= c < 8 -> within 200 w -> within 200 (V6.train_cell w r c u).
Proof.
  intros Hw Hr Hc Hin r' c' Hr' Hc'. rewrite v6_train_cell_spec by assumption.
  destruct (in_class r c r' c'); [apply clamp_bound; lra|apply Hin; assumption].
Qed.

Lemma v6_train_cells_within b ai u w :
  wf_weights w -> within 200 w ->
  wf_weights (V6.train_cells b ai u w) /\ within 200 (V6.train_cells b ai u w).
Proof.
  intros Hw Hin. unfold V6.train_cells.
  apply (fold_left_inv (fun w => wf_weights w /\ within 200 w)); [|split; assumption].
  intros w' r Hr [Hw' Hin']. apply in_range8 in Hr.
  apply (fold_left_inv (fun w => wf_weights w /\ within 200 w)); [|split; assumption].
  intros w'' c Hc [Hw'' Hin'']. apply in_range8 in Hc.
  destruct (get b r c =? ai); [|split; assumption].
  split; [apply wf_v6_train_cell; exact Hw''|apply v6_train_cell_within; assumption].
Qed.

Lemma v6_train_within st b winner ai :
  wf_weights (V6.weights st) -> within 200 (V6.weights st) ->
  within 200 (V6.weights (fst (V6.train st b winner ai))).
Proof.
  intros Hw Hin. unfold V6.train. destruct (winner =? 0); [exact Hin|].
  apply v6_train_cells_within; assumption.
Qed.

End TrainBounds.

(** ** FastOthello: a move adds a disc *)
Module FastFacts.
Import Fast.

Lemma rd_insert b n v i :
  rd (<[n := v]> b) i = rd b i \/ rd (<[n := v]> b) i = Some v.
Proof.
  unfold rd. destruct (i <? 0); [left; reflexivity|].
  rewrite list_lookup_insert. destruct (decide _); [right|left]; reflexivity.
Qed.

Lemma rd_insert_eq b i v :
  0 <= i -> (Z.to_nat i < length b)%nat -> rd (<[Z.to_nat i := v]> b) i = Some v.
Proof.
  intros Hi Hl. unfold rd. destruct (Z.ltb_spec i 0); [lia|].
  apply list_lookup_insert_eq. exact Hl.
Qed.

Lemma rd_fold_insert t fl b i :
  rd (fold_left (fun b f => <[Z.to_nat f := t]> b) fl b) i = rd b i \/
  rd (fold_left (fun b f => <[Z.to_nat f := t]> b) fl b) i = Some t.
Proof.
  revert b. induction fl as [|f fl IH]; intros b; [left; reflexivity|].
  cbn [fold_left]. destruct (IH (<[Z.to_nat f := t]> b)) as [H|H]; rewrite H; [|right; reflexivity].
  apply rd_insert.
Qed.

Lemma rd_flip_dir t idx b dir i :
  rd (flip_dir t idx b dir) i = rd b i \/ rd (flip_dir t idx b dir) i = Some t.
Proof.
  unfold flip_dir. cbv zeta.
  destruct (is b (idx + dir) (- t)); [|left; reflexivity].
  destruct (collect_loop 10 b (idx + dir) dir (- t) []) as [fl curr].
  destruct (is b curr t); [apply rd_fold_insert|left; reflexivity].
Qed.

Lemma rd_fold_flip t idx dirs b i :
  rd (fold_left (flip_dir t idx) dirs b) i = rd b i \/
  rd (fold_left (flip_dir t idx) dirs b) i = Some t.
Proof.
  revert b. induction dirs as [|d dirs IH]; intros b; [left; reflexivity|].
  cbn [fold_left]. destruct (IH (flip_dir t idx b d)) as [H|H]; rewrite H; [|right; reflexivity].
  apply rd_flip_dir.
Qed.

Lemma in_getLegalMoves g idx :
  In idx (getLegalMoves g) -> 11 <= idx <= 88 /\ is (board g) idx 0 = true.
Proof.
  unfold getLegalMoves. rewrite in_flat_map. intros (y & Hy & H).
  rewrite in_flat_map in H. destruct H as (x & Hx & H).
  destruct (is (board g) (y * 10 + x) 0) eqn:H0; cbn [negb] in H; [|destruct H].
  destruct (existsb _ _); [|destruct H].
  destruct H as [<-|[]]. split; [|exact H0].
  cbn in Hy, Hx. lia.
Qed.

Lemma makeMove_discs g idx :
  (turn g = 1 \/ turn g = -1) -> In idx (getLegalMoves g) ->
  (discs (board g) + 1 <= discs (board (makeMove g idx)))%nat.
Proof.
  intros Ht Hin. apply in_getLegalMoves in Hin as [Hr H0].
  unfold makeMove. destruct (Z.eqb_spec idx (-1)) as [E|_]; [lia|]. cbn [board].
  set (b1 := <[Z.to_nat idx := turn g]> (board g)).
  set (b2 := fold_left (flip_dir (turn g) idx) directions b1).
  unfold is in H0. apply bool_decide_eq_true in H0.
  assert (Hl : (Z.to_nat idx < length (board g))%nat).
  { unfold rd in H0. destruct (idx <? 0); [discriminate|]. apply lookup_lt_Some in H0. exact H0. }
  assert (Hrd : forall i, rd b2 i = rd (board g) i \/ rd b2 i = Some (turn g)).
  { intros i. unfold b2. destruct (rd_fold_flip (turn g) idx directions b1 i) as [H|H]; rewrite H;
      [apply rd_insert|right; reflexivity]. }
  assert (Hidx : rd b2 idx = Some (turn g)).
  { unfold b2. destruct (rd_fold_flip (turn g) idx directions b1 idx) as [H|H]; rewrite H; [|reflexivity].
    apply rd_insert_eq; [lia|exact Hl]. }
  unfold discs. apply CountFacts.filter_length_strict with (a := idx).
  - intros i _ Hi. unfold is in *.
    destruct (Hrd i) as [H|H]; rewrite H; [exact Hi|].
    destruct Ht as [-> | ->]; [rewrite orb_true_iff; left|rewrite orb_true_iff; right];
      apply bool_decide_eq_true; reflexivity.
  - rewrite in_map_iff. exists (Z.to_nat idx). split; [lia|]. apply in_seq. lia.
  - unfold is. rewrite H0. reflexivity.
  - unfold is. rewrite Hidx.
    destruct Ht as [-> | ->]; reflexivity.
Qed.

End FastFacts.

(** ** N-tuple engine: legal moves *)
Module CoreFacts.
Import Core.

Lemma core_in_board_spec r c : in_board r c = true <-> 0 <= r < 8 /\ 0 <= c < 8.
Proof.
  unfold in_board. rewrite !andb_true_iff, !Z.leb_le, !Z.ltb_lt. tauto.
Qed.

Lemma cell_insert b n v j : cell (<[n := v]> b) j = cell b j \/ cell (<[n := v]> b) j = v.
Proof.
  unfold cell. rewrite !nth_lookup, list_lookup_insert.
  destruct (decide _); [right|left]; reflexivity.
Qed.

Lemma cell_insert_ne b i j v :
  0 <= i -> 0 <= j -> i <> j -> cell (<[Z.to_nat i := v]> b) j = cell b j.
Proof.
  intros Hi Hj Hne. unfold cell. rewrite !nth_lookup, list_lookup_insert_ne; [reflexivity|lia].
Qed.

Lemma cell_insert_eq b j v :
  0 <= j -> (Z.to_nat j < length b)%nat -> cell (<[Z.to_nat j := v]> b) j = v.
Proof.
  intros Hj Hl. unfold cell. rewrite nth_lookup, list_lookup_insert_eq by exact Hl. reflexivity.
Qed.

(** The scanning loop of [canFlip], as [canFlip_loop_spec] for the 8x8
    engine. *)
Lemma ray_loop_spec fuel b nr nc dr dc t h :
  t <> 0 ->
  ray_loop fuel b nr nc dr dc t h = true <->
  exists k : nat, (k < fuel)%nat /\
    (forall i : nat, (i < k)%nat ->
       in_board (nr + Z.of_nat i * dr) (nc + Z.of_nat i * dc) = true /\
       cell b ((nr + Z.of_nat i * dr) * 8 + (nc + Z.of_nat i * dc)) = - t) /\
    in_board (nr + Z.of_nat k * dr) (nc + Z.of_nat k * dc) = true /\
    cell b ((nr + Z.of_nat k * dr) * 8 + (nc + Z.of_nat k * dc)) = t /\
    (h = true \/ (0 < k)%nat).
Proof.
  intros Ht. revert nr nc h. induction fuel as [|fuel IH]; intros nr nc h; cbn [ray_loop].
  - split; [discriminate|]. intros (k & Hk & _). lia.
  - destruct (in_board nr nc) eqn:Hin; cbv zeta.
    + destruct (Z.eqb_spec (cell b (nr * 8 + nc)) (- t)) as [Ho|Ho].
      * rewrite IH. split.
        -- intros (k & Hk & Hall & Hin' & Hp & _). exists (S k).
           split; [lia|].
           split; [|rewrite !GridFacts.posS; split; [exact Hin'|split; [exact Hp|right; lia]]].
           intros [|i] Hi; [rewrite !GridFacts.pos0; split; assumption|].
           rewrite !GridFacts.posS. apply Hall. lia.
        -- intros (k & Hk & Hall & Hin' & Hp & Hh). destruct k as [|k].
           ++ rewrite !GridFacts.pos0 in Hp. lia.
           ++ exists k. rewrite !GridFacts.posS in Hin', Hp. split; [lia|].
              split; [|split; [exact Hin'|split; [exact Hp|left; reflexivity]]].
              intros i Hi. rewrite <- !GridFacts.posS. apply Hall. lia.
      * destruct (Z.eqb_spec (cell b (nr * 8 + nc)) t) as [Hp|Hp].
        -- split.
           ++ intros ->. exists 0%nat. rewrite !GridFacts.pos0.
              split; [lia|]. split; [intros; lia|]. auto.
           ++ intros (k & Hk & Hall & Hin' & Hp' & Hh).
              destruct k as [|k]; [destruct Hh; [assumption|lia]|].
              destruct (Hall 0%nat ltac:(lia)) as [_ Ho']. rewrite !GridFacts.pos0 in Ho'.
              contradiction.
        -- split; [discriminate|].
           intros (k & Hk & Hall & Hin' & Hp' & Hh). destruct k as [|k].
           ++ rewrite !GridFacts.pos0 in Hp'. contradiction.
           ++ destruct (Hall 0%nat ltac:(lia)) as [_ Ho']. rewrite !GridFacts.pos0 in Ho'.
              contradiction.
    + split; [discriminate|].
      intros (k & Hk & Hall & Hin' & Hp' & Hh). destruct k as [|k].
      * rewrite !GridFacts.pos0 in Hin'. congruence.
      * destruct (Hall 0%nat ltac:(lia)) as [Hin0 _]. rewrite !GridFacts.pos0 in Hin0. congruence.
Qed.

Lemma in_dirs d :
  In d dirs <->
  d = (-1,-1) \/ d = (-1,0) \/ d = (-1,1) \/ d = (0,-1) \/
  d = (0,1) \/ d = (1,-1) \/ d = (1,0) \/ d = (1,1).
Proof. simpl. intuition. Qed.

Lemma ray_flanks b r c d t :
  t <> 0 -> In d dirs ->
  ray_loop 8 b (r + d.1) (c + d.2) d.1 d.2 t false = true <-> flanks b r c d.1 d.2 t.
Proof.
  intros Ht Hd. unfold flanks. rewrite ray_loop_spec by exact Ht. split.
  - intros (k & Hk & Hall & Hin & Hp & Hh). destruct Hh as [Hh|Hh]; [discriminate|].
    exists k. split; [lia|]. rewrite !GridFacts.posS. split; [|split; assumption].
    intros [|i] Hi; [lia|]. rewrite !GridFacts.posS. apply Hall. lia.
  - intros (k & Hk & Hall & Hin & Hp). exists k. rewrite !GridFacts.posS in Hin, Hp.
    split.
    + destruct (Hall 1%nat ltac:(lia)) as [Hin1 _].
      apply core_in_board_spec in Hin, Hin1.
      apply in_dirs in Hd.
      destruct Hd as [->|[->|[->|[->|[->|[->|[->| ->]]]]]]]; simpl in *; lia.
    + split; [|split; [exact Hin|split; [exact Hp|right; lia]]].
      intros i Hi. rewrite <- !GridFacts.posS. apply Hall. lia.
Qed.

(** Characterisation of [getLegalMoves] by the spec's legality rule; the
    cell [i] is row [i / 8], column [i mod 8]. *)
Lemma core_getLegalMoves_iff b t i :
  t <> 0 ->
  In i (getLegalMoves b t) <->
  0 <= i < 64 /\ cell b i = 0 /\
  exists d, In d dirs /\ flanks b (i / 8) (i mod 8) d.1 d.2 t.
Proof.
  intros Ht. unfold getLegalMoves. rewrite filter_In, in_map_iff, andb_true_iff, Z.eqb_eq.
  unfold canFlip. rewrite existsb_exists. split.
  - intros [(n & <- & Hn) [H0 (d & Hd & Hr)]]. apply in_seq in Hn.
    split; [lia|]. split; [exact H0|]. exists d. split; [exact Hd|].
    apply ray_flanks; assumption.
  - intros (Hi & H0 & d & Hd & Hf). split.
    + exists (Z.to_nat i). split; [lia|]. apply in_seq. lia.
    + split; [exact H0|]. exists d. split; [exact Hd|]. apply ray_flanks; assumption.
Qed.

End CoreFacts.

(** ** N-tuple engine: [simulateMove] flips a disc *)
Module CoreFlipFacts.
Import Core CoreFacts.

Lemma fold_insert_only t fl nb x :
  cell (fold_left (fun b f => <[Z.to_nat f := t]> b) fl nb) x = cell nb x \/
  cell (fold_left (fun b f => <[Z.to_nat f := t]> b) fl nb) x = t.
Proof.
  revert nb. induction fl as [|f fl IH]; intros nb; [left; reflexivity|].
  cbn [fold_left]. destruct (IH (<[Z.to_nat f := t]> nb)) as [H|H]; rewrite H; [|right; reflexivity].
  apply cell_insert.
Qed.

Lemma fold_insert_in t fl nb x :
  In x fl -> 0 <= x -> (Z.to_nat x < length nb)%nat ->
  cell (fold_left (fun b f => <[Z.to_nat f := t]> b) fl nb) x = t.
Proof.
  revert nb. induction fl as [|f fl IH]; intros nb Hx H0 Hl; [destruct Hx|].
  cbn [fold_left]. destruct Hx as [->|Hx].
  - destruct (fold_insert_only t fl (<[Z.to_nat x := t]> nb) x) as [H|H]; rewrite H; [|reflexivity].
    apply cell_insert_eq; assumption.
  - apply IH; [exact Hx|exact H0|]. rewrite length_insert. exact Hl.
Qed.

Lemma sim_loop_only fuel nb nr nc dr dc t fl x :
  cell (sim_loop fuel nb nr nc dr dc t fl) x = cell nb x \/
  cell (sim_loop fuel nb nr nc dr dc t fl) x = t.
Proof.
  revert nr nc fl. induction fuel as [|fuel IH]; intros nr nc fl; cbn [sim_loop]; [left; reflexivity|].
  destruct (in_board nr nc); cbv zeta; [|left; reflexivity].
  destruct (cell nb (nr * 8 + nc) =? - t); [apply IH|].
  destruct (cell nb (nr * 8 + nc) =? t); [apply fold_insert_only|left; reflexivity].
Qed.

(** A direction whose scan fails leaves the board as it is. *)
Lemma sim_loop_unchanged fuel nb nr nc dr dc t fl h :
  ray_loop fuel nb nr nc dr dc t h = false -> (fl = [] \/ h = true) ->
  sim_loop fuel nb nr nc dr dc t fl = nb.
Proof.
  revert nr nc fl h. induction fuel as [|fuel IH]; intros nr nc fl h Hr Hfl; cbn [sim_loop]; [reflexivity|].
  cbn [ray_loop] in Hr. destruct (in_board nr nc); cbv zeta in *; [|reflexivity].
  destruct (cell nb (nr * 8 + nc) =? - t).
  - apply (IH _ _ _ true Hr). right. reflexivity.
  - destruct (cell nb (nr * 8 + nc) =? t); [|reflexivity].
    subst h. destruct Hfl as [->|Hfl]; [reflexivity|discriminate].
Qed.

(** A direction whose scan succeeds turns every collected cell. *)
Lemma sim_loop_fires fuel nb nr nc dr dc t fl h :
  length nb = 64%nat -> Forall (fun x => 0 <= x < 64) fl ->
  ray_loop fuel nb nr nc dr dc t h = true ->
  forall x, In x fl -> cell (sim_loop fuel nb nr nc dr dc t fl) x = t.
Proof.
  intros Hl. revert nr nc fl h. induction fuel as [|fuel IH]; intros nr nc fl h Hfl Hr x Hx;
    cbn [ray_loop] in Hr; [discriminate|].
  cbn [sim_loop]. destruct (in_board nr nc) eqn:Hin; cbv zeta in *; [|discriminate].
  destruct (cell nb (nr * 8 + nc) =? - t).
  - apply (IH _ _ _ true); [|exact Hr|apply in_or_app; left; exact Hx].
    apply Forall_app. split; [exact Hfl|]. apply Forall_cons. split; [|constructor].
    apply core_in_board_spec in Hin. lia.
  - destruct (cell nb (nr * 8 + nc) =? t); [|discriminate].
    rewrite List.Forall_forall in Hfl. destruct (Hfl x Hx).
    apply fold_insert_in; [exact Hx|lia|lia].
Qed.

Lemma sim_loop_first nb nr nc dr dc t :
  length nb = 64%nat -> ray_loop 8 nb nr nc dr dc t false = true ->
  0 <= nr * 8 + nc < 64 /\ cell nb (nr * 8 + nc) = - t /\
  cell (sim_loop 8 nb nr nc dr dc t []) (nr * 8 + nc) = t.
Proof.
  intros Hl Hr. cbn [ray_loop] in Hr. cbn [sim_loop].
  destruct (in_board nr nc) eqn:Hin; cbv zeta in *; [|discriminate].
  apply core_in_board_spec in Hin.
  destruct (Z.eqb_spec (cell nb (nr * 8 + nc)) (- t)) as [Ho|Ho].
  - split; [lia|]. split; [exact Ho|].
    apply (sim_loop_fires 7 nb _ _ dr dc t [nr * 8 + nc] true Hl); [|exact Hr|left; reflexivity].
    constructor; [lia|constructor].
  - destruct (cell nb (nr * 8 + nc) =? t); discriminate.
Qed.

Lemma sim_fold_only ds r c t nb x :
  cell (fold_left (sim_step r c t) ds nb) x = cell nb x \/
  cell (fold_left (sim_step r c t) ds nb) x = t.
Proof.
  revert nb. induction ds as [|d ds IH]; intros nb; [left; reflexivity|].
  cbn [fold_left]. destruct (IH (sim_step r c t nb d)) as [H|H]; rewrite H; [|right; reflexivity].
  apply sim_loop_only.
Qed.

(** The first direction, in loop order, whose scan succeeds turns its
    first ray cell, an opponent disc of the board the loop started from. *)
Lemma sim_fold_fires ds r c t nb :
  length nb = 64%nat ->
  (exists d, In d ds /\ ray_loop 8 nb (r + d.1) (c + d.2) d.1 d.2 t false = true) ->
  exists j, 0 <= j < 64 /\ cell nb j = - t /\ cell (fold_left (sim_step r c t) ds nb) j = t.
Proof.
  intros Hl. revert nb Hl. induction ds as [|d0 ds IH]; intros nb Hl (d & Hd & Hr); [destruct Hd|].
  cbn [fold_left].
  destruct (ray_loop 8 nb (r + d0.1) (c + d0.2) d0.1 d0.2 t false) eqn:Hr0.
  - destruct (sim_loop_first nb _ _ d0.1 d0.2 t Hl Hr0) as (Hj & Ho & Hp).
    exists ((r + d0.1) * 8 + (c + d0.2)). split; [exact Hj|]. split; [exact Ho|].
    destruct (sim_fold_only ds r c t (sim_step r c t nb d0) ((r + d0.1) * 8 + (c + d0.2)))
      as [H|H]; rewrite H; [exact Hp|reflexivity].
  - unfold sim_step at 2. rewrite (sim_loop_unchanged 8 nb _ _ d0.1 d0.2 t [] false Hr0)
      by (left; reflexivity).
    destruct Hd as [<-|Hd]; [congruence|].
    apply IH; [exact Hl|exists d; split; assumption].
Qed.

(** Writing the mover's disc on cell [i] does not change any ray from [i]. *)
Lemma flanks_insert b i v d t :
  0 <= i < 64 -> In d dirs -> flanks b (i / 8) (i mod 8) d.1 d.2 t ->
  flanks (<[Z.to_nat i := v]> b) (i / 8) (i mod 8) d.1 d.2 t.
Proof.
  intros Hi Hd (k & Hk & Hall & Hin & Hp).
  assert (Hdm : i = 8 * (i / 8) + i mod 8) by (apply Z.div_mod; lia).
  assert (Hm : 0 <= i mod 8 < 8) by (apply Z.mod_pos_bound; lia).
  assert (Hmove : forall n : nat, (1 <= n)%nat ->
            in_board (i / 8 + Z.of_nat n * d.1) (i mod 8 + Z.of_nat n * d.2) = true ->
            cell (<[Z.to_nat i := v]> b)
              ((i / 8 + Z.of_nat n * d.1) * 8 + (i mod 8 + Z.of_nat n * d.2)) =
            cell b ((i / 8 + Z.of_nat n * d.1) * 8 + (i mod 8 + Z.of_nat n * d.2))).
  { intros n Hn Hb. apply core_in_board_spec in Hb.
    apply cell_insert_ne; [lia|lia|].
    apply in_dirs in Hd.
    destruct Hd as [->|[->|[->|[->|[->|[->|[->| ->]]]]]]]; simpl in *; lia. }
  exists k. split; [exact Hk|]. split.
  - intros n Hn. destruct (Hall n Hn) as [Hb Hc]. split; [exact Hb|].
    rewrite Hmove by (assumption || lia). exact Hc.
  - split; [exact Hin|]. rewrite Hmove by (assumption || lia). exact Hp.
Qed.

(** Playing a returned move flips at least one opponent disc. *)
Lemma simulateMove_flips_one b t i :
  length b = 64%nat -> t <> 0 -> In i (getLegalMoves b t) ->
  exists j, 0 <= j < 64 /\ cell b j = - t /\ cell (simulateMove b i t) j = t.
Proof.
  intros Hl Ht Hm. apply core_getLegalMoves_iff in Hm as (Hi & H0 & d & Hd & Hf); [|exact Ht].
  unfold simulateMove. cbv zeta.
  destruct (sim_fold_fires dirs (i / 8) (i mod 8) t (<[Z.to_nat i := t]> b))
    as (j & Hj & Ho & Hp).
  - rewrite length_insert. exact Hl.
  - exists d. split; [exact Hd|]. apply ray_flanks; [exact Ht|exact Hd|].
    apply flanks_insert; assumption.
  - exists j. split; [exact Hj|]. split; [|exact Hp].
    assert (Hji : j <> i).
    { intros ->. rewrite cell_insert_eq in Ho by lia. lia. }
    rewrite cell_insert_ne in Ho by lia. exact Ho.
Qed.

End CoreFlipFacts.

(** ** N-tuple engine: training refines the spec's rule *)
Module CoreTrainFacts.
Import Core CoreSpec.

Lemma index_loop_digits tuple map board idx k :
  index_loop tuple map board idx (3 ^ k) = (idx + spec_digits tuple map board k)%nat.
Proof.
  revert idx k. induction tuple as [|x ts IH]; intros idx k; cbn [index_loop spec_digits]; [lia|].
  replace (3 ^ k * 3)%nat with (3 ^ S k)%nat by (cbn [Nat.pow]; lia).
  rewrite IH. lia.
Qed.

Lemma tupleIndex_spec tuple map board : tupleIndex tuple map board = spec_index tuple map board.
Proof. unfold tupleIndex, spec_index. exact (index_loop_digits tuple map board 0 0). Qed.

Lemma fold_left_flat_map {A B C} (f : A -> B -> A) (g : C -> list B) l a :
  fold_left f (flat_map g l) a = fold_left (fun a x => fold_left f (g x) a) l a.
Proof.
  revert a. induction l as [|x l IH]; intros a; [reflexivity|].
  cbn [flat_map fold_left]. rewrite fold_left_app. apply IH.
Qed.

Lemma fold_left_map_fn {A B C} (f : A -> B -> A) (h : C -> B) l a :
  fold_left f (map h l) a = fold_left (fun a x => f a (h x)) l a.
Proof.
  revert a. induction l as [|x l IH]; intros a; [reflexivity|]. apply IH.
Qed.

Lemma fold_left_ext_fn {A B} (f g : A -> B -> A) l a :
  (forall a x, f a x = g a x) -> fold_left f l a = fold_left g l a.
Proof.
  intros Hfg. revert a. induction l as [|x l IH]; intros a; [reflexivity|].
  cbn [fold_left]. rewrite Hfg. apply IH.
Qed.

Lemma evaluate_spec w board : evaluate w board = spec_score w board.
Proof.
  unfold evaluate, spec_score, spec_active. rewrite fold_left_flat_map.
  apply fold_left_ext_fn. intros a t. cbv beta zeta. rewrite fold_left_map_fn.
  apply fold_left_ext_fn. intros a' s. cbn [fst snd]. rewrite tupleIndex_spec. reflexivity.
Qed.

Lemma updateWeights_spec w board error :
  updateWeights w board error = spec_update w board (error * learningRate)%Q.
Proof.
  unfold updateWeights, spec_update, spec_active. cbv zeta. rewrite fold_left_flat_map.
  apply fold_left_ext_fn. intros a t. cbv beta zeta. rewrite fold_left_map_fn.
  apply fold_left_ext_fn. intros a' s. cbn [fst snd]. rewrite tupleIndex_spec. reflexivity.
Qed.

Lemma train_loop_spec history n w target :
  (n <= length history)%nat ->
  train_loop history n w target = fst (fold_left spec_step (rev (take n history)) (w, target)).
Proof.
  revert w target. induction n as [|n IH]; intros w target Hn; [reflexivity|].
  destruct (lookup_lt_is_Some_2 history n) as [x Hx]; [lia|].
  rewrite (take_S_r _ _ _ Hx), rev_unit. cbn [train_loop fold_left]. cbv zeta.
  rewrite (nth_lookup_Some _ _ _ _ Hx), IH by lia.
  unfold spec_step at 2. rewrite evaluate_spec, updateWeights_spec. reflexivity.
Qed.

Lemma train_spec w history result : train w history result = spec_train w history result.
Proof.
  unfold train, spec_train. rewrite train_loop_spec by lia. rewrite firstn_all. reflexivity.
Qed.

End CoreTrainFacts.

(** ** The self-play loop of ai-worker.js and part_001 *)
Module GameFacts.
Import JS Grid Weights Views.
Import GridFacts TrainFacts TrainBounds FinalFacts CountFacts SearchFacts.

(* countEmpty *)
Lemma concat_cells b : wf_board b -> concat b = map (fun rc => get b rc.1 rc.2) all_cells.
Proof.
  intros [Hl Hr].
  destruct b as [|r0 [|r1 [|r2 [|r3 [|r4 [|r5 [|r6 [|r7 [|? ?]]]]]]]]]; simpl in Hl; try discriminate.
  repeat match goal with
  | H : Forall _ (_ :: _) |- _ => apply Forall_cons in H as [? H]
  end.
  repeat match goal with
  | r : list Z, H : length ?r = 8%nat |- _ =>
    destruct r as [|? [|? [|? [|? [|? [|? [|? [|? [|? ?]]]]]]]]]; simpl in H; try discriminate; clear H
  end.
  reflexivity.
Qed.

Lemma filter_map_length {A B} (f : B -> bool) (g : A -> B) l :
  length (List.filter f (map g l)) = length (List.filter (fun x => f (g x)) l).
Proof. induction l as [|a l IH]; simpl; [reflexivity|]. destruct (f (g a)); simpl; auto. Qed.

Lemma countEmpty_count b : wf_board b -> countEmpty b = count_of b 0.
Proof. intros Hb. unfold countEmpty, count_of. rewrite concat_cells by exact Hb. apply filter_map_length. Qed.

(* execute frame *)
Lemma p_ne_opp p : p <> 3 - p.
Proof. lia. Qed.

Lemma flip_loop_run k fuel nb nr nc dr dc p :
  (dr, dc) <> (0, 0) -> wf_board nb -> (k < fuel)%nat ->
  (forall i : nat, (i < k)%nat ->
     in_board (nr + Z.of_nat i * dr) (nc + Z.of_nat i * dc) = true /\
     get nb (nr + Z.of_nat i * dr) (nc + Z.of_nat i * dc) = 3 - p) ->
  get nb (nr + Z.of_nat k * dr) (nc + Z.of_nat k * dc) = p ->
  forall x y,
    get (flip_loop fuel nb nr nc dr dc p) x y = get nb x y \/
    (get nb x y = 3 - p /\ get (flip_loop fuel nb nr nc dr dc p) x y = p).
Proof.
  intros Hd. revert fuel nb nr nc.
  induction k as [|k IH]; intros fuel nb nr nc Hw Hf Hrun Hend x y.
  - destruct fuel as [|f]; [lia|]. rewrite pos0, pos0 in Hend. simpl.
    rewrite Hend, Z.eqb_refl. simpl. left. reflexivity.
  - destruct fuel as [|f]; [lia|].
    destruct (Hrun 0%nat ltac:(lia)) as [Hin0 Hv0]. rewrite pos0, pos0 in Hin0, Hv0.
    simpl. rewrite Hv0.
    assert (Hne : (3 - p =? p) = false) by (apply Z.eqb_neq; lia). rewrite Hne. simpl.
    assert (Hw' : wf_board (set nb nr nc p)) by (apply wf_set; exact Hw).
    assert (Hdist : forall i : nat, (nr + dr + Z.of_nat i * dr <> nr \/ nc + dc + Z.of_nat i * dc <> nc)).
    { intros i. destruct (Z.eq_dec dr 0); [|left; nia]. subst dr. right.
      destruct (Z.eq_dec dc 0); [subst; congruence|]. nia. }
    destruct (IH f (set nb nr nc p) (nr + dr) (nc + dc) Hw' ltac:(lia)) with (x := x) (y := y) as [H|[H1 H2]].
    + intros i Hi. destruct (Hrun (S i) ltac:(lia)) as [A B]. rewrite posS, posS in A, B.
      split; [exact A|]. rewrite get_set_ne by (destruct (Hdist i); [left|right]; lia). exact B.
    + rewrite posS, posS in Hend. rewrite get_set_ne by (destruct (Hdist k); [left|right]; lia). exact Hend.
    + rewrite H.
      destruct (Z.eq_dec x nr) as [->|Hx]; [destruct (Z.eq_dec y nc) as [->|Hy]|].
      * rewrite get_set_eq by assumption. right. split; [exact Hv0|reflexivity].
      * left. apply get_set_ne. right. intro; apply Hy; lia.
      * left. apply get_set_ne. left. intro; apply Hx; lia.
    + destruct (Z.eq_dec x nr) as [->|Hx]; [destruct (Z.eq_dec y nc) as [->|Hy]|].
      * rewrite get_set_eq in H1 by assumption. lia.
      * rewrite get_set_ne in H1 by (right; intro; apply Hy; lia). right. split; assumption.
      * rewrite get_set_ne in H1 by (left; intro; apply Hx; lia). right. split; assumption.
Qed.

Lemma exec_step_frame r c p nb d x y :
  wf_board nb -> In d directions ->
  get (exec_step r c p nb d) x y = get nb x y \/
  (get nb x y = 3 - p /\ get (exec_step r c p nb d) x y = p).
Proof.
  intros Hw Hd. unfold exec_step. destruct (canFlip nb r c d p) eqn:E; [|left; reflexivity].
  unfold canFlip in E. apply canFlip_loop_spec in E as (k & Hk & Hrun & _ & Hend & _).
  eapply flip_loop_run; [|exact Hw|exact Hk|exact Hrun|exact Hend].
  apply in_directions in Hd. intros Heq. inversion Heq.
  destruct d as [dr dc]; simpl in *; intuition congruence.
Qed.

Lemma execute_frame b r c p : wf_board b -> exec_frame b (execute b r c p) r c p.
Proof.
  intros Hb. unfold execute.
  assert (H : forall ds, (forall d, In d ds -> In d directions) -> forall nb, wf_board nb ->
            exec_frame b nb r c p -> exec_frame b (fold_left (exec_step r c p) ds nb) r c p).
  { induction ds as [|d ds IH]; intros Hds nb Hw Hf; simpl; [exact Hf|].
    apply IH; [intros; apply Hds; right; assumption| |].
    - unfold exec_step. destruct (canFlip nb r c d p); [apply wf_flip_loop|]; exact Hw.
    - intros x y Hxy. destruct (exec_step_frame r c p nb d x y Hw (Hds d (or_introl eq_refl))) as [E|[E1 E2]].
      + rewrite E. apply Hf. exact Hxy.
      + destruct (Hf x y Hxy) as [F|[F1 F2]].
        * right. split; [congruence|exact E2].
        * lia. }
  apply H; [tauto|apply wf_set; exact Hb|].
  intros x y Hxy. left. apply get_set_ne.
  destruct (Z.eq_dec r x); [right; intro; apply Hxy; subst; reflexivity|left; exact n].
Qed.

(* exact filter difference *)
Lemma filter_length_eq {A} (f g : A -> bool) (l : list A) :
  (forall x, In x l -> f x = g x) -> length (List.filter f l) = length (List.filter g l).
Proof.
  induction l as [|y l IH]; intros H; simpl; [reflexivity|].
  rewrite (H y (or_introl eq_refl)). destruct (g y); simpl; [f_equal|];
  apply IH; intros; apply H; right; assumption.
Qed.

Lemma filter_length_one {A} (f g : A -> bool) (l : list A) (a : A) :
  NoDup l -> In a l -> f a = true -> g a = false ->
  (forall x, In x l -> x <> a -> f x = g x) ->
  length (List.filter f l) = S (length (List.filter g l)).
Proof.
  intros Hnd Hin Hfa Hga Hrest.
  apply in_split in Hin as (l1 & l2 & ->).
  apply NoDup_app in Hnd as (_ & Hdis & Hnd2). apply NoDup_cons in Hnd2 as [Ha2 _].
  rewrite !List.filter_app, !length_app. simpl. rewrite Hfa, Hga. simpl.
  rewrite (filter_length_eq f g l1), (filter_length_eq f g l2); [lia| |].
  - intros x Hx. apply Hrest; [apply in_or_app; right; right; exact Hx|].
    intros ->. apply Ha2. apply list_elem_of_In. exact Hx.
  - intros x Hx. apply Hrest; [apply in_or_app; left; exact Hx|].
    intros ->. apply (Hdis a); [apply list_elem_of_In; exact Hx|left].
Qed.

Lemma all_cells_NoDup : NoDup all_cells.
Proof. apply (bool_decide_unpack _). vm_compute. reflexivity. Qed.

Lemma in_all_cells r c : in_board r c = true -> In (r, c) all_cells.
Proof.
  intros H. apply in_board_spec in H. unfold all_cells. apply in_prod; apply in_range8; tauto.
Qed.

Lemma wf_execute b r c p : wf_board b -> wf_board (execute b r c p).
Proof. intros Hb. apply wf_exec_fold, wf_set, Hb. Qed.

Lemma execute_countEmpty b p r c :
  wf_board b -> (p = 1 \/ p = 2) -> In (r, c) (getValidMoves b p) ->
  (countEmpty (execute b r c p) + 1)%nat = countEmpty b.
Proof.
  intros Hb Hp Hv.
  apply getValidMoves_iff in Hv as (Hin & H0 & _).
  rewrite !countEmpty_count by (try apply wf_execute; exact Hb).
  unfold count_of.
  rewrite (filter_length_one (fun rc => get b rc.1 rc.2 =? 0) (fun rc => get (execute b r c p) rc.1 rc.2 =? 0)
             all_cells (r, c)); [lia|apply all_cells_NoDup|apply in_all_cells, Hin|simpl; rewrite H0; reflexivity| |].
  - simpl. rewrite execute_placed by assumption. apply Z.eqb_neq. lia.
  - intros [x y] _ Hxy. simpl.
    destruct (execute_frame b r c p Hb x y Hxy) as [E|[E1 E2]]; rewrite ?E, ?E1, ?E2; [reflexivity|].
    rewrite (proj2 (Z.eqb_neq _ _)) by lia. symmetry. apply Z.eqb_neq. lia.
Qed.

(* evaluateFinal antisymmetry *)
Lemma evaluateFinal_neg b p :
  (Worker.evaluateFinal b p == - Worker.evaluateFinal b (3 - p))%Q /\
  (V6.evaluateFinal b p == - V6.evaluateFinal b (3 - p))%Q.
Proof.
  rewrite !worker_evaluateFinal, !v6_evaluateFinal. replace (3 - (3 - p)) with p by lia.
  rewrite <- !inject_Z_opp. split; apply inject_Z_injective; lia.
Qed.

(* V6 symmetry *)
Lemma in_class_mirror r c r' c' :
  0 <= r' < 8 -> 0 <= c' < 8 ->
  in_class r c r' (7 - c') = in_class r c r' c' /\ in_class r c (7 - r') c' = in_class r c r' c'.
Proof.
  intros. unfold in_class.
  split; f_equal; (destruct (r' =? r) eqn:?, (r' =? 7 - r) eqn:?, (c' =? c) eqn:?, (c' =? 7 - c) eqn:?);
  rewrite ?Z.eqb_eq, ?Z.eqb_neq in *;
  repeat match goal with |- context [?a =? ?b] => destruct (a =? b) eqn:?; rewrite ?Z.eqb_eq, ?Z.eqb_neq in * end;
  simpl; try reflexivity; lia.
Qed.

Lemma v6_train_cell_sym w r c u :
  wf_weights w -> 0 <= r < 8 -> 0 <= c < 8 -> mirror_symmetric w ->
  mirror_symmetric (V6.train_cell w r c u).
Proof.
  intros Hw Hr Hc Hs r' c' Hr' Hc'.
  rewrite !v6_train_cell_spec by (assumption || lia).
  destruct (in_class_mirror r c r' c' Hr' Hc') as [E1 E2]. rewrite E1, E2.
  destruct (in_class r c r' c'); [split; reflexivity|apply Hs; assumption].
Qed.

Lemma v6_train_sym st b winner ai :
  wf_weights (V6.weights st) -> mirror_symmetric (V6.weights st) ->
  mirror_symmetric (V6.weights (fst (V6.train st b winner ai))).
Proof.
  intros Hw Hs. unfold V6.train. destruct (winner =? 0); [exact Hs|]. simpl.
  unfold V6.train_cells.
  apply (fold_left_inv (fun w => wf_weights w /\ mirror_symmetric w)); [|split; assumption].
  intros w r Hr [Hw' Hs']. apply in_range8 in Hr.
  apply (fold_left_inv (fun w => wf_weights w /\ mirror_symmetric w)); [|split; assumption].
  intros w' c Hc [Hw'' Hs'']. apply in_range8 in Hc.
  destruct (get b r c =? ai); [|split; assumption].
  split; [apply wf_v6_train_cell; exact Hw''|apply v6_train_cell_sym; assumption].
Qed.

Lemma v6_default_sym : mirror_symmetric V6.defaultWeights.
Proof.
  intros r c Hr Hc.
  assert (Hr' : r = 0 \/ r = 1 \/ r = 2 \/ r = 3 \/ r = 4 \/ r = 5 \/ r = 6 \/ r = 7) by lia.
  assert (Hc' : c = 0 \/ c = 1 \/ c = 2 \/ c = 3 \/ c = 4 \/ c = 5 \/ c = 6 \/ c = 7) by lia.
  destruct Hr' as [->|[->|[->|[->|[->|[->|[->| ->]]]]]]];
  destruct Hc' as [->|[->|[->|[->|[->|[->|[->| ->]]]]]]]; split; reflexivity.
Qed.

(* train frame *)
Lemma worker_train_cell_frame w r c u r' c' :
  wf_weights w -> 0 <= r < 8 -> 0 <= c < 8 -> 0 <= r' < 8 -> 0 <= c' < 8 ->
  in_class r c r' c' = false -> wget (Worker.train_cell w r c u) r' c' = wget w r' c'.
Proof.
  intros Hw Hr Hc Hr' Hc' Hn. unfold Worker.train_cell. cbv zeta. unfold in_class in Hn.
  assert (Hne : forall x y, (x = r \/ x = 7 - r) -> (y = c \/ y = 7 - c) -> (x =? r') && (y =? c') = false).
  { intros x y Hx Hy. destruct (Z.eqb_spec x r'), (Z.eqb_spec y c'); try reflexivity.
    exfalso. subst. revert Hn.
    destruct Hx as [->| ->], Hy as [->| ->]; rewrite ?Z.eqb_refl; simpl; rewrite ?orb_true_r; discriminate. }
  rewrite wget_wset by (repeat apply wf_wset; assumption || lia).
  rewrite Hne by tauto.
  repeat (rewrite wget_wset by (repeat apply wf_wset; assumption || lia); rewrite Hne by tauto).
  reflexivity.
Qed.

Lemma wf_worker_train_cell w r c u : wf_weights w -> wf_weights (Worker.train_cell w r c u).
Proof. intros Hw. unfold Worker.train_cell. cbv zeta. repeat apply wf_wset. exact Hw. Qed.

Lemma train_cells_frame (tc : list (list Q) -> Z -> Z -> Q -> list (list Q)) b ai u w r' c' :
  (forall w r c, wf_weights w -> wf_weights (tc w r c u)) ->
  (forall w r c, wf_weights w -> 0 <= r < 8 -> 0 <= c < 8 -> in_class r c r' c' = false ->
     wget (tc w r c u) r' c' = wget w r' c') ->
  wf_weights w ->
  (forall r c, 0 <= r < 8 -> 0 <= c < 8 -> get b r c = ai -> in_class r c r' c' = false) ->
  wget (fold_left (fun w r =>
    fold_left (fun w c => if get b r c =? ai then tc w r c u else w) range8 w) range8 w) r' c'
  = wget w r' c'.
Proof.
  intros Hwf Hfr Hw Hcls.
  apply (fold_left_inv (fun w' => wf_weights w' /\ wget w' r' c' = wget w r' c')
           _ range8 w); [|split; [assumption|reflexivity]].
  intros w1 r Hr [Hw1 E1]. apply in_range8 in Hr.
  apply (fold_left_inv (fun w' => wf_weights w' /\ wget w' r' c' = wget w r' c')
           _ range8 w1); [|split; assumption].
  intros w2 c Hc [Hw2 E2]. apply in_range8 in Hc.
  destruct (Z.eqb_spec (get b r c) ai) as [Ha|]; [|split; assumption].
  split; [apply Hwf; exact Hw2|]. rewrite Hfr; auto.
Qed.

Lemma train_frame b winner ai r' c' :
  0 <= r' < 8 -> 0 <= c' < 8 ->
  (forall r c, 0 <= r < 8 -> 0 <= c < 8 -> get b r c = ai -> in_class r c r' c' = false) ->
  (forall st, wf_weights (Worker.weights st) ->
     wget (Worker.weights (fst (Worker.train st b winner ai))) r' c' = wget (Worker.weights st) r' c') /\
  (forall st, wf_weights (V6.weights st) ->
     wget (V6.weights (fst (V6.train st b winner ai))) r' c' = wget (V6.weights st) r' c').
Proof.
  intros Hr' Hc' Hcls. split; intros st Hw.
  - unfold Worker.train. destruct (winner =? 0); [reflexivity|]. simpl.
    apply train_cells_frame; auto.
    + intros; apply wf_worker_train_cell; assumption.
    + intros; apply worker_train_cell_frame; auto.
  - unfold V6.train. destruct (winner =? 0); [reflexivity|]. simpl.
    apply train_cells_frame; auto.
    + intros; apply wf_v6_train_cell; assumption.
    + intros w r c Hw' Hr Hc Hn. rewrite v6_train_cell_spec by assumption. rewrite Hn. reflexivity.
Qed.

(* sort *)

Lemma insert_desc_sorted {A} (key : A -> Q) x l :
  Sorted (desc key) l -> Sorted (desc key) (Search.insert_desc key x l).
Proof.
  induction l as [|y l IH]; intros Hs; simpl; [repeat constructor|].
  destruct (Qle_bool (key x) (key y)) eqn:E; simpl.
  - apply Qle_bool_iff in E. apply Sorted_inv in Hs as [Hs Hh].
    constructor; [apply IH; exact Hs|].
    destruct l as [|z l]; simpl; [constructor; exact E|].
    destruct (Qle_bool (key x) (key z)); constructor; [inversion Hh; assumption|exact E].
  - apply Qle_bool_false_lt in E. constructor; [exact Hs|]. constructor. unfold desc. lra.
Qed.

Lemma insert_desc_perm {A} (key : A -> Q) x l : Permutation (Search.insert_desc key x l) (x :: l).
Proof.
  induction l as [|y l IH]; simpl; [reflexivity|].
  destruct (negb _); [reflexivity|]. rewrite IH. apply perm_swap.
Qed.

Lemma sort_desc_spec {A} (key : A -> Q) l :
  Sorted (desc key) (Search.sort_desc key l) /\ Permutation (Search.sort_desc key l) l.
Proof.
  unfold Search.sort_desc.
  assert (H : forall acc, Sorted (desc key) acc ->
    Sorted (desc key) (fold_left (fun acc x => Search.insert_desc key x acc) l acc) /\
    Permutation (fold_left (fun acc x => Search.insert_desc key x acc) l acc) (rev l ++ acc)).
  { induction l as [|x l IH]; intros acc Hs; simpl; [split; [exact Hs|reflexivity]|].
    destruct (IH (Search.insert_desc key x acc)) as [H1 H2]; [apply insert_desc_sorted; exact Hs|].
    split; [exact H1|]. rewrite H2, insert_desc_perm, <- app_assoc. reflexivity. }
  destruct (H [] ltac:(constructor)) as [H1 H2]. split; [exact H1|].
  rewrite H2, app_nil_r. symmetry. apply Permutation_rev.
Qed.

Lemma choose_in explore random moves n :
  moves <> [] -> (forall k, 0 <= random k < 1)%Q ->
  exists m n', SelfPlay.choose explore random moves n = (Some m, n') /\ In m moves.
Proof.
  intros Hne Hr. unfold SelfPlay.choose.
  destruct (negb _).
  - set (L := length (firstn 3 moves)).
    assert (HL : (1 <= L)%nat) by (destruct moves; [congruence|]; simpl; unfold L; simpl; lia).
    set (x := (random (S n) * inject_Z (Z.of_nat L))%Q).
    destruct (Hr (S n)) as [H0 H1].
    assert (Hx0 : (0 <= x)%Q).
    { unfold x. apply Qmult_le_0_compat; [exact H0|].
      change 0%Q with (inject_Z 0). rewrite <- Zle_Qle. lia. }
    assert (HxL : (x < inject_Z (Z.of_nat L))%Q).
    { unfold x. assert (HLq : (0 < inject_Z (Z.of_nat L))%Q) by (change 0%Q with (inject_Z 0); rewrite <- Zlt_Qlt; lia).
      rewrite <- (Qmult_1_l (inject_Z (Z.of_nat L))) at 2. apply Qmult_lt_compat_r; assumption. }
    assert (Hk0 : 0 <= Qfloor x).
    { pose proof (Qlt_floor x) as Hf. assert (Hf' : (0 < inject_Z (Qfloor x + 1))%Q) by lra.
      change 0%Q with (inject_Z 0) in Hf'. rewrite <- Zlt_Qlt in Hf'. lia. }
    assert (HkL : Qfloor x < Z.of_nat L).
    { pose proof (Qfloor_le x) as Hf. assert (Hf' : (inject_Z (Qfloor x) < inject_Z (Z.of_nat L))%Q) by lra.
      rewrite <- Zlt_Qlt in Hf'. exact Hf'. }
    fold x L. rewrite (proj2 (Z.ltb_ge _ _) Hk0).
    destruct (nth_error (firstn 3 moves) (Z.to_nat (Qfloor x))) as [m|] eqn:E.
    + exists m, (S (S n)). split; [reflexivity|].
      apply nth_error_In in E. rewrite <- (firstn_skipn 3 moves). apply in_or_app. left. exact E.
    + apply nth_error_None in E. fold L in E. lia.
  - destruct moves as [|m ms]; [congruence|]. exists m, (S n). split; [reflexivity|left; reflexivity].
Qed.

Lemma game_loop_ends explore weights random fuel b cur pc n :
  wf_board b -> (cur = 1 \/ cur = 2) -> (pc = 0 \/ pc = 1) ->
  (forall k, 0 <= random k < 1)%Q ->
  (pc = 1 -> getValidMoves b (3 - cur) = []) ->
  (2 * countEmpty b + 2 <= fuel + Z.to_nat pc)%nat ->
  exists b', SelfPlay.game_loop explore weights random fuel b cur pc n = SelfPlay.Finished b' /\
    getValidMoves b' 1 = [] /\ getValidMoves b' 2 = [].
Proof.
  revert b cur pc n. induction fuel as [|f IH]; intros b cur pc n Hb Hcur Hpc Hr Hprev Hfuel.
  - exfalso. destruct Hpc as [->| ->]; simpl in Hfuel; lia.
  - simpl. destruct (getValidMoves b cur) as [|m0 ms] eqn:E.
    + destruct Hpc as [->| ->].
      * simpl. apply IH; auto; [lia| |simpl; lia].
        intros _. replace (3 - (3 - cur)) with cur by lia. exact E.
      * simpl. exists b. split; [reflexivity|].
        specialize (Hprev eq_refl). destruct Hcur as [->| ->]; simpl in Hprev; auto.
    + set (moves := m0 :: ms) in *.
      destruct (choose_in explore random (Search.sort_desc (fun m => wget weights m.1 m.2) moves) n)
        as (m & n' & Hc & Hin); [|exact Hr|].
      { intros Hs. pose proof (proj2 (sort_desc_in (fun m => wget weights m.1 m.2) moves m0) ltac:(left; reflexivity)) as H.
        rewrite Hs in H. destruct H. }
      rewrite Hc.
      apply sort_desc_in in Hin. fold moves in E. rewrite <- E in Hin.
      pose proof (execute_countEmpty b cur m.1 m.2 Hb Hcur) as Hce. destruct m as [r c]. simpl in *.
      specialize (Hce Hin).
      apply IH; auto.
      * apply wf_execute; exact Hb.
      * lia.
      * intros; discriminate.
      * simpl. destruct Hpc as [->| ->]; simpl in Hfuel; lia.
Qed.

Lemma wf_v6_train st b winner ai :
  wf_weights (V6.weights st) -> wf_weights (V6.weights (fst (V6.train st b winner ai))).
Proof.
  intros Hw. unfold V6.train. destruct (winner =? 0); [exact Hw|]. simpl. unfold V6.train_cells.
  apply (fold_left_inv wf_weights); [|exact Hw]. intros w r _ Hw'.
  apply (fold_left_inv wf_weights); [|exact Hw']. intros w' c _ Hw''.
  destruct (get b r c =? ai); [apply wf_v6_train_cell|]; exact Hw''.
Qed.

Lemma v6_trains_sym (games : list (Board * Z * Z)) n :
  mirror_symmetric (V6.weights (fold_left (fun st g => fst (V6.train st g.1.1 g.1.2 g.2))
    games (V6.mkAI V6.defaultWeights n))).
Proof.
  apply (fold_left_inv (fun st => wf_weights (V6.weights st) /\ mirror_symmetric (V6.weights st))).
  - intros st g _ [Hw Hs]. split; [apply wf_v6_train|apply v6_train_sym]; assumption.
  - split; [split; [reflexivity|repeat constructor]|exact v6_default_sym].
Qed.

End GameFacts.

(** ** More of ai_core.js: indices, [simulateMove], symmetries *)
Module CoreMoreFacts.
Import JS Core Views CoreSym.
Import CoreFacts CoreFlipFacts CoreTrainFacts.

(* X1: index bound *)
Lemma index_loop_bound tuple map board index power :
  (index < power)%nat ->
  (index_loop tuple map board index power < power * 3 ^ length tuple)%nat.
Proof.
  revert index power. induction tuple as [|x ts IH]; intros index power H; simpl; [lia|].
  assert (Hv : (cellVal (nth (nth x map 0%nat) board 0%Z) <= 2)%nat)
    by (unfold cellVal; repeat destruct (_ =? _); lia).
  eapply Nat.lt_le_trans; [apply IH; nia|]. nia.
Qed.

Lemma tupleIndex_bound tuple map board : (tupleIndex tuple map board < 3 ^ length tuple)%nat.
Proof. unfold tupleIndex. pose proof (index_loop_bound tuple map board 0 1). lia. Qed.

(* X4 sorted legal moves *)
Lemma StronglySorted_filter {A} (R : A -> A -> Prop) (f : A -> bool) l :
  StronglySorted R l -> StronglySorted R (List.filter f l).
Proof.
  induction l as [|a l IH]; intros H; simpl; [constructor|].
  apply StronglySorted_inv in H as [H1 H2].
  destruct (f a); [|apply IH; exact H1].
  constructor; [apply IH; exact H1|].
  rewrite List.Forall_forall in *. intros x Hx. apply filter_In in Hx. apply H2. tauto.
Qed.

Lemma seq_sorted a n : StronglySorted Z.lt (map Z.of_nat (seq a n)).
Proof.
  revert a. induction n as [|n IH]; intros a; simpl; constructor; [apply IH|].
  rewrite List.Forall_forall. intros x Hx. apply in_map_iff in Hx as (y & <- & Hy).
  apply in_seq in Hy. lia.
Qed.

Lemma getLegalMoves_sorted b t : StronglySorted Z.lt (getLegalMoves b t).
Proof. apply StronglySorted_filter, seq_sorted. Qed.

(* X5 simulateMove frame *)
Lemma fold_insert_notin t fl nb x :
  0 <= x -> Forall (fun y => 0 <= y) fl -> ~ In x fl ->
  cell (fold_left (fun b f => <[Z.to_nat f := t]> b) fl nb) x = cell nb x.
Proof.
  revert nb. induction fl as [|f fl IH]; intros nb Hx Hfl Hn; [reflexivity|].
  apply Forall_cons in Hfl as [Hf Hfl]. cbn [fold_left].
  rewrite IH by (auto; intro; apply Hn; right; assumption).
  apply cell_insert_ne; [exact Hf|exact Hx|]. intros ->. apply Hn. left. reflexivity.
Qed.

Lemma fold_insert_frame t fl nb x :
  0 <= x -> Forall (fun y => 0 <= y /\ cell nb y = - t) fl ->
  sim_frame t nb (fold_left (fun b f => <[Z.to_nat f := t]> b) fl nb) x.
Proof.
  intros Hx Hfl. unfold sim_frame.
  destruct (in_dec Z.eq_dec x fl) as [Hin|Hn].
  - rewrite List.Forall_forall in Hfl. destruct (Hfl x Hin) as [_ Ho].
    destruct (fold_insert_only t fl nb x) as [H|H]; [left; exact H|right; split; assumption].
  - left. apply fold_insert_notin; [exact Hx| |exact Hn].
    eapply Forall_impl; [exact Hfl|]. intros y [? ?]; assumption.
Qed.

Lemma sim_loop_frame fuel nb nr nc dr dc t fl x :
  0 <= x -> Forall (fun y => 0 <= y /\ cell nb y = - t) fl ->
  sim_frame t nb (sim_loop fuel nb nr nc dr dc t fl) x.
Proof.
  revert nr nc fl. induction fuel as [|fuel IH]; intros nr nc fl Hx Hfl; cbn [sim_loop];
    [left; reflexivity|].
  destruct (in_board nr nc) eqn:Hin; cbv zeta; [|left; reflexivity].
  destruct (Z.eqb_spec (cell nb (nr * 8 + nc)) (- t)) as [Ho|Ho].
  - apply IH; [exact Hx|]. apply Forall_app. split; [exact Hfl|].
    constructor; [|constructor]. apply core_in_board_spec in Hin. split; [lia|exact Ho].
  - destruct (cell nb (nr * 8 + nc) =? t); [apply fold_insert_frame; assumption|left; reflexivity].
Qed.

Lemma length_sim_loop fuel nb nr nc dr dc t fl :
  length (sim_loop fuel nb nr nc dr dc t fl) = length nb.
Proof.
  revert nr nc fl. induction fuel as [|fuel IH]; intros nr nc fl; cbn [sim_loop]; [reflexivity|].
  destruct (in_board nr nc); cbv zeta; [|reflexivity].
  destruct (_ =? - t); [apply IH|]. destruct (_ =? t); [|reflexivity].
  clear IH. revert nb. induction fl as [|f fl IH]; intros nb; [reflexivity|].
  cbn [fold_left]. rewrite IH, length_insert. reflexivity.
Qed.

Lemma simulateMove_frame b m t :
  t <> 0 -> 0 <= m ->
  length (simulateMove b m t) = length b /\
  forall j, 0 <= j -> j <> m ->
    cell (simulateMove b m t) j = cell b j \/
    (cell b j = - t /\ cell (simulateMove b m t) j = t).
Proof.
  intros Ht Hm. unfold simulateMove. cbv zeta.
  assert (H : forall ds nb,
    length nb = length b ->
    (forall j, 0 <= j -> j <> m -> sim_frame t b nb j) ->
    length (fold_left (sim_step (m / 8) (m mod 8) t) ds nb) = length b /\
    (forall j, 0 <= j -> j <> m -> sim_frame t b (fold_left (sim_step (m / 8) (m mod 8) t) ds nb) j)).
  { induction ds as [|d ds IH]; intros nb Hl Hf; [split; assumption|].
    cbn [fold_left]. apply IH.
    - unfold sim_step. rewrite length_sim_loop. exact Hl.
    - intros j Hj Hjm.
      destruct (sim_loop_frame 8 nb (m / 8 + d.1) (m mod 8 + d.2) d.1 d.2 t [] j Hj ltac:(constructor))
        as [E|[E1 E2]]; unfold sim_frame; fold (sim_step (m / 8) (m mod 8) t nb d) in *.
      + rewrite E. apply Hf; assumption.
      + destruct (Hf j Hj Hjm) as [F|[F1 F2]].
        * right. split; [congruence|exact E2].
        * lia. }
  apply H.
  - apply length_insert.
  - intros j Hj Hjm. left. apply cell_insert_ne; [exact Hm|exact Hj|congruence].
Qed.

Lemma symmetryMaps_perm s : (s < 8)%nat -> Permutation (nth s symmetryMaps []) (seq 0 64).
Proof.
  intros Hs.
  do 8 (destruct s as [|s]; [apply (bool_decide_unpack _); vm_compute; reflexivity|]). lia.
Qed.

Lemma sym_comp_check :
  forallb (fun g => forallb (fun s =>
    forallb (fun x => Nat.ltb (nth x (nth s symmetryMaps []) 0%nat) 64 &&
                      Nat.eqb (nth (nth x (nth s symmetryMaps []) 0%nat) (nth g symmetryMaps []) 0%nat)
                              (nth x (nth (sym_comp g s) symmetryMaps []) 0%nat)) (seq 0 64))
    (seq 0 8)) (seq 0 8) = true.
Proof. vm_compute. reflexivity. Qed.

Lemma sym_comp_spec g s x :
  (g < 8)%nat -> (s < 8)%nat -> (x < 64)%nat ->
  (nth x (nth s symmetryMaps []) 0%nat < 64)%nat /\
  nth (nth x (nth s symmetryMaps []) 0%nat) (nth g symmetryMaps []) 0%nat =
  nth x (nth (sym_comp g s) symmetryMaps []) 0%nat.
Proof.
  intros Hg Hs Hx. pose proof sym_comp_check as H.
  rewrite forallb_forall in H. specialize (H g (proj2 (in_seq 8 0 g) ltac:(lia))).
  rewrite forallb_forall in H. specialize (H s (proj2 (in_seq 8 0 s) ltac:(lia))).
  rewrite forallb_forall in H. specialize (H x (proj2 (in_seq 64 0 x) ltac:(lia))).
  apply andb_true_iff in H as [H1 H2]. apply Nat.ltb_lt in H1. apply Nat.eqb_eq in H2. auto.
Qed.

Lemma sym_comp_perm g : (g < 8)%nat -> Permutation (map (sym_comp g) (seq 0 8)) (seq 0 8).
Proof.
  intros Hg.
  do 8 (destruct g as [|g]; [apply (bool_decide_unpack _); vm_compute; reflexivity|]). lia.
Qed.

Lemma rawTuples_range : Forall (fun tuple => Forall (fun x => x < 64)%nat tuple) rawTuples.
Proof. repeat constructor; cbv; lia. Qed.

Lemma index_loop_ext tuple m1 m2 b1 b2 index power :
  (forall x, In x tuple -> nth (nth x m1 0%nat) b1 0 = nth (nth x m2 0%nat) b2 0) ->
  index_loop tuple m1 b1 index power = index_loop tuple m2 b2 index power.
Proof.
  revert index power. induction tuple as [|x ts IH]; intros index power H; simpl; [reflexivity|].
  rewrite H by (left; reflexivity). apply IH. intros y Hy. apply H. right. exact Hy.
Qed.

Lemma nth_map_seq {A} (f : nat -> A) (d : A) j n : (j < n)%nat -> nth j (map f (seq 0 n)) d = f j.
Proof.
  intros Hj. rewrite (nth_indep _ d (f 0%nat)) by (rewrite length_map, length_seq; exact Hj).
  rewrite map_nth, seq_nth by exact Hj. reflexivity.
Qed.

Lemma transform_nth g b j : (j < 64)%nat ->
  nth j (transform g b) 0 = nth (nth j (nth g symmetryMaps []) 0%nat) b 0.
Proof. intros Hj. unfold transform. apply (nth_map_seq (fun i => nth (nth i (nth g symmetryMaps []) 0%nat) b 0)). exact Hj. Qed.

Lemma fold_left_ext_in {A B} (f g : A -> B -> A) l a :
  (forall a x, In x l -> f a x = g a x) -> fold_left f l a = fold_left g l a.
Proof.
  revert a. induction l as [|x l IH]; intros a H; simpl; [reflexivity|].
  rewrite H by (left; reflexivity). apply IH. intros; apply H; right; assumption.
Qed.

Lemma tupleIndex_transform tuple g s b :
  (g < 8)%nat -> (s < 8)%nat -> Forall (fun x => x < 64)%nat tuple ->
  tupleIndex tuple (nth s symmetryMaps []) (transform g b) =
  tupleIndex tuple (nth (sym_comp g s) symmetryMaps []) b.
Proof.
  intros Hg Hs Ht. unfold tupleIndex. apply index_loop_ext.
  intros x Hx. rewrite List.Forall_forall in Ht. specialize (Ht x Hx).
  destruct (sym_comp_spec g s x Hg Hs Ht) as [H1 H2].
  rewrite transform_nth by exact H1. rewrite H2. reflexivity.
Qed.

Lemma fold_left_perm_comm {A B} (f : A -> B -> A) l l' a :
  (forall a x y, f (f a x) y = f (f a y) x) -> Permutation l l' -> fold_left f l a = fold_left f l' a.
Proof.
  intros Hc Hp. revert a. induction Hp as [|x l l' Hp IH|x y l|l l' l'' H1 IH1 H2 IH2]; intros a; simpl.
  - reflexivity.
  - apply IH.
  - rewrite Hc. reflexivity.
  - rewrite IH1. apply IH2.
Qed.

Lemma add_entry_comm W t i j d :
  add_entry (add_entry W t i d) t j d = add_entry (add_entry W t j d) t i d.
Proof.
  unfold add_entry.
  destruct (Nat.lt_ge_cases t (length W)) as [Ht|Ht].
  - rewrite !(nth_lookup _ t).
    rewrite (list_lookup_insert_eq W t) by exact Ht.
    rewrite (list_lookup_insert_eq W t) by exact Ht.
    cbn [default id].
    set (T := default [] (W !! t)).
    rewrite !list_insert_insert_eq. f_equal.
    destruct (Nat.eq_dec i j) as [->|Hij]; [reflexivity|].
    rewrite !nth_lookup.
    rewrite (list_lookup_insert_ne T i j) by lia. rewrite (list_lookup_insert_ne T j i) by lia.
    apply list_insert_insert_ne. lia.
  - rewrite !(list_insert_ge W) by exact Ht. reflexivity.
Qed.

Lemma updateWeights_transform w b err g :
  (g < 8)%nat -> updateWeights w (transform g b) err = updateWeights w b err.
Proof.
  intros Hg. unfold updateWeights. cbv zeta.
  apply fold_left_ext_in. intros W t Ht'.
  assert (Ht : Forall (fun x => x < 64)%nat (nth t rawTuples [])).
  { destruct (Nat.lt_ge_cases t (length rawTuples)) as [Hlt|Hge].
    - pose proof rawTuples_range as R. rewrite List.Forall_forall in R. apply R. apply nth_In. exact Hlt.
    - rewrite nth_overflow by exact Hge. constructor. }
  rewrite (fold_left_ext_in _ (fun W s => (fun W s => add_entry W t (tupleIndex (nth t rawTuples [])
              (nth s symmetryMaps []) b) (err * learningRate)%Q) W (sym_comp g s))).
  2:{ intros W' s Hs. apply in_seq in Hs. rewrite tupleIndex_transform by (assumption || lia). reflexivity. }
  rewrite <- (fold_left_map_fn (fun W s => add_entry W t (tupleIndex (nth t rawTuples [])
              (nth s symmetryMaps []) b) (err * learningRate)%Q) (sym_comp g)).
  apply fold_left_perm_comm; [intros; apply add_entry_comm|apply sym_comp_perm; exact Hg].
Qed.

End CoreMoreFacts.

(** ** More of FastOthello and [trainLoop] *)
Module FastMoreFacts.
Import JS Fast FastGame Views.
Import FastFacts CoreFacts CoreMoveFacts CoreFlipFacts GameFacts CoreMoreFacts.

(* frame of makeMove *)

Lemma rd_nonneg b i v : rd b i = Some v -> 0 <= i.
Proof. unfold rd. destruct (Z.ltb_spec i 0); [discriminate|lia]. Qed.

Lemma rd_insert_ne b i j v : 0 <= i -> i <> j -> rd (<[Z.to_nat i := v]> b) j = rd b j.
Proof.
  intros Hi Hne. unfold rd. destruct (Z.ltb_spec j 0); [reflexivity|].
  apply list_lookup_insert_ne. lia.
Qed.

Lemma rd_fold_insert_notin t fl b i :
  Forall (fun y => 0 <= y) fl -> ~ In i fl ->
  rd (fold_left (fun b f => <[Z.to_nat f := t]> b) fl b) i = rd b i.
Proof.
  revert b. induction fl as [|f fl IH]; intros b Hfl Hn; [reflexivity|].
  apply Forall_cons in Hfl as [Hf Hfl]. cbn [fold_left].
  rewrite IH by (auto; intro; apply Hn; right; assumption).
  apply rd_insert_ne; [exact Hf|]. intros ->. apply Hn. left. reflexivity.
Qed.

Lemma rd_fold_insert_frame t fl b i :
  Forall (fun y => rd b y = Some (- t)) fl ->
  rd_frame t b (fold_left (fun b f => <[Z.to_nat f := t]> b) fl b) i.
Proof.
  intros Hfl. unfold rd_frame.
  destruct (in_dec Z.eq_dec i fl) as [Hin|Hn].
  - rewrite List.Forall_forall in Hfl. pose proof (Hfl i Hin) as Ho.
    destruct (rd_fold_insert t fl b i) as [H|H]; [left; exact H|right; split; assumption].
  - left. apply rd_fold_insert_notin; [|exact Hn].
    eapply Forall_impl; [exact Hfl|]. intros y Hy. exact (rd_nonneg _ _ _ Hy).
Qed.

Lemma collect_loop_spec fuel b curr dir o fl :
  exists ys, (collect_loop fuel b curr dir o fl).1 = fl ++ ys /\
             Forall (fun y => rd b y = Some o) ys.
Proof.
  revert curr fl. induction fuel as [|f IH]; intros curr fl; simpl.
  - exists []. rewrite app_nil_r. split; [reflexivity|constructor].
  - destruct (is b curr o) eqn:E.
    + destruct (IH (curr + dir) (fl ++ [curr])) as (ys & H1 & H2).
      exists (curr :: ys). rewrite H1, <- app_assoc. split; [reflexivity|].
      constructor; [|exact H2]. unfold is in E. exact (bool_decide_eq_true_1 _ E).
    + exists []. rewrite app_nil_r. split; [reflexivity|constructor].
Qed.

Lemma rd_frame_refl t b i : rd_frame t b b i.
Proof. left. reflexivity. Qed.

Lemma rd_frame_trans t b1 b2 b3 i :
  rd_frame t b1 b2 i -> rd_frame t b2 b3 i -> rd_frame t b1 b3 i.
Proof.
  unfold rd_frame. intros [H|[H H']] [G|[G G']].
  - left. congruence.
  - right. split; congruence.
  - right. split; congruence.
  - right. split; congruence.
Qed.

Lemma flip_dir_frame t idx b dir i : rd_frame t b (flip_dir t idx b dir) i.
Proof.
  unfold flip_dir. cbv zeta.
  destruct (is b (idx + dir) (- t)); [|apply rd_frame_refl].
  destruct (collect_loop_spec 10 b (idx + dir) dir (- t) []) as (ys & H1 & H2).
  destruct (collect_loop 10 b (idx + dir) dir (- t) []) as [fl c]. simpl in H1. subst fl.
  destruct (is b c t); [|apply rd_frame_refl].
  apply rd_fold_insert_frame. exact H2.
Qed.

Lemma fold_flip_frame t idx dirs b i : rd_frame t b (fold_left (flip_dir t idx) dirs b) i.
Proof.
  revert b. induction dirs as [|d dirs IH]; intros b; [apply rd_frame_refl|].
  simpl. eapply rd_frame_trans; [apply flip_dir_frame|apply IH].
Qed.

Lemma length_fold_flip t idx dirs b : length (fold_left (flip_dir t idx) dirs b) = length b.
Proof.
  revert b. induction dirs as [|d dirs IH]; intros b; [reflexivity|].
  simpl. rewrite IH. unfold flip_dir. cbv zeta.
  destruct (is b (idx + d) (- t)); [|reflexivity].
  destruct (collect_loop 10 b (idx + d) d (- t) []) as [fl c].
  destruct (is b c t); [|reflexivity].
  clear. revert b. induction fl as [|f fl IH]; intros b; [reflexivity|].
  simpl. rewrite IH. apply length_insert.
Qed.

Lemma makeMove_frame_thm g idx :
  0 <= idx ->
  length (board (makeMove g idx)) = length (board g) /\
  forall i, i <> idx -> rd_frame (turn g) (board g) (board (makeMove g idx)) i.
Proof.
  intros Hi. unfold makeMove. fold directions.
  destruct (Z.eqb_spec idx (-1)); [lia|]. cbn [board]. split.
  - rewrite length_fold_flip. apply length_insert.
  - intros i Hne. eapply rd_frame_trans; [|apply fold_flip_frame].
    left. apply rd_insert_ne; [exact Hi|congruence].
Qed.

Lemma forall_below_100 (P : Z -> Prop) (f : Z -> bool) :
  (forall i, f i = true -> P i) ->
  forallb (fun n => f (Z.of_nat n)) (seq 0 100) = true ->
  forall i, 0 <= i < 100 -> P i.
Proof.
  intros Hf Hb i Hi. apply Hf. rewrite forallb_forall in Hb.
  replace i with (Z.of_nat (Z.to_nat i)) by lia. apply Hb.
  apply in_seq. lia.
Qed.

Lemma reset_ok : fast_ok reset.
Proof.
  split; [reflexivity|]. split; [left; reflexivity|].
  apply (forall_below_100 _ (fun i => if interior i then is reset_board i (-1) || is reset_board i 0 || is reset_board i 1
                                      else is reset_board i 2)).
  - intros i. unfold is. simpl board. destruct (interior i).
    + rewrite !orb_true_iff. intros [[H|H]|H]; apply bool_decide_eq_true_1 in H; tauto.
    + apply bool_decide_eq_true_1.
  - vm_compute. reflexivity.
Qed.

Lemma is_rd b i v : is b i v = true <-> rd b i = Some v.
Proof. unfold is. apply bool_decide_eq_true. Qed.

Lemma makeMove_ok g idx :
  fast_ok g -> (idx = -1 \/ In idx (getLegalMoves g)) -> fast_ok (makeMove g idx).
Proof.
  intros (Hl & Ht & Hc) [->|Hin].
  - unfold makeMove. simpl. split; [exact Hl|]. split; [|exact Hc]. destruct Ht as [-> | ->]; [right|left]; reflexivity.
  - pose proof (in_getLegalMoves g idx Hin) as [Hr H0]. apply is_rd in H0.
    destruct (makeMove_frame_thm g idx ltac:(lia)) as [Hl' Hf].
    split; [lia|]. split; [unfold makeMove; destruct (Z.eqb_spec idx (-1)); simpl; lia|].
    intros i Hi. destruct (Z.eq_dec i idx) as [->|Hne].
    + pose proof (Hc idx Hi) as Hci. destruct (interior idx); [|congruence].

      unfold makeMove. destruct (Z.eqb_spec idx (-1)); [lia|]. cbn [board].
      destruct (rd_fold_flip (turn g) idx directions (<[Z.to_nat idx := turn g]> (board g)) idx) as [E|E];
        rewrite E; [rewrite rd_insert_eq by lia|]; destruct Ht as [Ht|Ht]; rewrite Ht; auto.
    + pose proof (Hc i Hi) as Hci. destruct (Hf i Hne) as [E|[E1 E2]].
      * rewrite E. exact Hci.
      * rewrite E2. destruct (interior i).
        -- destruct Ht as [Ht|Ht]; rewrite Ht; auto.
        -- rewrite Hci in E1. injection E1. destruct Ht as [Ht|Ht]; rewrite Ht; lia.
Qed.

Lemma skip_loop_spec fuel b curr dir v w :
  v <> w ->
  is b (skip_loop fuel b curr dir v) w = true <->
  exists k : nat, (k <= fuel)%nat /\
    (forall i : nat, (i < k)%nat -> rd b (curr + Z.of_nat i * dir) = Some v) /\
    rd b (curr + Z.of_nat k * dir) = Some w.
Proof.
  intros Hvw. revert curr. induction fuel as [|f IH]; intros curr; simpl.
  - rewrite is_rd. split.
    + intros H. exists 0%nat. split; [lia|]. split; [intros; lia|]. rewrite Z.add_0_r. exact H.
    + intros (k & Hk & _ & H). assert (k = 0%nat) by lia. subst k. rewrite Z.add_0_r in H. exact H.
  - destruct (is b curr v) eqn:E.
    + apply is_rd in E. rewrite IH. split.
      * intros (k & Hk & Hall & H). exists (S k). split; [lia|]. split.
        -- intros [|i] Hi; [rewrite Z.add_0_r; exact E|].
           rewrite <- (Hall i) by lia. f_equal. lia.
        -- rewrite <- H. f_equal. lia.
      * intros (k & Hk & Hall & H). destruct k as [|k].
        -- rewrite Z.add_0_r in H. congruence.
        -- exists k. split; [lia|]. split.
           ++ intros i Hi. rewrite <- (Hall (S i)) by lia. f_equal. lia.
           ++ rewrite <- H. f_equal. lia.
    + rewrite is_rd. split.
      * intros H. exists 0%nat. split; [lia|]. split; [intros; lia|]. rewrite Z.add_0_r. exact H.
      * intros (k & Hk & Hall & H). destruct k as [|k].
        -- rewrite Z.add_0_r in H. exact H.
        -- specialize (Hall 0%nat ltac:(lia)). rewrite Z.add_0_r in Hall.
           apply is_rd in Hall. congruence.
Qed.

Lemma hits_spec b idx dir t :
  t <> 0 ->
  hits b idx dir t = true <->
  exists k : nat, (1 <= k <= 10)%nat /\
    (forall i : nat, (1 <= i <= k)%nat -> rd b (idx + Z.of_nat i * dir) = Some (- t)) /\
    rd b (idx + Z.of_nat (S k) * dir) = Some t.
Proof.
  intros Ht. unfold hits. cbv zeta. destruct (is b (idx + dir) (- t)) eqn:E.
  - apply is_rd in E. rewrite skip_loop_spec by lia. split.
    + intros (k & Hk & Hall & H). destruct k as [|k].
      { rewrite Z.add_0_r in H. rewrite H in E. injection E. lia. }
      exists (S k). split; [lia|]. split.
      * intros [|i] Hi; [lia|]. rewrite <- (Hall i) by lia. f_equal. lia.
      * rewrite <- H. f_equal. lia.
    + intros (k & Hk & Hall & H). exists k. split; [lia|]. split.
      * intros i Hi. rewrite <- (Hall (S i)) by lia. f_equal. lia.
      * rewrite <- H. f_equal. lia.
  - split; [discriminate|]. intros (k & Hk & Hall & H).
    specialize (Hall 1%nat ltac:(lia)). replace (idx + Z.of_nat 1 * dir) with (idx + dir) in Hall by lia.
    apply is_rd in Hall. congruence.
Qed.

Lemma flat_layout g :
  getFlatBoard64 g =
  map (fun i => nth (Z.to_nat (pos (i / 8) (i mod 8))) (board g) 0) (map Z.of_nat (seq 0 64)).
Proof. reflexivity. Qed.

Lemma nth_map_seq64 (F : Z -> Z) i :
  0 <= i < 64 -> nth (Z.to_nat i) (map F (map Z.of_nat (seq 0 64))) 0 = F i.
Proof.
  intros Hi. rewrite (nth_indep _ _ (F 0)) by (rewrite !length_map, length_seq; lia).
  rewrite map_nth, (nth_indep _ _ (Z.of_nat 0)) by (rewrite length_map, length_seq; lia).
  rewrite map_nth, seq_nth by lia. f_equal. lia.
Qed.

Lemma div8 R C : 0 <= C < 8 -> (R * 8 + C) / 8 = R.
Proof. intros. symmetry. apply (Z.div_unique _ _ _ C); lia. Qed.

Lemma mod8 R C : 0 <= C < 8 -> (R * 8 + C) mod 8 = C.
Proof. intros. symmetry. apply (Z.mod_unique _ _ R); lia. Qed.

Lemma flat_cell g R C :
  0 <= R < 8 -> 0 <= C < 8 ->
  Core.cell (getFlatBoard64 g) (R * 8 + C) = nth (Z.to_nat (pos R C)) (board g) 0.
Proof.
  intros HR HC. rewrite flat_layout. unfold Core.cell. rewrite nth_map_seq64 by lia.
  rewrite div8, mod8 by lia. reflexivity.
Qed.

Lemma rd_nth b i : 0 <= i -> (Z.to_nat i < length b)%nat -> rd b i = Some (nth (Z.to_nat i) b 0).
Proof.
  intros H0 Hl. unfold rd. destruct (Z.ltb_spec i 0); [lia|].
  destruct (lookup_lt_is_Some_2 b (Z.to_nat i) Hl) as [x Hx]. rewrite Hx.
  f_equal. symmetry. apply nth_lookup_Some. exact Hx.
Qed.

Lemma pos_div R C : -1 <= C <= 8 -> pos R C / 10 = R + 1.
Proof. intros. unfold pos. symmetry. apply (Z.div_unique _ _ _ (C + 1)); lia. Qed.

Lemma pos_mod R C : -1 <= C <= 8 -> pos R C mod 10 = C + 1.
Proof. intros. unfold pos. symmetry. apply (Z.mod_unique _ _ (R + 1)); lia. Qed.

Lemma interior_pos R C :
  -1 <= R <= 8 -> -1 <= C <= 8 -> interior (pos R C) = Core.in_board R C.
Proof.
  intros HR HC. unfold interior. rewrite pos_div, pos_mod by lia.
  unfold Core.in_board.
  destruct (Z.leb_spec 1 (R + 1)), (Z.leb_spec (R + 1) 8), (Z.leb_spec 1 (C + 1)), (Z.leb_spec (C + 1) 8),
    (Z.leb_spec 0 R), (Z.ltb_spec R 8), (Z.leb_spec 0 C), (Z.ltb_spec C 8); simpl; reflexivity || lia.
Qed.

Lemma rd_pos_in g R C :
  fast_ok g -> Core.in_board R C = true ->
  rd (board g) (pos R C) = Some (Core.cell (getFlatBoard64 g) (R * 8 + C)).
Proof.
  intros (Hl & _ & _) Hin. apply core_in_board_spec in Hin.
  rewrite flat_cell by lia. apply rd_nth; unfold pos; lia.
Qed.

Lemma rd_pos_wall g R C :
  fast_ok g -> -1 <= R <= 8 -> -1 <= C <= 8 -> Core.in_board R C = false ->
  rd (board g) (pos R C) = Some 2.
Proof.
  intros (_ & _ & Hc) HR HC Hin.
  assert (Hp : 0 <= pos R C < 100) by (unfold pos; lia).
  specialize (Hc _ Hp). rewrite interior_pos, Hin in Hc by lia. exact Hc.
Qed.

Lemma dirs_bounds d : In d Core.dirs -> -1 <= d.1 <= 1 /\ -1 <= d.2 <= 1.
Proof. rewrite in_dirs. intros H. repeat destruct H as [->|H]; subst; simpl; lia. Qed.

Lemma pos_walk r c d1 d2 (i : nat) :
  pos r c + Z.of_nat i * (10 * d1 + d2) = pos (r + Z.of_nat i * d1) (c + Z.of_nat i * d2).
Proof. unfold pos. ring. Qed.

Lemma hits_flanks g r c d :
  fast_ok g -> 0 <= r < 8 -> 0 <= c < 8 -> In d Core.dirs ->
  hits (board g) (pos r c) (10 * d.1 + d.2) (turn g) = true <->
  Core.flanks (getFlatBoard64 g) r c d.1 d.2 (turn g).
Proof.
  intros Hok Hr Hc Hd. pose proof Hok as (Hl & Ht & _).
  pose proof (dirs_bounds d Hd) as Hb.
  rewrite hits_spec by lia. unfold Core.flanks. split.
  - intros (k & Hk & Hall & H).
    assert (IB : forall i : nat, (i <= S k)%nat ->
              Core.in_board (r + Z.of_nat i * d.1) (c + Z.of_nat i * d.2) = true).
    { induction i as [|i IH]; intros Hi.
      - apply core_in_board_spec. lia.
      - specialize (IH ltac:(lia)). apply core_in_board_spec in IH.
        destruct (Core.in_board (r + Z.of_nat (S i) * d.1) (c + Z.of_nat (S i) * d.2)) eqn:E;
          [reflexivity|].
        assert (Hs : forall x, Z.of_nat (S i) * x = Z.of_nat i * x + x)
          by (intros; rewrite Nat2Z.inj_succ; ring).
        apply (rd_pos_wall g) in E; [|exact Hok|rewrite Hs; lia|rewrite Hs; lia].
        rewrite <- pos_walk in E.
        assert (Hv : rd (board g) (pos r c + Z.of_nat (S i) * (10 * d.1 + d.2)) = Some (- turn g) \/
                     rd (board g) (pos r c + Z.of_nat (S i) * (10 * d.1 + d.2)) = Some (turn g)).
        { destruct (Nat.eq_dec i k) as [->|Hne]; [right; exact H|left; apply Hall; lia]. }
        rewrite E in Hv. destruct Hv as [Hv|Hv]; injection Hv; lia. }
    exists k. split; [lia|]. split; [|split].
    + intros i Hi. split; [apply IB; lia|].
      specialize (Hall i Hi). rewrite pos_walk, rd_pos_in in Hall by (exact Hok || apply IB; lia).
      injection Hall. auto.
    + apply IB. lia.
    + rewrite pos_walk, rd_pos_in in H by (exact Hok || apply IB; lia). injection H. auto.
  - intros (k & Hk & Hall & Hin & Hp).
    exists k. split.
    { split; [lia|]. apply core_in_board_spec in Hin.
      apply in_dirs in Hd. repeat destruct Hd as [->|Hd]; subst; simpl in Hin; lia. }
    split.
    + intros i Hi. destruct (Hall i Hi) as [Hi1 Hi2].
      rewrite pos_walk, rd_pos_in by assumption. rewrite Hi2. reflexivity.
    + rewrite pos_walk, rd_pos_in by assumption. rewrite Hp. reflexivity.
Qed.

Lemma map_filter_flat {A B} (h : A -> B) (P : A -> bool) l :
  map h (List.filter P l) = flat_map (fun a => if P a then [h a] else []) l.
Proof. induction l as [|a l IH]; simpl; [reflexivity|]. destruct (P a); simpl; rewrite IH; reflexivity. Qed.

Lemma flat_map_flat_map' {A B C} (f : B -> list C) (g : A -> list B) l :
  flat_map f (flat_map g l) = flat_map (fun x => flat_map f (g x)) l.
Proof. induction l as [|a l IH]; simpl; [reflexivity|]. rewrite flat_map_app, IH. reflexivity. Qed.

Lemma flat_map_map' {A B C} (f : B -> list C) (g : A -> B) l :
  flat_map f (map g l) = flat_map (fun x => f (g x)) l.
Proof. induction l as [|a l IH]; simpl; [reflexivity|]. rewrite IH. reflexivity. Qed.

Lemma flat_map_ext_in {A B} (f g : A -> list B) l :
  (forall x, In x l -> f x = g x) -> flat_map f l = flat_map g l.
Proof.
  induction l as [|a l IH]; intros H; simpl; [reflexivity|].
  rewrite H by (left; reflexivity). rewrite IH by (intros; apply H; right; assumption). reflexivity.
Qed.

Lemma existsb_ext_in {A} (f g : A -> bool) l :
  (forall x, In x l -> f x = g x) -> existsb f l = existsb g l.
Proof.
  induction l as [|a l IH]; intros H; simpl; [reflexivity|].
  rewrite H by (left; reflexivity). rewrite IH by (intros; apply H; right; assumption). reflexivity.
Qed.

Lemma existsb_map' {A B} (f : B -> bool) (g : A -> B) l :
  existsb f (map g l) = existsb (fun x => f (g x)) l.
Proof. induction l as [|a l IH]; simpl; [reflexivity|]. rewrite IH. reflexivity. Qed.

Lemma idx8to10_pos R C : 0 <= R -> 0 <= C < 8 -> idx8to10 (R * 8 + C) = pos R C.
Proof.
  intros HR HC. unfold idx8to10, pos. rewrite Z.rem_mod_nonneg by lia.
  rewrite div8, mod8 by lia. reflexivity.
Qed.

Lemma range8_in x : In x [0; 1; 2; 3; 4; 5; 6; 7] -> 0 <= x < 8.
Proof. simpl. intros H. repeat destruct H as [<-|H]; lia || contradiction. Qed.

Lemma canFlip_hits g r c :
  fast_ok g -> 0 <= r < 8 -> 0 <= c < 8 ->
  Core.canFlip (getFlatBoard64 g) (r * 8 + c) (turn g) =
  existsb (fun dir => hits (board g) (pos r c) dir (turn g)) directions.
Proof.
  intros Hok Hr Hc. pose proof Hok as (_ & Ht & _).
  unfold Core.canFlip. rewrite div8, mod8 by lia.
  change directions with (map (fun d : Z * Z => 10 * d.1 + d.2) Core.dirs).
  rewrite existsb_map'. apply existsb_ext_in. intros d Hd.
  apply Bool.eq_iff_eq_true. rewrite ray_flanks by (lia || exact Hd).
  rewrite hits_flanks by assumption. reflexivity.
Qed.

Lemma empty_is g r c :
  fast_ok g -> 0 <= r < 8 -> 0 <= c < 8 ->
  (Core.cell (getFlatBoard64 g) (r * 8 + c) =? 0) = is (board g) (pos r c) 0.
Proof.
  intros Hok Hr Hc. apply Bool.eq_iff_eq_true. rewrite Z.eqb_eq, is_rd.
  rewrite rd_pos_in by (exact Hok || apply core_in_board_spec; lia). split; [intros ->|intros H; injection H]; auto.
Qed.

Lemma fast_core_getLegalMoves g :
  fast_ok g ->
  Fast.getLegalMoves g = map idx8to10 (Core.getLegalMoves (getFlatBoard64 g) (turn g)).
Proof.
  intros Hok. unfold Core.getLegalMoves. rewrite map_filter_flat.
  change (map Z.of_nat (seq 0 64)) with
    (flat_map (fun r => map (fun c => r * 8 + c) [0; 1; 2; 3; 4; 5; 6; 7]) [0; 1; 2; 3; 4; 5; 6; 7]).
  rewrite flat_map_flat_map'. unfold Fast.getLegalMoves.
  change [1; 2; 3; 4; 5; 6; 7; 8] with (map (fun r => r + 1) [0; 1; 2; 3; 4; 5; 6; 7]).
  rewrite flat_map_map'. apply flat_map_ext_in. intros r Hr. apply range8_in in Hr.
  rewrite flat_map_map', flat_map_map'. apply flat_map_ext_in. intros c Hc. apply range8_in in Hc.
  rewrite idx8to10_pos by lia. rewrite empty_is, canFlip_hits by assumption.
  change ((r + 1) * 10 + (c + 1)) with (pos r c).
  destruct (is (board g) (pos r c) 0); reflexivity.
Qed.

Lemma aiMove10_legal w g :
  fast_ok g -> Fast.getLegalMoves g <> [] -> In (aiMove10 w g) (Fast.getLegalMoves g).
Proof.
  intros Hok Hne. rewrite fast_core_getLegalMoves in * by exact Hok.
  unfold aiMove10. apply in_map.
  pose proof (core_getBestMove_in w (getFlatBoard64 g) (turn g)) as H.
  destruct (Core.getLegalMoves (getFlatBoard64 g) (turn g)); [contradiction|]. apply H.
Qed.

(* makeMove vs simulateMove *)

Lemma flat_flatten g : getFlatBoard64 g = flatten (board g).
Proof. reflexivity. Qed.

Lemma lookup_map' {A B} (f : A -> B) (l : list A) i : map f l !! i = f <$> l !! i.
Proof. revert i. induction l as [|a l IH]; intros [|i]; simpl; try reflexivity. apply IH. Qed.

Lemma lookup_L64 n : map Z.of_nat (seq 0 64) !! n = if decide (n < 64)%nat then Some (Z.of_nat n) else None.
Proof.
  rewrite lookup_map'. destruct (decide (n < 64)%nat).
  - rewrite lookup_seq_lt by lia. reflexivity.
  - rewrite lookup_seq_ge by lia. reflexivity.
Qed.

Lemma p64_pos R C : 0 <= C < 8 -> p64 (R * 8 + C) = pos R C.
Proof. intros. unfold p64. rewrite div8, mod8 by lia. reflexivity. Qed.

Lemma p64_inj i j : 0 <= i < 64 -> 0 <= j < 64 -> p64 i = p64 j -> i = j.
Proof.
  intros Hi Hj. unfold p64, pos. intros H.
  rewrite (Z.div_mod i 8), (Z.div_mod j 8) by lia.
  pose proof (Z.mod_pos_bound i 8) as Hmi. pose proof (Z.mod_pos_bound j 8) as Hmj.
  lia.
Qed.

Lemma p64_range j : 0 <= j < 64 -> 11 <= p64 j <= 88.
Proof.
  intros Hj. unfold p64, pos.
  pose proof (Z.mod_pos_bound j 8) as Hm. pose proof (Z.div_pos j 8) as Hd.
  assert (j / 8 < 8) by (apply Z.div_lt_upper_bound; lia). lia.
Qed.

Lemma lookup_flatten b n :
  flatten b !! n = if decide (n < 64)%nat then Some (nth (Z.to_nat (p64 (Z.of_nat n))) b 0) else None.
Proof.
  unfold flatten. rewrite lookup_map'. rewrite lookup_L64.
  destruct (decide (n < 64)%nat); reflexivity.
Qed.

Lemma length_flatten b : length (flatten b) = 64%nat.
Proof. unfold flatten. rewrite !length_map, length_seq. reflexivity. Qed.

Lemma flatten_insert b j v :
  length b = 100%nat -> 0 <= j < 64 ->
  flatten (<[Z.to_nat (p64 j) := v]> b) = <[Z.to_nat j := v]> (flatten b).
Proof.
  intros Hl Hj. apply list_eq. intros n.
  rewrite list_lookup_insert, length_flatten, !lookup_flatten.
  pose proof (p64_range j Hj) as Hr.
  destruct (decide (n < 64)%nat) as [Hn|Hn].
  - rewrite nth_lookup, list_lookup_insert.
    pose proof (p64_range (Z.of_nat n) ltac:(lia)) as Hr'.
    destruct (decide (Z.to_nat j = n)) as [<-|Hne].
    + rewrite Z2Nat.id by lia.
      destruct (decide _) as [_|Hc]; [|exfalso; apply Hc; lia].
      destruct (decide _) as [_|Hc]; [reflexivity|exfalso; apply Hc; lia].
    + destruct (decide (Z.to_nat j = n /\ _)) as [Hc|_]; [exfalso; apply Hne; lia|].
      destruct (decide _) as [[Hc _]|_].
      * exfalso. apply Hne. assert (Hp : p64 j = p64 (Z.of_nat n)) by lia. apply p64_inj in Hp; lia.
      * simpl. rewrite nth_lookup. reflexivity.
  - destruct (decide _) as [Hc|_]; [lia|reflexivity].
Qed.

Lemma flip_dir_run t idx b dir : flip_dir t idx b dir = fast_run 10 b (idx + dir) dir t [].
Proof.
  unfold flip_dir, fast_run. cbv zeta. destruct (is b (idx + dir) (- t)) eqn:E; [reflexivity|].
  cbn [collect_loop]. rewrite E. destruct (is b (idx + dir) t); reflexivity.
Qed.

Lemma fast_run_stop fuel b curr dir t fl v :
  rd b curr = Some v -> v <> - t -> v <> t -> fast_run fuel b curr dir t fl = b.
Proof.
  intros Hv H1 H2. unfold fast_run.
  assert (Ht : is b curr t = false) by (apply not_true_iff_false; rewrite is_rd; congruence).
  assert (Ho : is b curr (- t) = false) by (apply not_true_iff_false; rewrite is_rd; congruence).
  destruct fuel; cbn [collect_loop]; [rewrite Ht; reflexivity|]. rewrite Ho, Ht. reflexivity.
Qed.

Lemma fast_run_hit fuel b curr dir t fl :
  t <> 0 -> rd b curr = Some t ->
  fast_run fuel b curr dir t fl = fold_left (fun b f => <[Z.to_nat f := t]> b) fl b.
Proof.
  intros Ht0 Hv. unfold fast_run.
  assert (Ht : is b curr t = true) by (rewrite is_rd; exact Hv).
  assert (Ho : is b curr (- t) = false) by (apply not_true_iff_false; rewrite is_rd, Hv; intros H; injection H; lia).
  destruct fuel; cbn [collect_loop]; [rewrite Ht; reflexivity|]. rewrite Ho, Ht. reflexivity.
Qed.

Lemma fast_run_step fuel b curr dir t fl :
  rd b curr = Some (- t) ->
  fast_run (S fuel) b curr dir t fl = fast_run fuel b (curr + dir) dir t (fl ++ [curr]).
Proof.
  intros Hv. unfold fast_run. cbn [collect_loop].
  assert (Ho : is b curr (- t) = true) by (rewrite is_rd; exact Hv). rewrite Ho. reflexivity.
Qed.

Lemma flatten_fold_insert t fl b :
  length b = 100%nat -> Forall (fun j => 0 <= j < 64) fl ->
  flatten (fold_left (fun b f => <[Z.to_nat f := t]> b) (map p64 fl) b) =
  fold_left (fun b f => <[Z.to_nat f := t]> b) fl (flatten b).
Proof.
  revert b. induction fl as [|j fl IH]; intros b Hl Hfl; [reflexivity|].
  apply Forall_cons in Hfl as [Hj Hfl]. cbn [map fold_left].
  rewrite IH by (rewrite ?length_insert; assumption). rewrite flatten_insert by assumption. reflexivity.
Qed.

Lemma flatten_cell b R C :
  0 <= R < 8 -> 0 <= C < 8 -> Core.cell (flatten b) (R * 8 + C) = nth (Z.to_nat (pos R C)) b 0.
Proof.
  intros HR HC. unfold flatten, Core.cell. rewrite nth_map_seq64 by lia. rewrite p64_pos by lia. reflexivity.
Qed.

Lemma walls_rd_out b R C :
  walls b -> -1 <= R <= 8 -> -1 <= C <= 8 -> Core.in_board R C = false -> rd b (pos R C) = Some 2.
Proof.
  intros (_ & Hw) HR HC Hin. apply Hw; [unfold pos; lia|]. rewrite interior_pos by lia. exact Hin.
Qed.

Lemma loops_agree t d b : walls b -> (t = 1 \/ t = -1) -> In d Core.dirs ->
  forall fC fF R C flC,
  -1 <= R <= 8 -> -1 <= C <= 8 -> (fC <= fF)%nat ->
  Core.in_board (R + Z.of_nat fC * d.1) (C + Z.of_nat fC * d.2) = false ->
  Forall (fun j => 0 <= j < 64) flC ->
  flatten (fast_run fF b (pos R C) (10 * d.1 + d.2) t (map p64 flC)) =
  Core.sim_loop fC (flatten b) R C d.1 d.2 t flC.
Proof.
  intros Hw Ht Hd. pose proof (dirs_bounds d Hd) as Hb.
  induction fC as [|f IH]; intros fF R C flC HR HC Hf Hout Hfl.
  - rewrite !Z.add_0_r in Hout. cbn [Core.sim_loop].
    rewrite (fast_run_stop _ _ _ _ _ _ 2); [reflexivity| |lia|lia]. apply walls_rd_out; assumption.
  - cbn [Core.sim_loop]. destruct (Core.in_board R C) eqn:Hin.
    2:{ rewrite (fast_run_stop _ _ _ _ _ _ 2); [reflexivity| |lia|lia]. apply walls_rd_out; assumption. }
    apply core_in_board_spec in Hin. cbv zeta.
    rewrite flatten_cell by lia.
    assert (Hrd : rd b (pos R C) = Some (nth (Z.to_nat (pos R C)) b 0))
      by (destruct Hw as [Hl _]; apply rd_nth; unfold pos; lia).
    destruct (Z.eqb_spec (nth (Z.to_nat (pos R C)) b 0) (- t)) as [Ho|Ho].
    + destruct fF as [|fF]; [lia|]. rewrite Ho in Hrd. rewrite fast_run_step by exact Hrd.
      replace (pos R C + (10 * d.1 + d.2)) with (pos (R + d.1) (C + d.2)) by (unfold pos; ring).
      replace (map p64 flC ++ [pos R C]) with (map p64 (flC ++ [R * 8 + C]))
        by (rewrite map_app; cbn [map]; rewrite p64_pos by lia; reflexivity).
      apply IH; [lia|lia|lia| |].
      * replace (R + d.1 + Z.of_nat f * d.1) with (R + Z.of_nat (S f) * d.1) by (rewrite Nat2Z.inj_succ; ring).
        replace (C + d.2 + Z.of_nat f * d.2) with (C + Z.of_nat (S f) * d.2) by (rewrite Nat2Z.inj_succ; ring).
        exact Hout.
      * apply Forall_app. split; [exact Hfl|]. constructor; [lia|constructor].
    + destruct (Z.eqb_spec (nth (Z.to_nat (pos R C)) b 0) t) as [Hp|Hp].
      * rewrite Hp in Hrd. rewrite fast_run_hit by (lia || exact Hrd).
        apply flatten_fold_insert; [exact (proj1 Hw)|exact Hfl].
      * rewrite (fast_run_stop _ _ _ _ _ _ _ Hrd Ho Hp). reflexivity.
Qed.

Lemma walls_flip_dir t idx b dir :
  walls b -> (t = 1 \/ t = -1) -> walls (flip_dir t idx b dir).
Proof.
  intros [Hl Hw] Ht. split.
  - change (flip_dir t idx b dir) with (fold_left (flip_dir t idx) [dir] b).
    rewrite length_fold_flip. exact Hl.
  - intros i Hi Hint. specialize (Hw i Hi Hint).
    destruct (flip_dir_frame t idx b dir i) as [H|[H _]]; [congruence|].
    rewrite Hw in H. injection H. lia.
Qed.

Lemma flip_dir_sim_step t b r c d :
  walls b -> (t = 1 \/ t = -1) -> In d Core.dirs -> 0 <= r < 8 -> 0 <= c < 8 ->
  flatten (flip_dir t (pos r c) b (10 * d.1 + d.2)) = Core.sim_step r c t (flatten b) d.
Proof.
  intros Hw Ht Hd Hr Hc. pose proof (dirs_bounds d Hd) as Hb.
  rewrite flip_dir_run. unfold Core.sim_step.
  replace (pos r c + (10 * d.1 + d.2)) with (pos (r + d.1) (c + d.2)) by (unfold pos; ring).
  apply (loops_agree t d b Hw Ht Hd 8 10 _ _ []); try lia; [|constructor].
  apply not_true_iff_false. rewrite core_in_board_spec.
  apply in_dirs in Hd. repeat destruct Hd as [->|Hd]; subst; simpl; lia.
Qed.

Lemma flatten_fold_dirs t b r c ds :
  walls b -> (t = 1 \/ t = -1) -> 0 <= r < 8 -> 0 <= c < 8 -> incl ds Core.dirs ->
  flatten (fold_left (flip_dir t (pos r c)) (map (fun d : Z * Z => 10 * d.1 + d.2) ds) b) =
  fold_left (Core.sim_step r c t) ds (flatten b).
Proof.
  revert b. induction ds as [|d ds IH]; intros b Hw Ht Hr Hc Hincl; [reflexivity|].
  cbn [map fold_left]. rewrite IH.
  - rewrite flip_dir_sim_step by (assumption || apply Hincl; left; reflexivity). reflexivity.
  - apply walls_flip_dir; assumption.
  - exact Ht.
  - exact Hr.
  - exact Hc.
  - intros x Hx. apply Hincl. right. exact Hx.
Qed.

Lemma makeMove_simulateMove g m :
  walls (board g) -> (turn g = 1 \/ turn g = -1) -> 0 <= m < 64 ->
  getFlatBoard64 (makeMove g (idx8to10 m)) = Core.simulateMove (getFlatBoard64 g) m (turn g).
Proof.
  intros Hw Ht Hm.
  assert (HR : 0 <= m / 8 < 8) by (split; [apply Z.div_pos; lia|apply Z.div_lt_upper_bound; lia]).
  pose proof (Z.mod_pos_bound m 8 ltac:(lia)) as HC.
  assert (Hm' : m = m / 8 * 8 + m mod 8) by (rewrite (Z.div_mod m 8) at 1 by lia; ring).
  assert (Hpos : idx8to10 m = pos (m / 8) (m mod 8)) by (rewrite Hm' at 1; apply idx8to10_pos; lia).
  rewrite Hpos. unfold makeMove.
  destruct (Z.eqb_spec (pos (m / 8) (m mod 8)) (-1)) as [E|_]; [unfold pos in E; lia|].
  cbn [board turn]. rewrite !flat_flatten. unfold Core.simulateMove. cbv zeta.
  change directions with (map (fun d : Z * Z => 10 * d.1 + d.2) Core.dirs).
  cbn [board turn]. rewrite flatten_fold_dirs.
  2-5: try (exact Ht || lia).
  3: { intros x Hx; exact Hx. }
  - f_equal. change (pos (m / 8) (m mod 8)) with (p64 m). apply flatten_insert; [apply Hw|lia].
  - destruct Hw as [Hl Hw']. split; [rewrite length_insert; exact Hl|].
    intros i Hi Hint. rewrite rd_insert_ne; [apply Hw'; assumption|unfold pos; lia|].
    intros <-. rewrite interior_pos in Hint by lia.
    rewrite (proj2 (core_in_board_spec _ _)) in Hint by lia. discriminate.
Qed.

Lemma list_cells64 l : length l = 64%nat -> l = map (fun j => Core.cell l j) (map Z.of_nat (seq 0 64)).
Proof.
  intros Hl. apply list_eq. intros n. rewrite lookup_map', lookup_L64.
  destruct (decide (n < 64)%nat) as [Hn|Hn]; simpl.
  - unfold Core.cell. rewrite Nat2Z.id. destruct (nth_lookup_or_length l n 0) as [H|H]; [exact H|lia].
  - apply lookup_ge_None. lia.
Qed.

Lemma zeros_cells l :
  length l = 64%nat ->
  length (List.filter (fun v => v =? 0) l) =
  length (List.filter (fun j => Core.cell l j =? 0) (map Z.of_nat (seq 0 64))).
Proof.
  intros Hl. rewrite (list_cells64 l Hl) at 1. apply filter_map_length.
Qed.

Lemma cell_simulateMove_at b m t :
  0 <= m -> (Z.to_nat m < length b)%nat -> Core.cell (Core.simulateMove b m t) m = t.
Proof.
  intros Hm Hl. unfold Core.simulateMove. cbv zeta.
  assert (H : forall ds nb, Core.cell nb m = t -> Core.cell (fold_left (Core.sim_step (m / 8) (m mod 8) t) ds nb) m = t).
  { induction ds as [|d ds IH]; intros nb Hnb; [exact Hnb|]. simpl. apply IH.
    unfold Core.sim_step. destruct (sim_loop_only 8 nb (m / 8 + d.1) (m mod 8 + d.2) d.1 d.2 t [] m) as [E|E];
      rewrite E; [exact Hnb|reflexivity]. }
  apply H. apply cell_insert_eq; assumption.
Qed.

Lemma NoDup_L64 : NoDup (map Z.of_nat (seq 0 64)).
Proof. apply (bool_decide_unpack _). vm_compute. reflexivity. Qed.

Lemma zeros_simulateMove b m t :
  length b = 64%nat -> 0 <= m < 64 -> Core.cell b m = 0 -> t <> 0 ->
  S (length (List.filter (fun v => v =? 0) (Core.simulateMove b m t))) =
  length (List.filter (fun v => v =? 0) b).
Proof.
  intros Hl Hm H0 Ht.
  destruct (simulateMove_frame b m t Ht ltac:(lia)) as [Hl' Hf].
  rewrite !zeros_cells by lia. symmetry.
  apply (filter_length_one _ _ _ m NoDup_L64).
  - apply in_map_iff. exists (Z.to_nat m). split; [lia|]. apply in_seq. lia.
  - rewrite H0. reflexivity.
  - rewrite cell_simulateMove_at by lia. apply Z.eqb_neq. exact Ht.
  - intros x Hx Hne. apply in_map_iff in Hx as (n & <- & _).
    destruct (Hf (Z.of_nat n) ltac:(lia) Hne) as [E|[E1 E2]]; [rewrite E; reflexivity|].
    rewrite E1, E2. destruct (Z.eqb_spec (- t) 0), (Z.eqb_spec t 0); reflexivity || lia.
Qed.

Lemma fast_ok_walls g : fast_ok g -> walls (board g).
Proof.
  intros (Hl & _ & Hc). split; [exact Hl|]. intros i Hi Hint. specialize (Hc i Hi). rewrite Hint in Hc. exact Hc.
Qed.

Lemma zeros_makeMove g idx :
  fast_ok g -> In idx (getLegalMoves g) -> S (zeros (makeMove g idx)) = zeros g.
Proof.
  intros Hok Hin. pose proof Hok as (_ & Ht & _).
  rewrite fast_core_getLegalMoves in Hin by exact Hok. apply in_map_iff in Hin as (m & <- & Hm).
  apply core_getLegalMoves_iff in Hm as (Hm & H0 & _); [|lia].
  unfold zeros. rewrite makeMove_simulateMove; [|apply fast_ok_walls; exact Hok|exact Ht|lia].
  apply zeros_simulateMove; [rewrite flat_flatten; apply length_flatten|lia|exact H0|lia].
Qed.

Lemma floor_index (r : Q) (L : nat) :
  (1 <= L)%nat -> (0 <= r < 1)%Q -> 0 <= Qfloor (r * inject_Z (Z.of_nat L)) < Z.of_nat L.
Proof.
  intros HL [H0 H1]. set (x := (r * inject_Z (Z.of_nat L))%Q).
  assert (HLq : (0 < inject_Z (Z.of_nat L))%Q) by (change 0%Q with (inject_Z 0); rewrite <- Zlt_Qlt; lia).
  assert (Hx0 : (0 <= x)%Q) by (unfold x; apply Qmult_le_0_compat; lra).
  assert (HxL : (x < inject_Z (Z.of_nat L))%Q).
  { unfold x. rewrite <- (Qmult_1_l (inject_Z (Z.of_nat L))) at 2. apply Qmult_lt_compat_r; assumption. }
  split.
  - pose proof (Qlt_floor x) as Hf. assert (Hf' : (0 < inject_Z (Qfloor x + 1))%Q) by lra.
    change 0%Q with (inject_Z 0) in Hf'. rewrite <- Zlt_Qlt in Hf'. lia.
  - pose proof (Qfloor_le x) as Hf. assert (Hf' : (inject_Z (Qfloor x) < inject_Z (Z.of_nat L))%Q) by lra.
    rewrite <- Zlt_Qlt in Hf'. exact Hf'.
Qed.

Lemma pick_in random l n :
  l <> [] -> (0 <= random n < 1)%Q -> exists x, pick random l n = Some x /\ In x l.
Proof.
  intros Hne Hr. unfold pick.
  assert (HL : (1 <= length l)%nat) by (destruct l; [congruence|simpl; lia]).
  pose proof (floor_index (random n) (length l) HL Hr) as Hk.
  rewrite (proj2 (Z.ltb_ge _ _)) by lia.
  destruct (nth_error l _) as [x|] eqn:E.
  - exists x. split; [reflexivity|]. exact (nth_error_In _ _ E).
  - apply nth_error_None in E. lia.
Qed.

Lemma choose_move_ok w random g n :
  fast_ok g -> (forall k, 0 <= random k < 1)%Q ->
  (getLegalMoves g = [] /\ (choose_move w random g n).1 = Some (-1)) \/
  (exists idx, (choose_move w random g n).1 = Some idx /\ In idx (getLegalMoves g)).
Proof.
  intros Hok Hr. unfold choose_move. cbv zeta.
  destruct (getLegalMoves g) as [|m ms] eqn:E; [left; split; reflexivity|]. right.
  cbn [length]. rewrite (proj2 (Nat.ltb_lt 0 (S (length ms)))) by lia.
  destruct (negb _); cbn [fst].
  - destruct (pick_in random (m :: ms) (S n)) as (x & Hx & Hin); [congruence|apply Hr|].
    exists x. split; assumption.
  - exists (aiMove10 w g). split; [reflexivity|]. rewrite <- E. apply aiMove10_legal; [exact Hok|congruence].
Qed.

Lemma isGameOver_false g :
  isGameOver g = false -> passCount g < 2 /\ (1 <= zeros g)%nat.
Proof.
  unfold isGameOver. rewrite orb_false_iff, negb_false_iff. intros [H1 H2].
  apply Z.leb_gt in H1. split; [exact H1|].
  unfold zeros. apply existsb_exists in H2 as (v & Hv & Hz).
  destruct (List.filter (fun v => v =? 0) (getFlatBoard64 g)) eqn:E; [|simpl; lia].
  assert (In v (List.filter (fun v => v =? 0) (getFlatBoard64 g))) by (apply filter_In; auto).
  rewrite E in H. destruct H.
Qed.

Lemma play_ends w random fuel g h n :
  fast_ok g -> 0 <= passCount g -> (forall k, 0 <= random k < 1)%Q ->
  (2 * zeros g + Z.to_nat (2 - passCount g) < fuel)%nat ->
  exists g' h', play w random fuel g h n = Some (g', h') /\ isGameOver g' = true /\ fast_ok g'.
Proof.
  revert g h n. induction fuel as [|f IH]; intros g h n Hok Hpc Hr Hf; [lia|].
  cbn [play]. destruct (isGameOver g) eqn:Eo; [exists g, h; auto|].
  apply isGameOver_false in Eo as [Hpc2 Hz].
  pose proof (choose_move_ok w random g n Hok Hr) as Hc.
  destruct (choose_move w random g n) as [mv n'] eqn:Ec. cbn [fst] in Hc.
  destruct Hc as [[Hnil ->]|(idx & -> & Hin)].
  - apply IH.
    + apply makeMove_ok; [exact Hok|left; reflexivity].
    + unfold makeMove_js, makeMove. simpl. lia.
    + exact Hr.
    + unfold makeMove_js, makeMove. simpl.
      replace (zeros (mkGame (board g) (- turn g) (passCount g + 1))) with (zeros g) by reflexivity. lia.
  - apply IH.
    + apply makeMove_ok; [exact Hok|right; exact Hin].
    + unfold makeMove_js, makeMove. pose proof (in_getLegalMoves g idx Hin) as [Hb _].
      destruct (Z.eqb_spec idx (-1)); [lia|]. simpl. lia.
    + exact Hr.
    + cbn [makeMove_js]. pose proof (zeros_makeMove g idx Hok Hin) as Hzm.
      assert (Hp0 : passCount (makeMove g idx) = 0).
      { unfold makeMove. pose proof (in_getLegalMoves g idx Hin) as [Hb _].
        destruct (Z.eqb_spec idx (-1)); [lia|]. reflexivity. }
      rewrite Hp0. lia.
Qed.

Lemma trainLoop_game_ends w random fuel :
  (forall k, 0 <= random k < 1)%Q -> (123 <= fuel)%nat ->
  exists g h, play w random fuel reset [] 0 = Some (g, h) /\ isGameOver g = true.
Proof.
  intros Hr Hf. destruct (play_ends w random fuel reset [] 0 reset_ok ltac:(simpl; lia) Hr) as (g & h & H1 & H2 & _).
  - assert (Hz : zeros reset = 60%nat) by (vm_compute; reflexivity). rewrite Hz. simpl. lia.
  - exists g, h. split; assumption.
Qed.

Lemma idx_conversions :
  (forall m, 0 <= m < 64 -> interior (idx8to10 m) = true /\ idx10to8 (idx8to10 m) = m) /\
  (forall i, 0 <= i < 100 -> interior i = true -> 0 <= idx10to8 i < 64 /\ idx8to10 (idx10to8 i) = i).
Proof.
  split.
  - intros m Hm.
    assert (H : forallb (fun n => interior (idx8to10 (Z.of_nat n)) &&
                  (idx10to8 (idx8to10 (Z.of_nat n)) =? Z.of_nat n)) (seq 0 64) = true)
      by (vm_compute; reflexivity).
    rewrite forallb_forall in H. specialize (H (Z.to_nat m) ltac:(apply in_seq; lia)).
    rewrite Z2Nat.id in H by lia. apply andb_prop in H as [H1 H2].
    split; [exact H1|apply Z.eqb_eq; exact H2].
  - apply (forall_below_100
      (fun i => interior i = true -> 0 <= idx10to8 i < 64 /\ idx8to10 (idx10to8 i) = i)
      (fun i => negb (interior i) ||
         ((0 <=? idx10to8 i) && (idx10to8 i <? 64) && (idx8to10 (idx10to8 i) =? i)))).
    + intros i Hi Hint. rewrite Hint in Hi. simpl in Hi.
      apply andb_prop in Hi as [Hi H3]. apply andb_prop in Hi as [H1 H2].
      apply Z.leb_le in H1. apply Z.ltb_lt in H2. apply Z.eqb_eq in H3. split; [lia|exact H3].
    + vm_compute. reflexivity.
Qed.

End FastMoreFacts.

(** * The claims *)
Module Claims.
Import JS Grid Weights Examples.

(** C2: both positional evaluators are antisymmetric in the player,
    [evaluate(board, p) == -evaluate(board, 3 - p)], for every weight
    matrix, board and [p]; the N-tuple score of the white side is the
    negation of the score of the black side. *)
Theorem C2_score_antisymmetric :
  (forall w b p, (Worker.evaluate w b p == - Worker.evaluate w b (3 - p))%Q) /\
  (forall w b p, (V6.evaluate w b p == - V6.evaluate w b (3 - p))%Q) /\
  (forall w b, (Core.score w b 1 == - Core.score w b (-1))%Q).
Proof.
  split; [|split].
  - exact EvalFacts.worker_evaluate_neg.
  - exact EvalFacts.v6_evaluate_neg.
  - exact EvalFacts.core_score_neg.
Qed.

(** C3 (counterexample): at depth 0 [minimax] returns the heuristic
    [evaluate] before looking at the moves.  On a full board neither side
    can move, yet the value is 896 and not the terminal value 64000. *)
Lemma C3_counterexample :
  getValidMoves full_board 1 = [] /\ getValidMoves full_board 2 = [] /\
  Worker.minimax (Worker.mkAI Worker.defaultWeights 0) full_board 0 NegInf PosInf true 1 = Num 896 /\
  ~ (896 == Worker.evaluateFinal full_board 1)%Q.
Proof.
  split; [vm_compute; reflexivity|]. split; [vm_compute; reflexivity|].
  split; [vm_compute; reflexivity|]. vm_compute. intros H. discriminate H.
Qed.

(** C3 (amended): at every depth [S d] >= 1, when the side to move has no
    legal move, [minimax] returns the terminal value, the disc
    differential times 1000 (ai-worker.js) or 10000 (part_001), if the
    opponent has no move either, and otherwise the value of the same board
    at depth [d] with [isMax] flipped: the pass consumes one depth unit. *)
Theorem C3_pass_and_terminal (st : Worker.AIState) (st6 : V6.AIState) b d alpha beta (isMax : bool) player :
  getValidMoves b (if isMax then player else 3 - player) = [] ->
  Worker.minimax st b (S d) alpha beta isMax player =
    match getValidMoves b (3 - (if isMax then player else 3 - player)) with
    | [] => Num (inject_Z ((Z.of_nat (count_of b player) - Z.of_nat (count_of b (3 - player))) * 1000))
    | _ => Worker.minimax st b d alpha beta (negb isMax) player
    end /\
  V6.minimax (st6) b (S d) alpha beta isMax player =
    match getValidMoves b (3 - (if isMax then player else 3 - player)) with
    | [] => Num (inject_Z ((Z.of_nat (count_of b player) - Z.of_nat (count_of b (3 - player))) * 10000))
    | _ => V6.minimax (st6) b d alpha beta (negb isMax) player
    end.
Proof.
  intros H. split.
  - unfold Worker.minimax. rewrite SearchFacts.minimax_no_move by exact H.
    rewrite FinalFacts.worker_evaluateFinal. reflexivity.
  - unfold V6.minimax. rewrite SearchFacts.minimax_no_move by exact H.
    rewrite FinalFacts.v6_evaluateFinal. reflexivity.
Qed.

Lemma C3_witness :
  getValidMoves full_board 1 = [] /\
  Worker.minimax (Worker.mkAI Worker.defaultWeights 0) full_board 1 NegInf PosInf true 1 =
    Num (inject_Z ((Z.of_nat (count_of full_board 1) - Z.of_nat (count_of full_board 2)) * 1000)).
Proof.
  split; [vm_compute; reflexivity|].
  destruct (C3_pass_and_terminal (Worker.mkAI Worker.defaultWeights 0)
              (V6.mkAI V6.defaultWeights 0) full_board 0 NegInf PosInf
              true 1 ltac:(vm_compute; reflexivity)) as [H _].
  rewrite H. vm_compute. reflexivity.
Defined.

(** C4: the search depth of [getBestMove] is the number of empty cells
    when it is at most 14, and otherwise the constant 4 (ai-worker.js) or
    6 (part_001). *)
Theorem C4_search_depth b :
  ((Search.searchDepth 4 b = countEmpty b /\ (countEmpty b <= 14)%nat) \/
   (Search.searchDepth 4 b = 4%nat /\ (14 < countEmpty b)%nat)) /\
  ((Search.searchDepth 6 b = countEmpty b /\ (countEmpty b <= 14)%nat) \/
   (Search.searchDepth 6 b = 6%nat /\ (14 < countEmpty b)%nat)).
Proof.
  unfold Search.searchDepth. cbv zeta.
  destruct (Nat.leb_spec (countEmpty b) 14); [split; left|split; right]; split; auto; lia.
Qed.

(** C6: in part_001 one step of the update sets [(r, c)] to the clamp of
    its old value plus the update and writes that same value into
    [(r, 7-c)], [(7-r, c)] and [(7-r, 7-c)], leaving every other cell
    unchanged, so the four cells share one value.  In ai-worker.js the
    four cells get the same additions and stay equal until the clamp,
    applied to [weights[r][c]] only, fires: from [defaultWeights], after
    266 won games with one AI disc in [(0, 0)] the four corners hold 499;
    after 267, [(0, 0)] is clamped to 500 while the three others hold
    500.5. *)
Theorem C6_mirror_class_split :
  (forall w r c u, wf_weights w -> 0 <= r < 8 -> 0 <= c < 8 ->
   forall r' c', 0 <= r' < 8 -> 0 <= c' < 8 ->
     wget (V6.train_cell w r c u) r' c' =
     if in_class r c r' c' then Qjmax (-200) (Qjmin 200 (wget w r c + u)) else wget w r' c') /\
  (let w := Worker.weights (worker_wins 266 (Worker.mkAI Worker.defaultWeights 0) corner_board) in
   (wget w 0 0 == 499 /\ wget w 0 7 == 499 /\ wget w 7 0 == 499 /\ wget w 7 7 == 499)%Q) /\
  (let w := Worker.weights (worker_wins 267 (Worker.mkAI Worker.defaultWeights 0) corner_board) in
   (wget w 0 0 == 500 /\ wget w 0 7 == 1001 # 2 /\ wget w 7 0 == 1001 # 2 /\
    wget w 7 7 == 1001 # 2)%Q).
Proof.
  split; [|split].
  - intros w r c u Hw Hr Hc r' c' Hr' Hc'. apply TrainFacts.v6_train_cell_spec; assumption.
  - vm_compute. repeat match goal with |- _ /\ _ => split end; reflexivity.
  - vm_compute. repeat match goal with |- _ /\ _ => split end; reflexivity.
Qed.

(** C7: ai-worker.js clamps only [weights[r][c]] to [[-500, 500]]; the
    three mirror cells get the update without a clamp.  Starting from a
    matrix with every entry at 500, a won game with one AI disc in
    [(0, 0)] leaves [(0, 7)] at 501.5, outside the range. *)
Theorem C7_mirror_not_clamped :
  within 500 saturated_weights /\
  wget (Worker.weights (fst (Worker.train (Worker.mkAI saturated_weights 0) corner_board 1 1))) 0 7
    = (1003 # 2)%Q /\
  ~ within 500 (Worker.weights (fst (Worker.train (Worker.mkAI saturated_weights 0) corner_board 1 1))).
Proof.
  split; [|split].
  - intros r c Hr Hc.
    assert (Hr' : r = 0 \/ r = 1 \/ r = 2 \/ r = 3 \/ r = 4 \/ r = 5 \/ r = 6 \/ r = 7) by lia.
    assert (Hc' : c = 0 \/ c = 1 \/ c = 2 \/ c = 3 \/ c = 4 \/ c = 5 \/ c = 6 \/ c = 7) by lia.
    destruct Hr' as [->|[->|[->|[->|[->|[->|[->| ->]]]]]]];
    destruct Hc' as [->|[->|[->|[->|[->|[->|[->| ->]]]]]]]; vm_compute; split; discriminate.
  - vm_compute. reflexivity.
  - intros H. destruct (H 0 7 ltac:(lia) ltac:(lia)) as [_ H2]. revert H2.
    vm_compute. intros H2. apply H2. reflexivity.
Qed.

(** C9: a draw ([winner === 0]) returns before any write: the state,
    weights included, is unchanged, in both versions. *)
Theorem C9_draw_no_update (st : Worker.AIState) (st6 : V6.AIState) b ai :
  Worker.train st b 0 ai = (st, false) /\ V6.train st6 b 0 ai = (st6, false).
Proof. split; reflexivity. Qed.

(** C10: [getBestMove] returns the pass value ([null] or [-1]) exactly
    when there is no legal move, and otherwise one of the legal moves, in
    ai-worker.js, part_001 and ai_core.js. *)
Theorem C10_best_move_legal :
  (forall st b p,
     match Worker.getBestMove st b p with
     | None => getValidMoves b p = []
     | Some m => In m (getValidMoves b p)
     end) /\
  (forall st b p,
     match V6.getBestMove st b p with
     | None => getValidMoves b p = []
     | Some m => In m (getValidMoves b p)
     end) /\
  (forall w b t,
     match Core.getLegalMoves b t with
     | [] => Core.getBestMove w b t = -1
     | _ => In (Core.getBestMove w b t) (Core.getLegalMoves b t) /\ Core.getBestMove w b t <> -1
     end).
Proof.
  split; [|split].
  - intros st b p. apply SearchFacts.getBestMove_in.
  - intros st b p. apply SearchFacts.getBestMove_in.
  - exact CoreMoveFacts.core_getBestMove_in.
Qed.

(** C1: a move is returned exactly when its cell is empty and, in one of
    the 8 directions, a non-empty run of opponent discs is followed by a
    disc of the mover ([getValidMoves] of ai-worker.js and part_001,
    [getLegalMoves] of ai_core.js); playing a returned move turns at least
    one opponent disc into a disc of the mover. *)
Theorem C1_legal_moves b p r c (cb : list Z) t i :
  wf_board b -> length cb = 64%nat -> (t = 1 \/ t = -1) ->
  (In (r, c) (getValidMoves b p) <->
   in_board r c = true /\ get b r c = 0 /\
   exists d, In d directions /\ flanks b r c d.1 d.2 p) /\
  (In (r, c) (getValidMoves b p) ->
   exists x y, in_board x y = true /\ get b x y = 3 - p /\ get (execute b r c p) x y = p) /\
  (In i (Core.getLegalMoves cb t) <->
   0 <= i < 64 /\ Core.cell cb i = 0 /\
   exists d, In d Core.dirs /\ Core.flanks cb (i / 8) (i mod 8) d.1 d.2 t) /\
  (In i (Core.getLegalMoves cb t) ->
   exists j, 0 <= j < 64 /\ Core.cell cb j = - t /\ Core.cell (Core.simulateMove cb i t) j = t).
Proof.
  intros Hb Hl Ht. assert (Ht0 : t <> 0) by lia.
  split; [apply GridFacts.getValidMoves_iff|].
  split; [apply GridFacts.execute_flips_one; exact Hb|].
  split; [apply CoreFacts.core_getLegalMoves_iff; exact Ht0|].
  apply CoreFlipFacts.simulateMove_flips_one; assumption.
Qed.

Lemma C1_witness :
  wf_board initial_board /\ length core_initial_board = 64%nat /\
  In (2, 3) (getValidMoves initial_board 1) /\
  (exists x y, in_board x y = true /\ get initial_board x y = 2 /\
     get (execute initial_board 2 3 1) x y = 1) /\
  In 19 (Core.getLegalMoves core_initial_board 1) /\
  (exists j, 0 <= j < 64 /\ Core.cell core_initial_board j = -1 /\
     Core.cell (Core.simulateMove core_initial_board 19 1) j = 1).
Proof.
  assert (Hb : wf_board initial_board) by (split; [reflexivity|repeat constructor]).
  assert (Hl : length core_initial_board = 64%nat) by reflexivity.
  assert (Hm : In (2, 3) (getValidMoves initial_board 1)) by (vm_compute; left; reflexivity).
  assert (Hc : In 19 (Core.getLegalMoves core_initial_board 1)) by (vm_compute; left; reflexivity).
  destruct (C1_legal_moves initial_board 1 2 3 core_initial_board 1 19 Hb Hl (or_introl eq_refl))
    as [_ [H2 [_ H4]]].
  split; [exact Hb|]. split; [exact Hl|]. split; [exact Hm|].
  split; [exact (H2 Hm)|]. split; [exact Hc|]. exact (H4 Hc).
Defined.

(** C8: a legal non-pass move adds at least one disc: the placed disc,
    while flips only turn discs over (ai-worker.js [execute], FastOthello
    [makeMove]); a pass leaves the FastOthello board as it is. *)
Theorem C8_disc_count_grows b p r c g idx :
  wf_board b -> (p = 1 \/ p = 2) -> In (r, c) (getValidMoves b p) ->
  (Fast.turn g = 1 \/ Fast.turn g = -1) -> In idx (Fast.getLegalMoves g) ->
  (count_discs b + 1 <= count_discs (execute b r c p))%nat /\
  (Fast.discs (Fast.board g) + 1 <= Fast.discs (Fast.board (Fast.makeMove g idx)))%nat /\
  Fast.board (Fast.makeMove g (-1)) = Fast.board g.
Proof.
  intros Hb Hp Hm Ht Hi. split; [|split].
  - apply GridFacts.execute_count_discs; [exact Hb|lia|exact Hm].
  - apply FastFacts.makeMove_discs; assumption.
  - reflexivity.
Qed.

Lemma C8_witness :
  wf_board initial_board /\ In (2, 3) (getValidMoves initial_board 1) /\
  In 34 (Fast.getLegalMoves Fast.reset) /\
  (count_discs initial_board + 1 <= count_discs (execute initial_board 2 3 1))%nat /\
  (Fast.discs (Fast.board Fast.reset) + 1 <= Fast.discs (Fast.board (Fast.makeMove Fast.reset 34)))%nat.
Proof.
  assert (Hb : wf_board initial_board) by (split; [reflexivity|repeat constructor]).
  assert (Hm : In (2, 3) (getValidMoves initial_board 1)) by (vm_compute; left; reflexivity).
  assert (Hi : In 34 (Fast.getLegalMoves Fast.reset)) by (vm_compute; left; reflexivity).
  destruct (C8_disc_count_grows initial_board 1 2 3 Fast.reset 34 Hb (or_introl eq_refl) Hm
              (or_introl eq_refl) Hi) as [H1 [H2 _]].
  split; [exact Hb|]. split; [exact Hm|]. split; [exact Hi|]. split; assumption.
Defined.

(** C5: the N-tuple [train] of ai_core.js is the spec's TD rule
    [CoreSpec.spec_train]: the history traversed in reverse, the target
    starting at the result; at each board, the value [score] of the board,
    [(target - value) * learningRate] added once per (tuple, symmetry)
    combination to the entry that combination reads, then the value as
    the next target.  The index of a combination is the base-3 number whose
    digit [k] is the class of the [k]-th tuple cell, as in [score]. *)
Theorem C5_td_training w history result :
  Core.train w history result = CoreSpec.spec_train w history result /\
  (forall tuple map board, Core.tupleIndex tuple map board = CoreSpec.spec_index tuple map board) /\
  (forall w' board, Core.evaluate w' board = CoreSpec.spec_score w' board).
Proof.
  split; [apply CoreTrainFacts.train_spec|]. split.
  - exact CoreTrainFacts.tupleIndex_spec.
  - exact CoreTrainFacts.evaluate_spec.
Qed.

End Claims.

(** * Further properties of the code *)
Module Extras.
Import JS Grid Weights Views Examples.

Lemma initial_board_wf : wf_board initial_board.
Proof. split; [reflexivity|repeat constructor]. Qed.

(** X1: [execute(b, r, c, p)] on an 8x8 board changes no cell other than
    [(r, c)], except discs of the opponent [3 - p] that become discs of
    [p]. *)
Theorem X1_execute_frame b r c p :
  wf_board b -> exec_frame b (execute b r c p) r c p.
Proof. apply GameFacts.execute_frame. Qed.

Lemma X1_witness : exec_frame initial_board (execute initial_board 2 3 1) 2 3 1.
Proof. apply (X1_execute_frame initial_board 2 3 1). exact initial_board_wf. Defined.

(** X2: playing a legal move with [execute] fills exactly one empty cell:
    [countEmpty] drops by one. *)
Theorem X2_execute_fills_one b p r c :
  wf_board b -> (p = 1 \/ p = 2) -> In (r, c) (getValidMoves b p) ->
  (countEmpty (execute b r c p) + 1)%nat = countEmpty b.
Proof. apply GameFacts.execute_countEmpty. Qed.

Lemma X2_witness : (countEmpty (execute initial_board 2 3 1) + 1)%nat = countEmpty initial_board.
Proof.
  apply (X2_execute_fills_one initial_board 1 2 3);
    [exact initial_board_wf|left; reflexivity|vm_compute; left; reflexivity].
Defined.

(** X3: [evaluateFinal] is antisymmetric in both versions: the value for
    [p] is minus the value for [3 - p]. *)
Theorem X3_evaluateFinal_antisymmetric b p :
  (Worker.evaluateFinal b p == - Worker.evaluateFinal b (3 - p))%Q /\
  (V6.evaluateFinal b p == - V6.evaluateFinal b (3 - p))%Q.
Proof. apply GameFacts.evaluateFinal_neg. Qed.

(** X4: in part_001, starting from [defaultWeights] (as the constructor
    and [reset] set them), the weight matrix stays invariant under the
    left-right and up-down mirrors after any sequence of [train] calls. *)
Theorem X4_v6_weights_symmetric (games : list (Board * Z * Z)) n :
  mirror_symmetric (V6.weights (fold_left (fun st g => fst (V6.train st g.1.1 g.1.2 g.2))
    games (V6.mkAI V6.defaultWeights n))).
Proof. apply GameFacts.v6_trains_sym. Qed.

(** X5: in both versions, [train] leaves the weight of [(r', c')]
    unchanged when no disc of [aiPlayer] lies in its class of mirror
    cells. *)
Theorem X5_train_untouched_cells b winner ai r' c' :
  0 <= r' < 8 -> 0 <= c' < 8 ->
  (forall r c, 0 <= r < 8 -> 0 <= c < 8 -> get b r c = ai -> in_class r c r' c' = false) ->
  (forall st, wf_weights (Worker.weights st) ->
     wget (Worker.weights (fst (Worker.train st b winner ai))) r' c' = wget (Worker.weights st) r' c') /\
  (forall st, wf_weights (V6.weights st) ->
     wget (V6.weights (fst (V6.train st b winner ai))) r' c' = wget (V6.weights st) r' c').
Proof. apply GameFacts.train_frame. Qed.

Lemma X5_witness :
  (forall st, wf_weights (Worker.weights st) ->
     wget (Worker.weights (fst (Worker.train st initial_board 1 1))) 0 0 = wget (Worker.weights st) 0 0) /\
  (forall st, wf_weights (V6.weights st) ->
     wget (V6.weights (fst (V6.train st initial_board 1 1))) 0 0 = wget (V6.weights st) 0 0).
Proof.
  apply (X5_train_untouched_cells initial_board 1 1 0 0); [lia|lia|].
  intros r c Hr Hc H.
  assert (Hr' : r = 0 \/ r = 1 \/ r = 2 \/ r = 3 \/ r = 4 \/ r = 5 \/ r = 6 \/ r = 7) by lia.
  assert (Hc' : c = 0 \/ c = 1 \/ c = 2 \/ c = 3 \/ c = 4 \/ c = 5 \/ c = 6 \/ c = 7) by lia.
  destruct Hr' as [->|[->|[->|[->|[->|[->|[->| ->]]]]]]];
  destruct Hc' as [->|[->|[->|[->|[->|[->|[->| ->]]]]]]];
  vm_compute in H |- *; first [reflexivity|discriminate].
Defined.

(** X6: the move ordering [moves.sort((a,b) => key(b) - key(a))] of
    [getBestMove] and [runTrainingLoop] returns the same moves, ordered by
    decreasing key. *)
Theorem X6_sort_desc_sorted {A} (key : A -> Q) l :
  Sorted (desc key) (Search.sort_desc key l) /\ Permutation (Search.sort_desc key l) l.
Proof. apply GameFacts.sort_desc_spec. Qed.

(** X7: a self-play game of [runTrainingLoop] from a position where the
    side to move is 1 or 2 always ends by two passes in a row, within
    [2 * countEmpty + 2] rounds, on a board where neither side can move;
    [move] is never [undefined]. *)
Theorem X7_selfplay_game_ends explore weights random fuel b cur pc n :
  wf_board b -> (cur = 1 \/ cur = 2) -> (pc = 0 \/ pc = 1) ->
  (forall k, 0 <= random k < 1)%Q ->
  (pc = 1 -> getValidMoves b (3 - cur) = []) ->
  (2 * countEmpty b + 2 <= fuel + Z.to_nat pc)%nat ->
  exists b', SelfPlay.game_loop explore weights random fuel b cur pc n = SelfPlay.Finished b' /\
    getValidMoves b' 1 = [] /\ getValidMoves b' 2 = [].
Proof. apply GameFacts.game_loop_ends. Qed.

Lemma X7_witness :
  exists b', SelfPlay.game_loop (1 # 5) Worker.defaultWeights (fun _ => 0%Q) 122 initial_board 1 0 0
    = SelfPlay.Finished b' /\ getValidMoves b' 1 = [] /\ getValidMoves b' 2 = [].
Proof.
  apply X7_selfplay_game_ends;
    [exact initial_board_wf|left; reflexivity|left; reflexivity| | |].
  - intros k. split; [apply Qle_refl|reflexivity].
  - intros H. discriminate.
  - assert (E : countEmpty initial_board = 60%nat) by (vm_compute; reflexivity).
    rewrite E. simpl. lia.
Defined.

(** X8: the base-3 index computed for a tuple in [evaluate] and
    [updateWeights] is below [3 ^ tuple.length], the size of that tuple's
    weight table. *)
Theorem X8_tupleIndex_in_table tuple map board :
  (Core.tupleIndex tuple map board < 3 ^ length tuple)%nat.
Proof. apply CoreMoreFacts.tupleIndex_bound. Qed.

(** X9: each of the eight maps of [generateSymmetryMaps] is a permutation
    of the 64 cells. *)
Theorem X9_symmetryMaps_permutation s :
  (s < 8)%nat -> Permutation (nth s Core.symmetryMaps []) (seq 0 64).
Proof. apply CoreMoreFacts.symmetryMaps_perm. Qed.

Lemma X9_witness : Permutation (nth 5 Core.symmetryMaps []) (seq 0 64).
Proof. apply X9_symmetryMaps_permutation. lia. Defined.

(** X11: [updateWeights] of ai_core.js makes the same change to the
    tables for a board and for each of its eight symmetric images. *)
Theorem X11_updateWeights_symmetry_invariant w b err g :
  (g < 8)%nat -> Core.updateWeights w (CoreSym.transform g b) err = Core.updateWeights w b err.
Proof. apply CoreMoreFacts.updateWeights_transform. Qed.

Lemma X11_witness :
  Core.updateWeights [] (CoreSym.transform 6 core_initial_board) 1 = Core.updateWeights [] core_initial_board 1.
Proof. apply X11_updateWeights_symmetry_invariant. lia. Defined.

(** X12: [getLegalMoves] of ai_core.js lists the moves in strictly
    increasing order, so without repetition. *)
Theorem X12_core_legal_moves_increasing b t : StronglySorted Z.lt (Core.getLegalMoves b t).
Proof. apply CoreMoreFacts.getLegalMoves_sorted. Qed.

(** X13: [simulateMove(board, m, turn)] keeps the length of the board,
    and every cell other than [m] is unchanged or is a disc of [-turn]
    turned into a disc of [turn]. *)
Theorem X13_simulateMove_frame b m t :
  t <> 0 -> 0 <= m ->
  length (Core.simulateMove b m t) = length b /\
  forall j, 0 <= j -> j <> m ->
    Core.cell (Core.simulateMove b m t) j = Core.cell b j \/
    (Core.cell b j = - t /\ Core.cell (Core.simulateMove b m t) j = t).
Proof. apply CoreMoreFacts.simulateMove_frame. Qed.

Lemma X13_witness :
  length (Core.simulateMove core_initial_board 19 1) = length core_initial_board /\
  forall j, 0 <= j -> j <> 19 ->
    Core.cell (Core.simulateMove core_initial_board 19 1) j = Core.cell core_initial_board j \/
    (Core.cell core_initial_board j = - 1 /\ Core.cell (Core.simulateMove core_initial_board 19 1) j = 1).
Proof. apply X13_simulateMove_frame; lia. Defined.

(** X14: [makeMove(idx)] of FastOthello keeps the 100 cells, and every
    cell other than [idx] is unchanged or is a disc of [-turn] turned into
    a disc of [turn]. *)
Theorem X14_makeMove_frame g idx :
  0 <= idx ->
  length (Fast.board (Fast.makeMove g idx)) = length (Fast.board g) /\
  forall i, i <> idx -> rd_frame (Fast.turn g) (Fast.board g) (Fast.board (Fast.makeMove g idx)) i.
Proof. apply FastMoreFacts.makeMove_frame_thm. Qed.

Lemma X14_witness :
  length (Fast.board (Fast.makeMove Fast.reset 34)) = length (Fast.board Fast.reset) /\
  forall i, i <> 34 -> rd_frame (Fast.turn Fast.reset) (Fast.board Fast.reset) (Fast.board (Fast.makeMove Fast.reset 34)) i.
Proof. apply X14_makeMove_frame. lia. Defined.

(** X15: [reset()] gives a well-formed game (walls on the border, -1, 0
    or 1 inside, turn 1 or -1), and [makeMove] keeps it well formed for a
    pass (-1) or a move of [getLegalMoves()]. *)
Theorem X15_fast_game_shape :
  fast_ok Fast.reset /\
  forall g idx, fast_ok g -> (idx = -1 \/ In idx (Fast.getLegalMoves g)) -> fast_ok (Fast.makeMove g idx).
Proof. split; [exact FastMoreFacts.reset_ok|exact FastMoreFacts.makeMove_ok]. Qed.

Lemma X15_witness : fast_ok (Fast.makeMove (Fast.makeMove Fast.reset 34) (-1)).
Proof.
  destruct X15_fast_game_shape as [H0 H1].
  apply H1; [apply H1; [exact H0|right; vm_compute; left; reflexivity]|left; reflexivity].
Defined.

(** X16: on a well-formed game, FastOthello's [getLegalMoves()] is the
    [getLegalMoves] of ai_core.js on [getFlatBoard64()], each index
    converted to 10x10 as [trainLoop] does. *)
Theorem X16_fast_core_legal_moves g :
  fast_ok g ->
  Fast.getLegalMoves g = map FastGame.idx8to10 (Core.getLegalMoves (FastGame.getFlatBoard64 g) (Fast.turn g)).
Proof. apply FastMoreFacts.fast_core_getLegalMoves. Qed.

Lemma X16_witness :
  Fast.getLegalMoves Fast.reset
  = map FastGame.idx8to10 (Core.getLegalMoves (FastGame.getFlatBoard64 Fast.reset) (Fast.turn Fast.reset)).
Proof. apply X16_fast_core_legal_moves. exact FastMoreFacts.reset_ok. Defined.

(** X17: in [trainLoop], when legal moves exist, the AI move
    [ai.getBestMove(currentBoard64, game.turn)] converted to 10x10 is one
    of [game.getLegalMoves()]. *)
Theorem X17_ai_move_legal w g :
  fast_ok g -> Fast.getLegalMoves g <> [] -> In (FastGame.aiMove10 w g) (Fast.getLegalMoves g).
Proof. apply FastMoreFacts.aiMove10_legal. Qed.

Lemma X17_witness : In (FastGame.aiMove10 [] Fast.reset) (Fast.getLegalMoves Fast.reset).
Proof.
  apply X17_ai_move_legal; [exact FastMoreFacts.reset_ok|vm_compute; discriminate].
Defined.

(** X18: FastOthello's [makeMove] and ai_core.js's [simulateMove] agree:
    playing the converted index of flat cell [m] and reading
    [getFlatBoard64()] gives [simulateMove] of the flat board. *)
Theorem X18_makeMove_simulateMove g m :
  walls (Fast.board g) -> (Fast.turn g = 1 \/ Fast.turn g = -1) -> 0 <= m < 64 ->
  FastGame.getFlatBoard64 (Fast.makeMove g (FastGame.idx8to10 m))
  = Core.simulateMove (FastGame.getFlatBoard64 g) m (Fast.turn g).
Proof. apply FastMoreFacts.makeMove_simulateMove. Qed.

Lemma X18_witness :
  FastGame.getFlatBoard64 (Fast.makeMove Fast.reset (FastGame.idx8to10 19))
  = Core.simulateMove (FastGame.getFlatBoard64 Fast.reset) 19 (Fast.turn Fast.reset).
Proof.
  apply X18_makeMove_simulateMove;
    [exact (FastMoreFacts.fast_ok_walls _ FastMoreFacts.reset_ok)|left; reflexivity|lia].
Defined.

(** X19: on a well-formed game, a legal move of FastOthello fills exactly
    one of the 64 inner cells. *)
Theorem X19_makeMove_fills_one g idx :
  fast_ok g -> In idx (Fast.getLegalMoves g) -> S (zeros (Fast.makeMove g idx)) = zeros g.
Proof. apply FastMoreFacts.zeros_makeMove. Qed.

Lemma X19_witness : S (zeros (Fast.makeMove Fast.reset 34)) = zeros Fast.reset.
Proof.
  apply X19_makeMove_fills_one; [exact FastMoreFacts.reset_ok|vm_compute; left; reflexivity].
Defined.

(** X20: every game of [trainLoop] ends: from [reset()], whatever
    [Math.random()] returns in [[0, 1)], the loop
    [while (!game.isGameOver())] stops within 123 rounds. *)
Theorem X20_trainLoop_game_ends w random fuel :
  (forall k, 0 <= random k < 1)%Q -> (123 <= fuel)%nat ->
  exists g h, FastGame.play w random fuel Fast.reset [] 0 = Some (g, h) /\ FastGame.isGameOver g = true.
Proof. apply FastMoreFacts.trainLoop_game_ends. Qed.

Lemma X20_witness :
  exists g h, FastGame.play [] (fun _ => 0%Q) 123 Fast.reset [] 0 = Some (g, h) /\
    FastGame.isGameOver g = true.
Proof.
  apply X20_trainLoop_game_ends; [|lia].
  intros k. split; [apply Qle_refl|reflexivity].
Defined.

(** X21: the 8x8 to 10x10 conversion of [trainLoop] maps the flat indices
    0..63 onto the inner cells of the 10x10 board, and [idx10to8] is its
    inverse both ways. *)
Theorem X21_index_conversions :
  (forall m, 0 <= m < 64 -> interior (FastGame.idx8to10 m) = true /\
     FastGame.idx10to8 (FastGame.idx8to10 m) = m) /\
  (forall i, 0 <= i < 100 -> interior i = true ->
     0 <= FastGame.idx10to8 i < 64 /\ FastGame.idx8to10 (FastGame.idx10to8 i) = i).
Proof. exact FastMoreFacts.idx_conversions. Qed.

Lemma X21_witness : FastGame.idx10to8 (FastGame.idx8to10 45) = 45 /\ FastGame.idx8to10 (FastGame.idx10to8 88) = 88.
Proof.
  destruct X21_index_conversions as [H1 H2]. split.
  - apply (H1 45). lia.
  - apply (H2 88); [lia|reflexivity].
Defined.

End Extras.
